(** * FLO: signed markup rendering -- the compiler and the consumer pipeline

    A shallow embedding of the FLO demo: the producer-side compiler
    [compileFLOtoHTML] (server.js), the three consumer-side runtimes
    (runtime.js and its two later revisions) with their [clientCompileFLO],
    the verify-then-render flow of the runtime, and what the producer
    does around its compiler: the signing of a source, the shell it sends
    and its routes.

    JavaScript strings are sequences of UTF-16 code units; they are modelled
    as [list N].  The regular expressions of the source are kept as syntax
    trees and run by a backtracking matcher that enumerates the matches at a
    position in the priority order of the ECMAScript semantics (greedy
    quantifiers longest first, lazy ones shortest first, leftmost alternative
    of a sequence first); the head of that enumeration is the match that
    [RegExp.prototype.exec] reports.

    A context object is the finite map of its own properties on top of
    [Object.prototype], which every object literal inherits from; the one
    thing the compilers can observe of the engine that runs them, the text
    of a built-in function, is a parameter ([engine]). *)

From Stdlib Require Import NArith Ascii String List.
From stdpp Require Import gmap list.

Local Open Scope N_scope.

(** ** Strings *)

Abbreviation jsstring := (list N).

(** [str] reads an ASCII literal as a sequence of code units. *)
Definition str (s : string) : jsstring :=
  map N_of_ascii (list_ascii_of_string s).

Arguments str : simpl never.

(** The double quote, which the literals below splice in by hand. *)
Definition dq : jsstring := [34].

(** ** Character classes *)

Inductive cclass : Type :=
| CDot                (* .            *)
| CSpace              (* \s           *)
| CWord               (* [a-zA-Z0-9_] *)
| CNot (c : N).       (* [^c]         *)

(** ECMAScript LineTerminator: LF, CR, LS, PS. *)
Definition is_line_terminator (x : N) : bool :=
  (x =? 10) || (x =? 13) || (x =? 8232) || (x =? 8233).

(** ECMAScript WhiteSpace and LineTerminator, the set that both [\s] and
    [String.prototype.trim] use. *)
Definition is_space (x : N) : bool :=
  (x =? 9) || (x =? 10) || (x =? 11) || (x =? 12) || (x =? 13) || (x =? 32)
  || (x =? 160) || (x =? 5760) || ((8192 <=? x) && (x <=? 8202))
  || (x =? 8232) || (x =? 8233) || (x =? 8239) || (x =? 8287)
  || (x =? 12288) || (x =? 65279).

Definition is_word (x : N) : bool :=
  ((97 <=? x) && (x <=? 122)) || ((65 <=? x) && (x <=? 90))
  || ((48 <=? x) && (x <=? 57)) || (x =? 95).

Definition cmatch (c : cclass) (x : N) : bool :=
  match c with
  | CDot => negb (is_line_terminator x)
  | CSpace => is_space x
  | CWord => is_word x
  | CNot y => negb (x =? y)
  end.

(** ** Regular expressions (the fragment the source uses) *)

Inductive regex : Type :=
| Lit (l : jsstring)          (* a run of literal characters *)
| Star (c : cclass)           (* c*   greedy *)
| Plus (c : cclass)           (* c+   greedy *)
| LazyStar (c : cclass)       (* c*?  lazy   *)
| Cat (r1 r2 : regex)         (* r1 r2       *)
| Grp (r : regex).            (* ( r )       *)

Infix "⊙" := Cat (at level 60, right associativity).

Fixpoint strip_prefix (l s : jsstring) : option jsstring :=
  match l with
  | [] => Some s
  | a :: l' =>
      match s with
      | x :: s' => if x =? a then strip_prefix l' s' else None
      | [] => None
      end
  end.

(** The remainders left by [c*], longest consumption first. *)
Fixpoint star_greedy (c : cclass) (s : jsstring) : list jsstring :=
  match s with
  | x :: s' => if cmatch c x then star_greedy c s' ++ [s] else [s]
  | [] => [[]]
  end.

(** The remainders left by [c*?], shortest consumption first. *)
Fixpoint star_lazy (c : cclass) (s : jsstring) : list jsstring :=
  s :: match s with
       | x :: s' => if cmatch c x then star_lazy c s' else []
       | [] => []
       end.

Definition plus_greedy (c : cclass) (s : jsstring) : list jsstring :=
  match s with
  | x :: s' => if cmatch c x then star_greedy c s' else []
  | [] => []
  end.

(** The part of [s] consumed when [rest] is what remains. *)
Definition consumed (s rest : jsstring) : jsstring :=
  take (length s - length rest) s.

(** [ms r s]: every way [r] matches a prefix of [s], as the remainder and the
    captures of [r] (in the order of their opening parentheses), listed in
    backtracking priority. *)
Fixpoint ms (r : regex) (s : jsstring) : list (jsstring * list jsstring) :=
  match r with
  | Lit l =>
      match strip_prefix l s with
      | Some rest => [(rest, [])]
      | None => []
      end
  | Star c => map (λ rest, (rest, [])) (star_greedy c s)
  | Plus c => map (λ rest, (rest, [])) (plus_greedy c s)
  | LazyStar c => map (λ rest, (rest, [])) (star_lazy c s)
  | Cat r1 r2 =>
      flat_map (λ m1, map (λ m2, (m2.1, m1.2 ++ m2.2)) (ms r2 m1.1)) (ms r1 s)
  | Grp r' => map (λ m, (m.1, consumed s m.1 :: m.2)) (ms r' s)
  end.

(** The match at the start of [s], if any. *)
Definition match_at (r : regex) (s : jsstring)
  : option (jsstring * list jsstring) := head (ms r s).

(** ** String.prototype.replace *)

(** A replacer receives the matched text and the captures. *)
Definition replacer := jsstring → list jsstring → jsstring.

(** Global replace.  [skip] counts the code units of the current match that
    are still to be passed over; an empty match inserts its replacement and
    the scan moves on by one code unit, as [lastIndex] does. *)
Fixpoint replace_go (r : regex) (f : replacer) (skip : nat) (s : jsstring)
  : jsstring :=
  match s with
  | [] =>
      match skip, match_at r [] with
      | O, Some m => f [] m.2
      | _, _ => []
      end
  | x :: s' =>
      match skip with
      | S k => replace_go r f k s'
      | O =>
          match match_at r s with
          | Some m =>
              let w := consumed s m.1 in
              f w m.2 ++
                match length w with
                | O => x :: replace_go r f O s'
                | S k => replace_go r f k s'
                end
          | None => x :: replace_go r f O s'
          end
      end
  end.

Definition replace_all (r : regex) (f : replacer) (s : jsstring) : jsstring :=
  replace_go r f O s.

(** Replace without the [g] flag: the first match only. *)
Fixpoint replace_first (r : regex) (f : replacer) (s : jsstring) : jsstring :=
  match match_at r s with
  | Some m => f (consumed s m.1) m.2 ++ m.1
  | None =>
      match s with
      | x :: s' => x :: replace_first r f s'
      | [] => []
      end
  end.

(** GetSubstitution for a replacement given as a string: [$$], [$&] and
    [$n] for a capture that exists; any other [$] stands for itself.  (The
    two-digit, [$`], [$'] and named forms do not occur in the templates of
    the source.) *)
Fixpoint expand (tmpl : jsstring) (w : jsstring) (caps : list jsstring)
  : jsstring :=
  match tmpl with
  | [] => []
  | c :: t =>
      if c =? 36 then
        match t with
        | d :: t' =>
            if d =? 36 then 36 :: expand t' w caps
            else if d =? 38 then w ++ expand t' w caps
            else if (49 <=? d) && (d <=? 57) then
              match caps !! (N.to_nat (d - 49)) with
              | Some cap => cap ++ expand t' w caps
              | None => c :: expand t w caps
              end
            else c :: expand t w caps
        | [] => [c]
        end
      else c :: expand t w caps
  end.

Definition replace_with (r : regex) (tmpl : jsstring) : jsstring → jsstring :=
  replace_all r (expand tmpl).

(** A chain of [.replace(pattern, template)] calls: the table of patterns
    and templates applied rule after rule, each to the result of the one
    before. *)
Definition structural (rules : list (regex * jsstring)) (html : jsstring)
  : jsstring :=
  fold_left (λ h rule, replace_with rule.1 rule.2 h) rules html.

(** ** Values and context objects *)

(** The values a read of [context[v]] can give, as far as the compilers
    tell them apart: the primitives a binding may hold, and what an object
    literal inherits from [Object.prototype] -- its built-in functions, each
    known by its name, and [Object.prototype] itself, which [__proto__]
    reads.  (Numbers and other objects are left out.) *)
Inductive jsval : Type :=
| VUndefined
| VNull
| VBool (b : bool)
| VStr (s : jsstring)
| VFunction (name : jsstring)
| VObject.

(** What differs from one JavaScript engine to the next, as far as the
    compilers can observe it: the text [Function.prototype.toString] gives
    for a built-in function of a given name.  ECMAScript fixes the syntax of
    that text (NativeFunction) and leaves its white space to the engine. *)
Class engine : Type := { native_source : jsstring → jsstring }.

(** V8, the engine of Node and of Chromium: the text on one line. *)
Definition v8 : engine := {|
  native_source name := str "function " ++ name ++ str "() { [native code] }"
|}.

(** SpiderMonkey and JavaScriptCore: the text on three lines. *)
Definition spidermonkey : engine := {|
  native_source name :=
    str "function " ++ name ++ str "() {" ++ [10] ++ str "    [native code]"
      ++ [10] ++ str "}"
|}.

(** ToString.  An ordinary object without a [toString] of its own is
    converted by [Object.prototype.toString]. *)
Definition String_ {js : engine} (v : jsval) : jsstring :=
  match v with
  | VUndefined => str "undefined"
  | VNull => str "null"
  | VBool true => str "true"
  | VBool false => str "false"
  | VStr s => s
  | VFunction name => native_source name
  | VObject => str "[object Object]"
  end.

(** ToBoolean. *)
Definition truthy (v : jsval) : bool :=
  match v with
  | VUndefined | VNull => false
  | VBool b => b
  | VStr [] => false
  | VStr (_ :: _) => true
  | VFunction _ | VObject => true
  end.

(** [a || b]. *)
Definition js_or (a b : jsval) : jsval := if truthy a then a else b.

(** The properties of [Object.prototype] (those of ECMAScript and of its
    annex for web browsers, which Node follows as well): every object
    literal inherits them.  [constructor] is the function [Object]; the
    accessor [__proto__] gives the prototype of the object it is read on,
    which for an object literal is [Object.prototype]. *)
Definition Object_prototype : gmap jsstring jsval :=
  list_to_map
    [ (str "constructor", VFunction (str "Object"));
      (str "hasOwnProperty", VFunction (str "hasOwnProperty"));
      (str "isPrototypeOf", VFunction (str "isPrototypeOf"));
      (str "propertyIsEnumerable", VFunction (str "propertyIsEnumerable"));
      (str "toLocaleString", VFunction (str "toLocaleString"));
      (str "toString", VFunction (str "toString"));
      (str "valueOf", VFunction (str "valueOf"));
      (str "__defineGetter__", VFunction (str "__defineGetter__"));
      (str "__defineSetter__", VFunction (str "__defineSetter__"));
      (str "__lookupGetter__", VFunction (str "__lookupGetter__"));
      (str "__lookupSetter__", VFunction (str "__lookupSetter__"));
      (str "__proto__", VObject) ].

(** [context[v]] on a context object.  The contexts of the source are
    object literals ([{}], [{ user: 'Scholar' }]): the finite map holds the
    properties the object has of its own, and a name it does not hold is
    looked up in [Object.prototype]; a name found in neither reads as
    [undefined]. *)
Definition get_prop (context : gmap jsstring jsval) (v : jsstring) : jsval :=
  match context !! v with
  | Some x => x
  | None => default VUndefined (Object_prototype !! v)
  end.

Arguments Object_prototype : simpl never.
Arguments get_prop : simpl never.

(** The second argument of a replace callback: the first capture. *)
Definition arg1 (caps : list jsstring) : jsstring := default [] (caps !! 0%nat).

(** ** The producer: server.js *)

Module Server.

Definition placeholder_re : regex :=
  Lit (str "{{") ⊙ Star CSpace ⊙ Grp (Plus CWord) ⊙ Star CSpace
    ⊙ Lit (str "}}").

Definition rules : list (regex * jsstring) :=
  [ (Lit (str "<flo:page") ⊙ Star (CNot 62) ⊙ Lit (str "title=" ++ dq)
       ⊙ Grp (Plus (CNot 34)) ⊙ Lit dq ⊙ Star (CNot 62) ⊙ Lit (str ">"),
     str "<div class=" ++ dq ++ str "flo-page" ++ dq
       ++ str " data-title=" ++ dq ++ str "$1" ++ dq ++ str ">");
    (Lit (str "</flo:page>"), str "</div>");
    (Lit (str "<flo:header>"),
     str "<header class=" ++ dq ++ str "flo-header" ++ dq ++ str ">");
    (Lit (str "</flo:header>"), str "</header>");
    (Lit (str "<flo:nav>"),
     str "<nav class=" ++ dq ++ str "flo-nav" ++ dq ++ str ">");
    (Lit (str "</flo:nav>"), str "</nav>");
    (Lit (str "<flo:logo>"),
     str "<div class=" ++ dq ++ str "flo-logo" ++ dq ++ str ">");
    (Lit (str "</flo:logo>"), str "</div>");
    (Lit (str "<flo:main>"),
     str "<main class=" ++ dq ++ str "flo-main" ++ dq ++ str ">");
    (Lit (str "</flo:main>"), str "</main>");
    (Lit (str "<flo:card") ⊙ Star (CNot 62) ⊙ Lit (str "title=" ++ dq)
       ⊙ Grp (Plus (CNot 34)) ⊙ Lit dq ⊙ Star (CNot 62) ⊙ Lit (str ">"),
     str "<section class=" ++ dq ++ str "flo-card" ++ dq
       ++ str " data-title=" ++ dq ++ str "$1" ++ dq ++ str ">");
    (Lit (str "</flo:card>"), str "</section>");
    (Lit (str "<flo:footer>"),
     str "<footer class=" ++ dq ++ str "flo-footer" ++ dq ++ str ">");
    (Lit (str "</flo:footer>"), str "</footer>");
    (Lit (str "<flo:link href=" ++ dq) ⊙ Grp (Plus (CNot 34)) ⊙ Lit dq
       ⊙ Star (CNot 62) ⊙ Lit (str ">") ⊙ Grp (LazyStar CDot)
       ⊙ Lit (str "</flo:link>"),
     str "<a href=" ++ dq ++ str "$1" ++ dq ++ str " class=" ++ dq
       ++ str "flo-link" ++ dq ++ str ">$2</a>") ].

(** [(_, v) => context[v] || ''], its result converted by [replace]. *)
Definition lookup_var {js : engine} (context : gmap jsstring jsval) : replacer :=
  λ _ caps, String_ (js_or (get_prop context (arg1 caps)) (VStr [])).

Definition compileFLOtoHTML {js : engine} (floSource : jsstring)
    (context : gmap jsstring jsval) : jsstring :=
  let html := replace_all placeholder_re (lookup_var context) floSource in
  structural rules html.

End Server.

(** ** Browser facilities used by the consumer *)

(** [String.prototype.trim]. *)
Fixpoint trim_start (s : jsstring) : jsstring :=
  match s with
  | x :: s' => if is_space x then trim_start s' else s
  | [] => []
  end.

Definition trim (s : jsstring) : jsstring :=
  rev (trim_start (rev (trim_start s))).

(** [atob]: the forgiving-base64 decode of the HTML standard.  [None] stands
    for the [InvalidCharacterError] it throws. *)
Definition is_ascii_whitespace (x : N) : bool :=
  (x =? 9) || (x =? 10) || (x =? 12) || (x =? 13) || (x =? 32).

Definition b64_value (x : N) : option N :=
  if (65 <=? x) && (x <=? 90) then Some (x - 65)
  else if (97 <=? x) && (x <=? 122) then Some (x - 71)
  else if (48 <=? x) && (x <=? 57) then Some (x + 4)
  else if x =? 43 then Some 62
  else if x =? 47 then Some 63
  else None.

Fixpoint b64_values (d : jsstring) : option (list N) :=
  match d with
  | [] => Some []
  | x :: d' =>
      match b64_value x, b64_values d' with
      | Some v, Some vs => Some (v :: vs)
      | _, _ => None
      end
  end.

(** Sextets to octets; the bits left over at the end are dropped. *)
Fixpoint b64_octets (v : list N) : jsstring :=
  match v with
  | a :: b :: c :: d :: v' =>
      (a * 4 + b / 16) :: ((b mod 16) * 16 + c / 4) :: ((c mod 4) * 64 + d)
        :: b64_octets v'
  | [a; b; c] => [a * 4 + b / 16; (b mod 16) * 16 + c / 4]
  | [a; b] => [a * 4 + b / 16]
  | _ => []
  end.

Definition strip_padding (d : jsstring) : jsstring :=
  if (length d mod 4 =? 0)%nat then
    match rev d with
    | 61 :: 61 :: d' => rev d'
    | 61 :: d' => rev d'
    | _ => d
    end
  else d.

Definition atob (data : jsstring) : option jsstring :=
  let d := strip_padding (filter (λ x, negb (is_ascii_whitespace x)) data) in
  if (length d mod 4 =? 1)%nat then None
  else option_map b64_octets (b64_values d).

(** [new TextEncoder().encode]: the UTF-8 encoding of a string, a lone
    surrogate being encoded as U+FFFD. *)
Definition is_high_surrogate (x : N) : bool := (55296 <=? x) && (x <? 56320).
Definition is_low_surrogate (x : N) : bool := (56320 <=? x) && (x <? 57344).

Fixpoint TextEncoder_encode (s : jsstring) : list N :=
  match s with
  | [] => []
  | c :: s' =>
      if c <? 128 then c :: TextEncoder_encode s'
      else if c <? 2048 then
        (192 + c / 64) :: (128 + c mod 64) :: TextEncoder_encode s'
      else if is_high_surrogate c then
        match s' with
        | d :: s'' =>
            if is_low_surrogate d then
              let cp := 65536 + (c - 55296) * 1024 + (d - 56320) in
              (240 + cp / 262144) :: (128 + (cp / 4096) mod 64)
                :: (128 + (cp / 64) mod 64) :: (128 + cp mod 64)
                :: TextEncoder_encode s''
            else 239 :: 191 :: 189 :: TextEncoder_encode s'
        | [] => [239; 191; 189]
        end
      else if is_low_surrogate c then
        239 :: 191 :: 189 :: TextEncoder_encode s'
      else
        (224 + c / 4096) :: (128 + (c / 64) mod 64) :: (128 + c mod 64)
          :: TextEncoder_encode s'
  end.

(** What the encoder makes of one code unit below 256. *)
Definition encode_latin1 (c : N) : list N :=
  if c <? 128 then [c] else [192 + c / 64; 128 + c mod 64].

(** Storing [charCodeAt] values into a [Uint8Array]. *)
Definition char_codes (s : jsstring) : list N := map (λ c, c mod 256) s.

(** The base64 text of a PEM block: header and footer removed, then all
    whitespace. *)
Definition pem_b64 (pem : jsstring) : jsstring :=
  replace_with (Plus CSpace) []
    (replace_first (Lit (str "-----END PUBLIC KEY-----")) (expand [])
       (replace_first (Lit (str "-----BEGIN PUBLIC KEY-----")) (expand [])
          pem)).

(** The three elements the shell carries, each by its [textContent];
    [None] when [getElementById] finds nothing. *)
Record document : Type := {
  flo_payload : option jsstring;
  flo_signature : option jsstring;
  flo_public_pem : option jsstring
}.

(** Children of [document.body]. *)
Inductive node : Type :=
| Parsed (markup : jsstring)
    (* the nodes the HTML parser makes of [markup] *)
| Div (attrs : list (jsstring * jsstring)) (textContent : jsstring).
    (* a [div] made by [createElement], its properties set one by one *)

Definition parse_nodes (markup : jsstring) : list node :=
  match markup with
  | [] => []
  | _ => [Parsed markup]
  end.

(** What a run can throw. *)
Inductive error : Type :=
| InvalidCharacterError     (* atob on malformed base64          *)
| ImportKeyRejected         (* crypto.subtle.importKey rejects   *)
| VerifyRejected.           (* crypto.subtle.verify rejects      *)

(** Text of the three runtimes that differs from one revision to the next,
    and the compiler each one carries. *)
Record runtime : Type := {
  missing_message : jsstring;
  integrity_message : jsstring;
  error_message : jsstring;
  note : node;
  compiler : jsstring → gmap jsstring jsval → jsstring
}.

(** ** The consumer pipeline *)

Section Consumer.

(** The asynchronous cryptographic facility: [CryptoKey]s and the two
    calls the runtime awaits.  [None] is a rejected promise. *)
Context {key : Type}.
Variable subtle_importKey : list N → option key.
Variable subtle_verify : key → list N → list N → option bool.

(** What a run does, in order. *)
Inductive event : Type :=
| EImportKey (spki : list N)
| EVerify (k : key) (signature data : list N) (result : option bool)
| ECompile (src : jsstring) (context : gmap jsstring jsval)
| EConsoleError (err : error).

Record world : Type := {
  body : list node;
  trace : list event
}.

(** Computations that read and write the page and may throw. *)
Definition M (A : Type) : Type := world → (error + A) * world.

#[local] Instance M_ret : MRet M := λ A x w, (inr x, w).
#[local] Instance M_bind : MBind M := λ A B f m w,
  match m w with
  | (inr x, w') => f x w'
  | (inl err, w') => (inl err, w')
  end.

Definition throw {A} (err : error) : M A := λ w, (inl err, w).

Definition try_catch (m : M ()) (handler : error → M ()) : M () := λ w,
  match m w with
  | (inl err, w') => handler err w'
  | r => r
  end.

Definition emit (e : event) : M () := λ w,
  (inr (), {| body := body w; trace := trace w ++ [e] |}).

Definition set_innerHTML (markup : jsstring) : M () := λ w,
  (inr (), {| body := parse_nodes markup; trace := trace w |}).

Definition appendChildren (ns : list node) : M () := λ w,
  (inr (), {| body := body w ++ ns; trace := trace w |}).

Definition atob_ (data : jsstring) : M jsstring :=
  match atob data with
  | Some s => mret s
  | None => throw InvalidCharacterError
  end.

Definition pemToArrayBuffer (pem : jsstring) : M (list N) :=
  let b64 := pem_b64 pem in
  binaryDer ← atob_ b64;
  mret (char_codes binaryDer).

Definition importPublicKey (pem : jsstring) : M key :=
  spki ← pemToArrayBuffer pem;
  emit (EImportKey spki);;
  match subtle_importKey spki with
  | Some k => mret k
  | None => throw ImportKeyRejected
  end.

Definition verifySignature (publicKey : key) (signatureB64 dataStr : jsstring)
  : M bool :=
  sig ← atob_ signatureB64;
  let sigBytes := char_codes sig in
  let enc := TextEncoder_encode dataStr in
  emit (EVerify publicKey sigBytes enc (subtle_verify publicKey sigBytes enc));;
  match subtle_verify publicKey sigBytes enc with
  | Some ok => mret ok
  | None => throw VerifyRejected
  end.

Definition clientCompile (rt : runtime) (src : jsstring)
    (context : gmap jsstring jsval) : M jsstring :=
  emit (ECompile src context);;
  mret (compiler rt src context).

(** The main flow of the runtime.  The chain of awaits is linear, so it is
    modelled as plain sequencing; an early [return] is the end of its
    branch. *)
Definition main (rt : runtime) (doc : document) : M () :=
  try_catch
    (match flo_payload doc, flo_signature doc, flo_public_pem doc with
     | Some payloadEl, Some sigEl, Some pubPemEl =>
         let floB64 := trim payloadEl in
         let sigB64 := trim sigEl in
         let pubPem := trim pubPemEl in
         floSource ← atob_ floB64;
         publicKey ← importPublicKey pubPem;
         ok ← verifySignature publicKey sigB64 floSource;
         if negb ok then set_innerHTML (integrity_message rt)
         else
           let context := {[ str "user" := VStr (str "Scholar") ]} in
           html ← clientCompile rt floSource context;
           let temp := parse_nodes html in
           set_innerHTML [];;
           appendChildren temp;;
           appendChildren [note rt]
     | _, _, _ => set_innerHTML (missing_message rt)
     end)
    (λ err,
       emit (EConsoleError err);;
       set_innerHTML (error_message rt)).

(** A page load: the shell's own body content, an empty trace. *)
Definition load (rt : runtime) (doc : document) (shell : list node) : world :=
  (main rt doc {| body := shell; trace := [] |}).2.

(** *** The exits of a run, as the design's error taxonomy names them *)

Inductive failure : Type :=
| MissingInput          (* an element of the transport triple is absent *)
| MalformedInput        (* bad base64 or bad key material               *)
| SignatureMismatch     (* verification returned false                  *)
| CryptoFault.          (* the verification call itself was rejected    *)

Inductive outcome : Type :=
| Failed (f : failure)
| Verified (floSource : jsstring).

(** Which exit a document takes, read off the inputs and the cryptographic
    facility alone. *)
Definition classify (doc : document) : outcome :=
  match flo_payload doc, flo_signature doc, flo_public_pem doc with
  | Some payloadEl, Some sigEl, Some pubPemEl =>
      match atob (trim payloadEl) with
      | None => Failed MalformedInput
      | Some floSource =>
          match atob (pem_b64 (trim pubPemEl)) with
          | None => Failed MalformedInput
          | Some binaryDer =>
              match subtle_importKey (char_codes binaryDer) with
              | None => Failed MalformedInput
              | Some publicKey =>
                  match atob (trim sigEl) with
                  | None => Failed MalformedInput
                  | Some sig =>
                      match subtle_verify publicKey (char_codes sig)
                              (TextEncoder_encode floSource) with
                      | None => Failed CryptoFault
                      | Some false => Failed SignatureMismatch
                      | Some true => Verified floSource
                      end
                  end
              end
          end
      end
  | _, _, _ => Failed MissingInput
  end.

(** What the user is shown at each exit. *)
Definition presented (rt : runtime) (o : outcome) : list node :=
  match o with
  | Failed MissingInput => parse_nodes (missing_message rt)
  | Failed SignatureMismatch => parse_nodes (integrity_message rt)
  | Failed MalformedInput | Failed CryptoFault => parse_nodes (error_message rt)
  | Verified floSource =>
      parse_nodes (compiler rt floSource {[ str "user" := VStr (str "Scholar") ]})
        ++ [note rt]
  end.

(** Events that reach the cryptographic facility. *)
Definition is_crypto_call (e : event) : bool :=
  match e with
  | EImportKey _ | EVerify _ _ _ _ => true
  | _ => false
  end.

Definition is_compile (e : event) : bool :=
  match e with
  | ECompile _ _ => true
  | _ => false
  end.

End Consumer.

(** ** The consumer: runtime.js, first revision *)

Module Runtime1.

Definition placeholder_re : regex :=
  Lit (str "{{") ⊙ Star CSpace ⊙ Grp (Plus CWord) ⊙ Star CSpace
    ⊙ Lit (str "}}").

Definition rules : list (regex * jsstring) :=
  [ (Lit (str "<flo:page") ⊙ Star (CNot 62) ⊙ Lit (str "title=" ++ dq)
       ⊙ Grp (Plus (CNot 34)) ⊙ Lit dq ⊙ Star (CNot 62) ⊙ Lit (str ">"),
     str "<div class=" ++ dq ++ str "flo-page" ++ dq
       ++ str " data-title=" ++ dq ++ str "$1" ++ dq ++ str ">");
    (Lit (str "</flo:page>"), str "</div>");
    (Lit (str "<flo:header>"),
     str "<header class=" ++ dq ++ str "flo-header" ++ dq ++ str ">");
    (Lit (str "</flo:header>"), str "</header>");
    (Lit (str "<flo:nav>"),
     str "<nav class=" ++ dq ++ str "flo-nav" ++ dq ++ str ">");
    (Lit (str "</flo:nav>"), str "</nav>");
    (Lit (str "<flo:logo>"),
     str "<div class=" ++ dq ++ str "flo-logo" ++ dq ++ str ">");
    (Lit (str "</flo:logo>"), str "</div>");
    (Lit (str "<flo:main>"),
     str "<main class=" ++ dq ++ str "flo-main" ++ dq ++ str ">");
    (Lit (str "</flo:main>"), str "</main>");
    (Lit (str "<flo:card") ⊙ Star (CNot 62) ⊙ Lit (str "title=" ++ dq)
       ⊙ Grp (Plus (CNot 34)) ⊙ Lit dq ⊙ Star (CNot 62) ⊙ Lit (str ">"),
     str "<section class=" ++ dq ++ str "flo-card" ++ dq
       ++ str " data-title=" ++ dq ++ str "$1" ++ dq ++ str ">");
    (Lit (str "</flo:card>"), str "</section>");
    (Lit (str "<flo:footer>"),
     str "<footer class=" ++ dq ++ str "flo-footer" ++ dq ++ str ">");
    (Lit (str "</flo:footer>"), str "</footer>");
    (Lit (str "<flo:link href=" ++ dq) ⊙ Grp (Plus (CNot 34)) ⊙ Lit dq
       ⊙ Star (CNot 62) ⊙ Lit (str ">") ⊙ Grp (LazyStar CDot)
       ⊙ Lit (str "</flo:link>"),
     str "<a href=" ++ dq ++ str "$1" ++ dq ++ str " class=" ++ dq
       ++ str "flo-link" ++ dq ++ str ">$2</a>") ].

(** [(_, v) => context[v] !== undefined ? String(context[v]) : '']. *)
Definition lookup_var {js : engine} (context : gmap jsstring jsval) : replacer :=
  λ _ caps,
    match get_prop context (arg1 caps) with
    | VUndefined => []
    | x => String_ x
    end.

Definition clientCompileFLO {js : engine} (src : jsstring)
    (context : gmap jsstring jsval) : jsstring :=
  let html := src in
  let html := replace_all placeholder_re (lookup_var context) html in
  let html := structural rules html in
  html.

(** The texts of this revision, its note and its compiler. *)
Definition rt {js : engine} : runtime := {|
  missing_message :=
    str "<pre style=" ++ dq ++ str "color:red" ++ dq
      ++ str ">FLO runtime: missing payload or signature or public key.</pre>";
  integrity_message :=
    str "<pre style=" ++ dq ++ str "color:red" ++ dq
      ++ str ">FLO integrity check failed. Rendering aborted.</pre>";
  error_message :=
    str "<pre style=" ++ dq ++ str "color:red" ++ dq
      ++ str ">FLO runtime error: see console.</pre>";
  note :=
    Div [ (str "style.fontSize", str "12px"); (str "style.opacity", str "0.7");
          (str "style.position", str "fixed"); (str "style.right", str "8px");
          (str "style.bottom", str "8px") ]
      (str "FLO verified " ++ [226; 339; 8221]);
  compiler := clientCompileFLO
|}.

End Runtime1.

(** ** The consumer: runtime.js, second revision (CSP-compliant) *)

Module Runtime12.

Definition placeholder_re : regex :=
  Lit (str "{{") ⊙ Star CSpace ⊙ Grp (Plus CWord) ⊙ Star CSpace
    ⊙ Lit (str "}}").

Definition rules : list (regex * jsstring) :=
  [ (Lit (str "<flo:page") ⊙ Star (CNot 62) ⊙ Lit (str "title=" ++ dq)
       ⊙ Grp (Plus (CNot 34)) ⊙ Lit dq ⊙ Star (CNot 62) ⊙ Lit (str ">"),
     str "<div class=" ++ dq ++ str "flo-page" ++ dq
       ++ str " data-title=" ++ dq ++ str "$1" ++ dq ++ str ">");
    (Lit (str "</flo:page>"), str "</div>");
    (Lit (str "<flo:header>"),
     str "<header class=" ++ dq ++ str "flo-header" ++ dq ++ str ">");
    (Lit (str "</flo:header>"), str "</header>");
    (Lit (str "<flo:nav>"),
     str "<nav class=" ++ dq ++ str "flo-nav" ++ dq ++ str ">");
    (Lit (str "</flo:nav>"), str "</nav>");
    (Lit (str "<flo:logo>"),
     str "<div class=" ++ dq ++ str "flo-logo" ++ dq ++ str ">");
    (Lit (str "</flo:logo>"), str "</div>");
    (Lit (str "<flo:main>"),
     str "<main class=" ++ dq ++ str "flo-main" ++ dq ++ str ">");
    (Lit (str "</flo:main>"), str "</main>");
    (Lit (str "<flo:card") ⊙ Star (CNot 62) ⊙ Lit (str "title=" ++ dq)
       ⊙ Grp (Plus (CNot 34)) ⊙ Lit dq ⊙ Star (CNot 62) ⊙ Lit (str ">"),
     str "<section class=" ++ dq ++ str "flo-card" ++ dq
       ++ str " data-title=" ++ dq ++ str "$1" ++ dq ++ str ">");
    (Lit (str "</flo:card>"), str "</section>");
    (Lit (str "<flo:footer>"),
     str "<footer class=" ++ dq ++ str "flo-footer" ++ dq ++ str ">");
    (Lit (str "</flo:footer>"), str "</footer>");
    (Lit (str "<flo:link href=" ++ dq) ⊙ Grp (Plus (CNot 34)) ⊙ Lit dq
       ⊙ Star (CNot 62) ⊙ Lit (str ">") ⊙ Grp (LazyStar CDot)
       ⊙ Lit (str "</flo:link>"),
     str "<a href=" ++ dq ++ str "$1" ++ dq ++ str " class=" ++ dq
       ++ str "flo-link" ++ dq ++ str ">$2</a>") ].

(** [(_, v) => context[v] !== undefined ? String(context[v]) : '']. *)
Definition lookup_var {js : engine} (context : gmap jsstring jsval) : replacer :=
  λ _ caps,
    match get_prop context (arg1 caps) with
    | VUndefined => []
    | x => String_ x
    end.

Definition clientCompileFLO {js : engine} (src : jsstring)
    (context : gmap jsstring jsval) : jsstring :=
  let html := src in
  let html := replace_all placeholder_re (lookup_var context) html in
  let html := structural rules html in
  html.

(** The texts of this revision, its note and its compiler. *)
Definition rt {js : engine} : runtime := {|
  missing_message :=
    str "<pre class=" ++ dq ++ str "flo-error" ++ dq
      ++ str ">FLO runtime: missing payload or signature or public key.</pre>";
  integrity_message :=
    str "<pre class=" ++ dq ++ str "flo-error" ++ dq
      ++ str ">FLO integrity check failed. Rendering aborted.</pre>";
  error_message :=
    str "<pre class=" ++ dq ++ str "flo-error" ++ dq
      ++ str ">FLO runtime error: see console.</pre>";
  note := Div [ (str "class", str "flo-note") ] (str "FLO verified " ++ [10004]);
  compiler := clientCompileFLO
|}.

End Runtime12.

(** ** The consumer: runtime.js, third revision *)

Module Runtime123.

Definition placeholder_re : regex :=
  Lit (str "{{") ⊙ Star CSpace ⊙ Grp (Plus CWord) ⊙ Star CSpace
    ⊙ Lit (str "}}").

Definition rules : list (regex * jsstring) :=
  [ (Lit (str "<flo:page") ⊙ Star (CNot 62) ⊙ Lit (str "title=" ++ dq)
       ⊙ Grp (Plus (CNot 34)) ⊙ Lit dq ⊙ Star (CNot 62) ⊙ Lit (str ">"),
     str "<div class=" ++ dq ++ str "flo-page" ++ dq
       ++ str " data-title=" ++ dq ++ str "$1" ++ dq ++ str ">");
    (Lit (str "</flo:page>"), str "</div>");
    (Lit (str "<flo:header>"),
     str "<header class=" ++ dq ++ str "flo-header" ++ dq ++ str ">");
    (Lit (str "</flo:header>"), str "</header>");
    (Lit (str "<flo:nav>"),
     str "<nav class=" ++ dq ++ str "flo-nav" ++ dq ++ str ">");
    (Lit (str "</flo:nav>"), str "</nav>");
    (Lit (str "<flo:logo>"),
     str "<div class=" ++ dq ++ str "flo-logo" ++ dq ++ str ">");
    (Lit (str "</flo:logo>"), str "</div>");
    (Lit (str "<flo:main>"),
     str "<main class=" ++ dq ++ str "flo-main" ++ dq ++ str ">");
    (Lit (str "</flo:main>"), str "</main>");
    (Lit (str "<flo:card") ⊙ Star (CNot 62) ⊙ Lit (str "title=" ++ dq)
       ⊙ Grp (Plus (CNot 34)) ⊙ Lit dq ⊙ Star (CNot 62) ⊙ Lit (str ">"),
     str "<section class=" ++ dq ++ str "flo-card" ++ dq
       ++ str " data-title=" ++ dq ++ str "$1" ++ dq ++ str ">");
    (Lit (str "</flo:card>"), str "</section>");
    (Lit (str "<flo:footer>"),
     str "<footer class=" ++ dq ++ str "flo-footer" ++ dq ++ str ">");
    (Lit (str "</flo:footer>"), str "</footer>");
    (Lit (str "<flo:link href=" ++ dq) ⊙ Grp (Plus (CNot 34)) ⊙ Lit dq
       ⊙ Star (CNot 62) ⊙ Lit (str ">") ⊙ Grp (LazyStar CDot)
       ⊙ Lit (str "</flo:link>"),
     str "<a href=" ++ dq ++ str "$1" ++ dq ++ str " class=" ++ dq
       ++ str "flo-link" ++ dq ++ str ">$2</a>") ].

(** [(_, v) => context[v] || ''], its result converted by [replace]. *)
Definition lookup_var {js : engine} (context : gmap jsstring jsval) : replacer :=
  λ _ caps, String_ (js_or (get_prop context (arg1 caps)) (VStr [])).

Definition clientCompileFLO {js : engine} (src : jsstring)
    (context : gmap jsstring jsval) : jsstring :=
  let html := replace_all placeholder_re (lookup_var context) src in
  let html := structural rules html in
  html.

(** The texts of this revision, its note and its compiler. *)
Definition rt {js : engine} : runtime := {|
  missing_message :=
    str "<pre class=" ++ dq ++ str "flo-error" ++ dq
      ++ str ">FLO runtime: missing payload/signature/public key.</pre>";
  integrity_message :=
    str "<pre class=" ++ dq ++ str "flo-error" ++ dq
      ++ str ">FLO integrity check failed. Rendering aborted.</pre>";
  error_message :=
    str "<pre class=" ++ dq ++ str "flo-error" ++ dq
      ++ str ">FLO runtime error: see console.</pre>";
  note := Div [ (str "class", str "flo-note") ] (str "FLO verified " ++ [10004]);
  compiler := clientCompileFLO
|}.

End Runtime123.

(** ** Notions the statements use *)

(** *** Patterns *)

(** Does [r] match somewhere in [s]? *)
Fixpoint has_match (r : regex) (s : jsstring) : bool :=
  match ms r s, s with
  | _ :: _, _ => true
  | [], _ :: s' => has_match r s'
  | [], [] => false
  end.

(** The words of a regular expression with the captures each reading of a
    word yields, independently of any matching strategy. *)
Inductive Matches : regex → jsstring → list jsstring → Prop :=
| MLit l : Matches (Lit l) l []
| MStar c w : forallb (cmatch c) w = true → Matches (Star c) w []
| MPlus c w : w ≠ [] → forallb (cmatch c) w = true → Matches (Plus c) w []
| MLazyStar c w : forallb (cmatch c) w = true → Matches (LazyStar c) w []
| MCat r1 r2 w1 w2 caps1 caps2 :
    Matches r1 w1 caps1 → Matches r2 w2 caps2 →
    Matches (r1 ⊙ r2) (w1 ++ w2) (caps1 ++ caps2)
| MGrp r w caps : Matches r w caps → Matches (Grp r) w (w :: caps).

(** The code unit every match of [r] must begin with, when [r] opens with
    a literal. *)
Fixpoint first_char (r : regex) : option N :=
  match r with
  | Lit (a :: _) => Some a
  | Cat r1 _ => first_char r1
  | Grp r' => first_char r'
  | _ => None
  end.

(** Can [r] match the empty string? *)
Fixpoint nullable (r : regex) : bool :=
  match r with
  | Lit [] => true
  | Lit (_ :: _) => false
  | Star _ | LazyStar _ => true
  | Plus _ => false
  | Cat r1 r2 => nullable r1 && nullable r2
  | Grp r' => nullable r'
  end.

(** Can a non-empty match of [r] begin with [x]? *)
Fixpoint can_start (r : regex) (x : N) : bool :=
  match r with
  | Lit [] => false
  | Lit (a :: _) => x =? a
  | Star c | Plus c | LazyStar c => cmatch c x
  | Cat r1 r2 => can_start r1 x || (nullable r1 && can_start r2 x)
  | Grp r' => can_start r' x
  end.

(** [c] cannot extend a run into [s]. *)
Definition stops (c : cclass) (s : jsstring) : bool :=
  match s with
  | [] => true
  | x :: _ => negb (cmatch c x)
  end.

(** *** Text *)

(** Does [s] begin with [l]; does [l] occur in [s]? *)
Definition starts_with (l s : jsstring) : bool :=
  match strip_prefix l s with
  | Some _ => true
  | None => false
  end.

Fixpoint occurs (l s : jsstring) : bool :=
  starts_with l s ||
  match s with
  | [] => false
  | _ :: s' => occurs l s'
  end.

(** [l] begins nowhere in the run of [c] at the head of [s], nor right
    behind that run. *)
Fixpoint run_free (c : cclass) (l s : jsstring) : bool :=
  negb (starts_with l s) &&
  match s with
  | x :: s' => if cmatch c x then run_free c l s' else true
  | [] => true
  end.

(** No code unit of [s] is [c]. *)
Definition free_of (c : N) (s : jsstring) : bool :=
  forallb (λ x, negb (x =? c)) s.

(** Text that holds neither [<] nor [{]. *)
Definition plain (s : jsstring) : bool := free_of 60 s && free_of 123 s.

(** No line terminator in [s]. *)
Definition single_line (s : jsstring) : bool :=
  forallb (λ x, negb (is_line_terminator x)) s.

(** *** The two passes *)

(** The interpolation pass: the first [replace] of each compiler, with the
    callback that compiler passes. *)
Definition interpolate (callback : replacer) (src : jsstring) : jsstring :=
  replace_all Server.placeholder_re callback src.

(** The matches a global replace finds in [s], in the order of the scan:
    the matched text and the captures the callback is called with. *)
Fixpoint matches_go (r : regex) (skip : nat) (s : jsstring)
  : list (jsstring * list jsstring) :=
  match s with
  | [] =>
      match skip, match_at r [] with
      | O, Some m => [([], m.2)]
      | _, _ => []
      end
  | x :: s' =>
      match skip with
      | S k => matches_go r k s'
      | O =>
          match match_at r s with
          | Some m =>
              let w := consumed s m.1 in
              (w, m.2) ::
                match length w with
                | O => matches_go r O s'
                | S k => matches_go r k s'
                end
          | None => matches_go r O s'
          end
      end
  end.

(** The names the interpolation pass reads in a source: the identifier of
    each placeholder it finds. *)
Definition placeholder_names (src : jsstring) : list jsstring :=
  map (λ m, arg1 m.2) (matches_go Server.placeholder_re O src).

(** The placeholder [{{ v }}] with its optional inner whitespace. *)
Definition placeholder (ws1 v ws2 : jsstring) : jsstring :=
  str "{{" ++ ws1 ++ v ++ ws2 ++ str "}}".

(** A source is inert when neither the placeholder pattern nor any pattern
    of the structural table matches anywhere in it. *)
Definition inert (src : jsstring) : bool :=
  forallb (λ r, negb (has_match r src))
    (Server.placeholder_re :: map fst Server.rules).

(** Every rule of [rules] fails at the head of [s]. *)
Definition fail_at (rules : list (regex * jsstring)) (s : jsstring) : bool :=
  forallb (λ rule, match ms rule.1 s with [] => true | _ :: _ => false end) rules.

(** *** Entries of the structural table, and the tags they are about *)

Definition title_eq : jsstring := str "title=" ++ dq.

(** What follows [<flo:page[^>]*] and [<flo:card[^>]*] in their patterns. *)
Definition title_tail : regex :=
  Lit title_eq ⊙ Grp (Plus (CNot 34)) ⊙ Lit dq ⊙ Star (CNot 62)
    ⊙ Lit (str ">").

Definition page_re : regex :=
  Lit (str "<flo:page") ⊙ Star (CNot 62) ⊙ title_tail.

Definition card_re : regex :=
  Lit (str "<flo:card") ⊙ Star (CNot 62) ⊙ title_tail.

Definition page_tmpl : jsstring :=
  str "<div class=" ++ dq ++ str "flo-page" ++ dq
    ++ str " data-title=" ++ dq ++ str "$1" ++ dq ++ str ">".

Definition card_tmpl : jsstring :=
  str "<section class=" ++ dq ++ str "flo-card" ++ dq
    ++ str " data-title=" ++ dq ++ str "$1" ++ dq ++ str ">".

Definition link_close : jsstring := str "</flo:link>".

Definition link_re : regex :=
  Lit (str "<flo:link href=" ++ dq) ⊙ Grp (Plus (CNot 34)) ⊙ Lit dq
    ⊙ Star (CNot 62) ⊙ Lit (str ">") ⊙ Grp (LazyStar CDot) ⊙ Lit link_close.

Definition link_tmpl : jsstring :=
  str "<a href=" ++ dq ++ str "$1" ++ dq ++ str " class=" ++ dq
    ++ str "flo-link" ++ dq ++ str ">$2</a>".

(** An opening [page] or [card] tag with a title ([a1] and [a2] are what
    stands before and behind the attribute), and one without. *)
Definition titled_tag (name a1 t a2 : jsstring) : jsstring :=
  str "<flo:" ++ name ++ a1 ++ title_eq ++ t ++ dq ++ a2 ++ str ">".


Definition page_wrapper (t : jsstring) : jsstring :=
  str "<div class=" ++ dq ++ str "flo-page" ++ dq
    ++ str " data-title=" ++ dq ++ t ++ dq ++ str ">".

Definition card_wrapper (t : jsstring) : jsstring :=
  str "<section class=" ++ dq ++ str "flo-card" ++ dq
    ++ str " data-title=" ++ dq ++ t ++ dq ++ str ">".

Definition header_tag : jsstring := str "<flo:header>".

Definition header_wrapper : jsstring :=
  str "<header class=" ++ dq ++ str "flo-header" ++ dq ++ str ">".

(** A link element: opening tag, inline text, closing tag; and the anchor
    it becomes. *)
Definition link_open (href attrs : jsstring) : jsstring :=
  str "<flo:link href=" ++ dq ++ href ++ dq ++ attrs ++ str ">".

Definition link_element (href attrs text : jsstring) : jsstring :=
  link_open href attrs ++ text ++ link_close.

Definition link_anchor (href text : jsstring) : jsstring :=
  str "<a href=" ++ dq ++ href ++ dq ++ str " class=" ++ dq
    ++ str "flo-link" ++ dq ++ str ">" ++ text ++ str "</a>".

(** ** Sample documents *)

(** The first scenario of the design: a page, a header, a greeting. *)
Definition home_page : jsstring :=
  str "<flo:page title=" ++ dq ++ str "Home" ++ dq
    ++ str "><flo:header>Hi {{user}}</flo:header></flo:page>".

Definition home_page_html (user : jsstring) : jsstring :=
  str "<div class=" ++ dq ++ str "flo-page" ++ dq ++ str " data-title=" ++ dq
    ++ str "Home" ++ dq ++ str "><header class=" ++ dq ++ str "flo-header"
    ++ dq ++ str ">Hi " ++ user ++ str "</header></div>".

Definition greeting : jsstring := str "Hi {{user}}".

Definition unknown_tags : jsstring :=
  str "<p>{{ }} {user}</p><flo:widget/><flo:page><flo:link href=" ++ dq
    ++ str "/a" ++ dq ++ str ">open".


(** *** Page loads *)

(** A facility that imports every key and finds a signature valid exactly
    on the bytes [signed]. *)
Definition import_any (spki : list N) : option unit := Some ().

Definition valid_on (signed : list N) (k : unit) (signature data : list N)
  : option bool := Some (bool_decide (data = signed)).

Definition sample_pem : jsstring :=
  str "-----BEGIN PUBLIC KEY-----" ++ [10] ++ str "AAEC" ++ [10] ++ str "AwQF"
    ++ [10] ++ str "-----END PUBLIC KEY-----".

(** The transport triple for the source [Hi {{user}}]. *)
Definition greeting_doc : document := {|
  flo_payload := Some (str "SGkge3t1c2VyfX0=");
  flo_signature := Some (str "AAEC");
  flo_public_pem := Some sample_pem
|}.

(** The same with a signature that is not base64. *)
Definition bad_signature_doc : document := {|
  flo_payload := Some (str "SGkge3t1c2VyfX0=");
  flo_signature := Some (str "!!!");
  flo_public_pem := Some sample_pem
|}.

(** The same without its signature element. *)
Definition unsigned_doc : document := {|
  flo_payload := Some (str "SGkge3t1c2VyfX0=");
  flo_signature := None;
  flo_public_pem := Some sample_pem
|}.

(** The transport triple for a source of one e-acute: UTF-8 bytes C3 A9,
    base64 [w6k=]. *)
Definition accent_doc : document := {|
  flo_payload := Some (str "w6k=");
  flo_signature := Some (str "AAEC");
  flo_public_pem := Some sample_pem
|}.

(** ** The producer's shell: server.js beyond the compiler *)

(** [Buffer.from(s, 'utf8')] and [signer.update(s, 'utf8')]: the UTF-8
    encoding of a string, a lone surrogate encoded as U+FFFD -- the bytes
    [TextEncoder] gives. *)
Definition Buffer_from_utf8 (s : jsstring) : list N := TextEncoder_encode s.

(** [buf.toString('base64')]: three octets to four characters of the
    standard alphabet, the last group padded with [=]. *)
Definition b64_char (v : N) : N :=
  if v <? 26 then v + 65
  else if v <? 52 then v + 71
  else if v <? 62 then v - 4
  else if v =? 62 then 43
  else 47.

Fixpoint toString_base64 (buf : list N) : jsstring :=
  match buf with
  | a :: b :: c :: buf' =>
      b64_char (a / 4) :: b64_char ((a mod 4) * 16 + b / 16)
        :: b64_char ((b mod 16) * 4 + c / 64) :: b64_char (c mod 64)
        :: toString_base64 buf'
  | [a; b] =>
      [b64_char (a / 4); b64_char ((a mod 4) * 16 + b / 16);
       b64_char ((b mod 16) * 4); 61]
  | [a] => [b64_char (a / 4); b64_char ((a mod 4) * 16); 61; 61]
  | [] => []
  end.

(** [String.prototype.endsWith]. *)
Definition endsWith (s suffix : jsstring) : bool :=
  bool_decide (drop (length s - length suffix) s = suffix).

(** What a route handler sends: the status, the headers it sets itself, the
    body. *)
Record response : Type := {
  status : N;
  headers : list (jsstring * jsstring);
  sent : jsstring
}.

(** The page the [/ssr] route wraps around the compiled markup. *)
Definition ssr_document (html : jsstring) : jsstring :=
  str "<!doctype html><html><head><meta charset=" ++ dq ++ str "utf-8" ++ dq
    ++ str "><title>FLO SSR</title></head><body>" ++ html
    ++ str "</body></html>".

Section Producer.

Context {js : engine}.

(** The signing primitive behind [crypto.createSign('RSA-SHA256')]: the
    private key in PEM, the bytes fed to the signer, the signature bytes. *)
Variable rsa_sha256_sign : jsstring → list N → list N.

(** The two key files and the master FLO file, as read from disk. *)
Variable PRIVATE_PEM PUBLIC_PEM : jsstring.
Variable home_flo : jsstring.

Definition signString (privatePem str : jsstring) : jsstring :=
  toString_base64 (rsa_sha256_sign privatePem (Buffer_from_utf8 str)).

(** The values [buildShell] splices into its template. *)
Definition shell_signature (floSource : jsstring) : jsstring :=
  signString PRIVATE_PEM floSource.

Definition shell_payload (floSource : jsstring) : jsstring :=
  toString_base64 (Buffer_from_utf8 floSource).

Definition buildShell (floSource : jsstring) : jsstring :=
  let signatureBase64 := signString PRIVATE_PEM floSource in
  let floB64 := toString_base64 (Buffer_from_utf8 floSource) in
  str "<!doctype html>" ++ [10] ++ str "<html>" ++ [10] ++ str "<head>"
    ++ [10] ++ str "  <meta charset=" ++ dq ++ str "utf-8" ++ dq ++ str ">"
    ++ [10] ++ str "  <title>FLO Master</title>" ++ [10]
    ++ str "  <meta http-equiv=" ++ dq ++ str "Content-Security-Policy" ++ dq
    ++ str " content=" ++ dq ++ str "default-src 'self'; script-src 'self';"
    ++ dq ++ str ">" ++ [10] ++ str "  <link rel=" ++ dq ++ str "stylesheet"
    ++ dq ++ str " href=" ++ dq ++ str "/styles.css" ++ dq ++ str " />"
    ++ [10] ++ str "</head>" ++ [10] ++ str "<body>" ++ [10]
    ++ str "  <!-- Encoded FLO payload -->" ++ [10] ++ str "  <script id="
    ++ dq ++ str "flo-payload" ++ dq ++ str " type=" ++ dq
    ++ str "application/flo+base64" ++ dq ++ str ">" ++ floB64
    ++ str "</script>" ++ [10] ++ str "  <script id=" ++ dq
    ++ str "flo-signature" ++ dq ++ str " type=" ++ dq
    ++ str "application/flo-signature" ++ dq ++ str ">" ++ signatureBase64
    ++ str "</script>" ++ [10] ++ str "  <script id=" ++ dq
    ++ str "flo-public-pem" ++ dq ++ str " type=" ++ dq
    ++ str "application/flo-public-pem" ++ dq ++ str ">" ++ PUBLIC_PEM
    ++ str "</script>" ++ [10] ++ str "  <script src=" ++ dq
    ++ str "/runtime.js" ++ dq ++ str " defer></script>" ++ [10]
    ++ str "</body>" ++ [10] ++ str "</html>".

(** The three script elements of the shell, as [getElementById] and
    [textContent] present them to the runtime: the text of a script element
    is the raw text between its tags. *)
Definition shell_elements (floSource : jsstring) : document := {|
  flo_payload := Some (shell_payload floSource);
  flo_signature := Some (shell_signature floSource);
  flo_public_pem := Some PUBLIC_PEM
|}.

(** [app.get('/flocode/:file', ...)]: only names that end in [.flo] are
    served, and each of them is served the master file. *)
Definition flocode_route (file : jsstring) : response :=
  if negb (endsWith file (str ".flo")) then
    {| status := 404; headers := []; sent := str "Not a FLO file" |}
  else
    let floSource := home_flo in
    {| status := 200;
       headers := [(str "Content-Type", str "text/html; charset=utf-8")];
       sent := buildShell floSource |}.

(** [app.get('/', ...)]. *)
Definition root_route : response :=
  let floSource := home_flo in
  {| status := 200;
     headers := [(str "Content-Type", str "text/html; charset=utf-8")];
     sent := buildShell floSource |}.

(** [app.get('/ssr', ...)]: the master file compiled on the producer. *)
Definition ssr_route : response :=
  let floSource := home_flo in
  let html :=
    Server.compileFLOtoHTML floSource
      {[ str "user" := VStr (str "Scholar (SSR)") ]} in
  {| status := 200; headers := []; sent := ssr_document html |}.

End Producer.

(** ** Documents, item by item *)

(** The entries of the structural table whose pattern is a literal: the
    tag and what replaces it. *)
Definition literal_rules : list (jsstring * jsstring) :=
  omap (λ rule : regex * jsstring,
          match rule.1 with
          | Lit l => Some (l, rule.2)
          | _ => None
          end) Server.rules.

(** The pieces a FLO source is written from: text, a placeholder, a tag of
    a literal rule, a titled [page] or [card] tag, a link element. *)
Inductive item : Type :=
| IText (t : jsstring)
| IHole (ws1 v ws2 : jsstring)
| ITag (tag wrapper : jsstring)
| IPage (a1 t a2 : jsstring)
| ICard (a1 t a2 : jsstring)
| ILink (href attrs text : jsstring).

Definition item_source (it : item) : jsstring :=
  match it with
  | IText t => t
  | IHole ws1 v ws2 => placeholder ws1 v ws2
  | ITag tag _ => tag
  | IPage a1 t a2 => titled_tag (str "page") a1 t a2
  | ICard a1 t a2 => titled_tag (str "card") a1 t a2
  | ILink href attrs text => link_element href attrs text
  end.

(** An item after the interpolation pass with callback [f]. *)
Definition item_interpolated (f : replacer) (it : item) : jsstring :=
  match it with
  | IHole ws1 v ws2 => f (placeholder ws1 v ws2) [v]
  | _ => item_source it
  end.

(** What a placeholder [{{ v }}] prints under string bindings: the string
    bound to [v]; for a name the bindings do not hold, the text of what
    [Object.prototype] holds under it; nothing when neither holds it. *)
Definition hole_text {js : engine} (bindings : gmap jsstring jsstring)
    (v : jsstring) : jsstring :=
  match bindings !! v with
  | Some s => s
  | None =>
      match Object_prototype !! v with
      | Some x => String_ x
      | None => []
      end
  end.

(** The markup an item stands for, the placeholders read from string
    bindings. *)
Definition item_html {js : engine} (bindings : gmap jsstring jsstring)
    (it : item) : jsstring :=
  match it with
  | IText t => t
  | IHole _ v _ => hole_text bindings v
  | ITag _ wrapper => wrapper
  | IPage _ t _ => page_wrapper t
  | ICard _ t _ => card_wrapper t
  | ILink href _ text => link_anchor href text
  end.

Definition document_source (items : list item) : jsstring :=
  concat (map item_source items).

Definition document_html {js : engine} (bindings : gmap jsstring jsstring)
    (items : list item) : jsstring :=
  concat (map (item_html bindings) items).

Definition nonempty (s : jsstring) : bool :=
  match s with
  | [] => false
  | _ :: _ => true
  end.

(** A placeholder as the pattern wants it. *)
Definition hole_ok (ws1 v ws2 : jsstring) : bool :=
  forallb is_space ws1 && nonempty v && forallb is_word v
  && forallb is_space ws2.

(** An item the interpolation pass reads as it is meant: a well-formed
    placeholder, or anything without [{]. *)
Definition item_braces_ok (it : item) : bool :=
  match it with
  | IHole ws1 v ws2 => hole_ok ws1 v ws2
  | _ => free_of 123 (item_source it)
  end.

(** Attributes and title of a [page] or [card] tag the table rewrites. *)
Definition titled_ok (a1 t a2 : jsstring) : bool :=
  plain a1 && plain t && plain a2 && free_of 62 a1 && nonempty t
  && free_of 34 t && free_of 62 a2 && negb (occurs title_eq (t ++ dq ++ a2)).

(** The literal a pattern opens with. *)
Fixpoint lit_prefix (r : regex) : jsstring :=
  match r with
  | Lit l => l
  | Cat r1 _ => lit_prefix r1
  | Grp r' => lit_prefix r'
  | _ => []
  end.

(** [l] and [s] differ at a place both reach. *)
Fixpoint clash (l s : jsstring) : bool :=
  match l, s with
  | a :: l', x :: s' => negb (x =? a) || clash l' s'
  | _, _ => false
  end.

(** Markup that is none of the table's: from every [<] of [t] on, the text
    parts, within [t], from the literal each rule opens with.  Text without
    [<] is of that kind, and so are the tags of HTML. *)
Fixpoint foreign_markup (t : jsstring) : bool :=
  match t with
  | [] => true
  | x :: t' =>
      (negb (x =? 60)
       || forallb (λ rule : regex * jsstring,
                     clash (lit_prefix rule.1) (x :: t')) Server.rules)
      && foreign_markup t'
  end.

(** A well-formed item: text without [{] whose markup is foreign to the
    table; a placeholder whose value is such markup; a tag of a literal
    rule; a titled tag; a link on one line. *)
Definition item_ok {js : engine} (bindings : gmap jsstring jsstring)
    (it : item) : bool :=
  match it with
  | IText t => free_of 123 t && foreign_markup t
  | IHole ws1 v ws2 =>
      hole_ok ws1 v ws2 && foreign_markup (hole_text bindings v)
  | ITag tag wrapper => bool_decide ((tag, wrapper) ∈ literal_rules)
  | IPage a1 t a2 | ICard a1 t a2 => titled_ok a1 t a2
  | ILink href attrs text =>
      plain href && plain attrs && plain text && nonempty href
      && free_of 34 href && free_of 62 attrs && single_line text
  end.

(** An item whose markup holds no [{]: for a placeholder, its value. *)
Definition item_settled {js : engine} (bindings : gmap jsstring jsstring)
    (it : item) : bool :=
  match it with
  | IHole _ v _ => free_of 123 (hole_text bindings v)
  | _ => true
  end.

(** ** What reaches the cryptographic facility, what reaches the console *)

Definition is_bytes (b : list N) : bool := forallb (λ c, c <? 256) b.

Definition carries_bytes {key : Type} (e : @event key) : bool :=
  match e with
  | EImportKey spki => is_bytes spki
  | EVerify _ signature data _ => is_bytes signature && is_bytes data
  | _ => true
  end.

Definition is_console_error {key : Type} (e : @event key) : bool :=
  match e with
  | EConsoleError _ => true
  | _ => false
  end.

Definition is_import {key : Type} (e : @event key) : bool :=
  match e with
  | EImportKey _ => true
  | _ => false
  end.

Definition is_verify {key : Type} (e : @event key) : bool :=
  match e with
  | EVerify _ _ _ _ => true
  | _ => false
  end.

(** A valid JavaScript string: 16-bit code units. *)
Definition is_utf16 (s : jsstring) : bool := forallb (λ c, c <? 65536) s.

Definition is_ascii (s : jsstring) : bool := forallb (λ c, c <? 128) s.

(** A character of the base64 alphabet, or the padding sign. *)
Definition is_b64_text (x : N) : bool :=
  match b64_value x with
  | Some _ => true
  | None => x =? 61
  end.

(** *** A toy signature scheme for the examples

    The signature of a message is the message; a signature is valid on the
    bytes it equals. *)
Definition toy_sign (privatePem : jsstring) (data : list N) : list N := data.

Definition toy_verify (k : unit) (signature data : list N) : option bool :=
  Some (bool_decide (signature = data)).

(** ** Pieces of a text under the structural table *)

(** No match of [r] begins inside [p], whatever follows [p]. *)
Fixpoint dead (r : regex) (p : jsstring) : Prop :=
  match p with
  | [] => True
  | x :: p' => (∀ rest, ms r (x :: p' ++ rest) = []) ∧ dead r p'
  end.

(** What one rule makes of a piece: nothing, or the replacement of the
    whole piece. *)
Inductive step (r : regex) (t : jsstring) : jsstring → jsstring → Prop :=
| step_dead p : dead r p → step r t p p
| step_hit p caps :
    p ≠ [] → (∀ rest, match_at r (p ++ rest) = Some (rest, caps)) →
    step r t p (expand t p caps).

(** What the rules, one after the other, make of a piece. *)
Inductive evolves : list (regex * jsstring) → jsstring → jsstring → Prop :=
| evolves_nil p : evolves [] p p
| evolves_cons r t rules p p' q :
    step r t p p' → evolves rules p' q → evolves ((r, t) :: rules) p q.

(** * Properties *)

(** The examples below are run on V8; the theorems hold for every
    engine. *)
#[export] Existing Instance v8.

(** ** The matcher *)

Section Matcher.

Implicit Types (r : regex) (c : cclass) (s rest u w l : jsstring).

Lemma strip_prefix_app l s : strip_prefix l (l ++ s) = Some s.
Proof.
  induction l as [|a l IH]; simpl; [done|]. by rewrite N.eqb_refl.
Qed.

Lemma strip_prefix_Some l s rest :
  strip_prefix l s = Some rest → s = l ++ rest.
Proof.
  revert s. induction l as [|a l IH]; intros s; simpl.
  - by intros [= ->].
  - destruct s as [|x s]; [done|].
    destruct (N.eqb_spec x a) as [->|]; [|done].
    intros H. by rewrite (IH _ H).
Qed.

Lemma strip_prefix_head a l x s :
  x ≠ a → strip_prefix (a :: l) (x :: s) = None.
Proof. intros H. simpl. by destruct (N.eqb_spec x a). Qed.

Lemma consumed_app u rest : consumed (u ++ rest) rest = u.
Proof.
  unfold consumed. rewrite length_app.
  replace (length u + length rest - length rest)%nat with (length u) by lia.
  by rewrite take_app_length.
Qed.

Lemma head_app_Some {A} (l1 l2 : list A) x :
  head l1 = Some x → head (l1 ++ l2) = Some x.
Proof. by destruct l1. Qed.

Lemma star_greedy_stops c s : stops c s = true → star_greedy c s = [s].
Proof.
  destruct s as [|x s]; simpl; [done|]. by destruct (cmatch c x).
Qed.

Lemma match_at_Lit l s : match_at (Lit l) (l ++ s) = Some (s, []).
Proof. unfold match_at. simpl. by rewrite strip_prefix_app. Qed.

(** A pattern that opens with a literal fails on any other first code unit. *)
Lemma ms_Lit_head' a l x s : x ≠ a → ms (Lit (a :: l)) (x :: s) = [].
Proof. intros H. cbn [ms]. by rewrite strip_prefix_head. Qed.

End Matcher.

(** ** Global replace *)

Section Replace.

Implicit Types (r : regex) (f g : replacer) (s rest u w pre : jsstring).

Lemma ms_first_char r a x s :
  first_char r = Some a → x ≠ a → ms r (x :: s) = [].
Proof.
  revert s. induction r as [l|c|c|c|r1 IH1 r2 _|r IH]; intros s Hf Hx;
    simpl in Hf; try done.
  - destruct l as [|b l]; simplify_eq. by apply ms_Lit_head'.
  - cbn [ms]. by rewrite IH1.
  - cbn [ms]. by rewrite IH.
Qed.

Lemma ms_first_char_nil r a : first_char r = Some a → ms r [] = [].
Proof.
  induction r as [l|c|c|c|r1 IH1 r2 _|r IH]; intros Hf; simpl in Hf; try done.
  - by destruct l.
  - cbn [ms]. by rewrite IH1.
  - cbn [ms]. by rewrite IH.
Qed.

Lemma replace_go_skip r f u s :
  replace_go r f (length u) (u ++ s) = replace_all r f s.
Proof. induction u as [|x u IH]; simpl; [done|]. apply IH. Qed.

(** At a non-empty match the replacement is emitted and the scan resumes
    right after the match. *)
Lemma replace_all_match r f w rest caps :
  w ≠ [] → match_at r (w ++ rest) = Some (rest, caps) →
  replace_all r f (w ++ rest) = f w caps ++ replace_all r f rest.
Proof.
  intros Hw Hm. destruct w as [|x w]; [done|].
  unfold replace_all at 1. cbn [replace_go app].
  change (x :: w ++ rest) with ((x :: w) ++ rest).
  rewrite Hm. cbn [fst snd]. rewrite consumed_app. cbn [length].
  by rewrite replace_go_skip.
Qed.

Lemma replace_all_miss r f x s :
  match_at r (x :: s) = None →
  replace_all r f (x :: s) = x :: replace_all r f s.
Proof. intros Hm. unfold replace_all. cbn [replace_go]. by rewrite Hm. Qed.

(** Text in which the opening code unit of the pattern does not occur is
    copied and the scan goes on behind it. *)
Lemma replace_all_free r f a pre s :
  first_char r = Some a → free_of a pre = true →
  replace_all r f (pre ++ s) = pre ++ replace_all r f s.
Proof.
  intros Hf. induction pre as [|x pre IH]; intros Hp; simpl in *; [done|].
  apply andb_prop in Hp as [Hx Hp]. apply negb_true_iff, N.eqb_neq in Hx.
  rewrite replace_all_miss.
  - by rewrite IH.
  - unfold match_at. by rewrite (ms_first_char _ a).
Qed.

Lemma replace_all_nil r f a : first_char r = Some a → replace_all r f [] = [].
Proof.
  intros Hf. unfold replace_all. cbn [replace_go]. unfold match_at.
  by rewrite (ms_first_char_nil _ a Hf).
Qed.

Lemma replace_all_free_all r f a s :
  first_char r = Some a → free_of a s = true → replace_all r f s = s.
Proof.
  intros Hf Hs. rewrite <- (app_nil_r s) at 1.
  rewrite (replace_all_free _ _ a) by done.
  by rewrite (replace_all_nil _ _ a), app_nil_r.
Qed.

(** Where the pattern matches nowhere, replace returns its input. *)
Lemma replace_all_no_match r f s : has_match r s = false → replace_all r f s = s.
Proof.
  unfold replace_all.
  induction s as [|x s IH]; cbn [replace_go has_match]; unfold match_at; intros H.
  - by destruct (ms r []).
  - destruct (ms r (x :: s)); [|done]. cbn [head]. by rewrite IH.
Qed.

Lemma replace_go_ext r f g k s :
  (∀ w caps, f w caps = g w caps) → replace_go r f k s = replace_go r g k s.
Proof.
  intros Hfg. revert k. induction s as [|x s IH]; intros k; simpl.
  - destruct k; [|done]. destruct (match_at r []); [apply Hfg|done].
  - destruct k as [|k]; [|apply IH].
    destruct (match_at r (x :: s)) as [m|]; [|by rewrite IH].
    rewrite Hfg. f_equal. destruct (length (consumed (x :: s) m.1)); by rewrite IH.
Qed.

(** Two callbacks that agree on the matches of a scan give the same
    result. *)
Lemma replace_go_ext_on r f g k s :
  (∀ w caps, (w, caps) ∈ matches_go r k s → f w caps = g w caps) →
  replace_go r f k s = replace_go r g k s.
Proof.
  revert k. induction s as [|x s IH]; intros k H.
  - cbn [replace_go matches_go] in *. destruct k; [|done].
    destruct (match_at r []) as [m|]; [|done]. apply H. by left.
  - cbn [replace_go matches_go] in *. destruct k as [|k]; [|by apply IH].
    destruct (match_at r (x :: s)) as [m|]; [|by rewrite IH].
    cbv zeta in H. rewrite (H _ _ ltac:(by left)). f_equal.
    destruct (length (consumed (x :: s) m.1)); [f_equal|]; apply IH;
      intros w caps Hin; apply H; by right.
Qed.

Lemma structural_no_match rules s :
  forallb (λ r, negb (has_match r s)) (map fst rules) = true →
  structural rules s = s.
Proof.
  unfold structural. induction rules as [|[r t] rules IH]; simpl; [done|].
  intros [Hr Hrs]%andb_prop. apply negb_true_iff in Hr.
  unfold replace_with at 2. rewrite replace_all_no_match by done. by apply IH.
Qed.

End Replace.

(** ** The four compilers *)

Section Compilers.

Context {js : engine}.

Implicit Types (src floSource : jsstring) (context : gmap jsstring jsval).

Lemma Runtime1_structural src context :
  Runtime1.clientCompileFLO src context
  = structural Runtime1.rules
      (replace_all Runtime1.placeholder_re (Runtime1.lookup_var context) src).
Proof. reflexivity. Qed.

Lemma Runtime12_structural src context :
  Runtime12.clientCompileFLO src context
  = structural Runtime12.rules
      (replace_all Runtime12.placeholder_re (Runtime12.lookup_var context) src).
Proof. reflexivity. Qed.

Lemma Runtime123_structural src context :
  Runtime123.clientCompileFLO src context
  = structural Runtime123.rules
      (replace_all Runtime123.placeholder_re (Runtime123.lookup_var context) src).
Proof. reflexivity. Qed.

Lemma Server_structural floSource context :
  Server.compileFLOtoHTML floSource context
  = structural Server.rules
      (replace_all Server.placeholder_re (Server.lookup_var context) floSource).
Proof. reflexivity. Qed.

(** The consumers carry the producer's table, entry for entry. *)
Lemma tables_agree :
  Runtime1.rules = Server.rules ∧ Runtime12.rules = Server.rules
  ∧ Runtime123.rules = Server.rules
  ∧ Runtime1.placeholder_re = Server.placeholder_re
  ∧ Runtime12.placeholder_re = Server.placeholder_re
  ∧ Runtime123.placeholder_re = Server.placeholder_re.
Proof. repeat split; reflexivity. Qed.

Lemma get_prop_own context v x : context !! v = Some x → get_prop context v = x.
Proof. unfold get_prop. by intros ->. Qed.

Lemma get_prop_unbound context v :
  context !! v = None →
  get_prop context v = default VUndefined (Object_prototype !! v).
Proof. unfold get_prop. by intros ->. Qed.

(** What an object literal inherits is a function or an object: never
    [undefined], and truthy. *)
Lemma inherited_truthy (v : jsstring) (x : jsval) :
  Object_prototype !! v = Some x → truthy x = true ∧ x ≠ VUndefined.
Proof.
  intros E%elem_of_list_to_map_2.
  repeat (apply elem_of_cons in E as [[= -> ->]|E]; [done|]).
  by apply elem_of_nil in E.
Qed.

(** The two ways of reading a variable, [context[v] || ''] and
    [context[v] !== undefined ? String(context[v]) : ''], give the same text
    unless the value read is [null] or [false]. *)
Lemma lookups_agree context w caps :
  get_prop context (arg1 caps) ≠ VNull →
  get_prop context (arg1 caps) ≠ VBool false →
  Runtime1.lookup_var context w caps = Server.lookup_var context w caps
  ∧ Runtime12.lookup_var context w caps = Server.lookup_var context w caps
  ∧ Runtime123.lookup_var context w caps = Server.lookup_var context w caps.
Proof.
  unfold Runtime1.lookup_var, Runtime12.lookup_var, Runtime123.lookup_var,
    Server.lookup_var.
  by destruct (get_prop context (arg1 caps)) as [| |[|]|[|x v]| |].
Qed.

(** What each of the four callbacks prints for a name the object does not
    hold itself: nothing when [Object.prototype] does not hold it either,
    the text of the inherited value when it does. *)
Lemma callbacks_on_unbound context w caps :
  context !! arg1 caps = None →
  let text :=
    match Object_prototype !! arg1 caps with
    | Some x => String_ x
    | None => []
    end in
  Runtime1.lookup_var context w caps = text
  ∧ Runtime12.lookup_var context w caps = text
  ∧ Runtime123.lookup_var context w caps = text
  ∧ Server.lookup_var context w caps = text.
Proof.
  intros Hctx text. subst text.
  unfold Runtime1.lookup_var, Runtime12.lookup_var, Runtime123.lookup_var,
    Server.lookup_var.
  rewrite (get_prop_unbound _ _ Hctx).
  destruct (Object_prototype !! arg1 caps) as [x|] eqn:E; [|done].
  destruct (inherited_truthy _ x E) as [Ht Hu].
  by destruct x as [| |[|]|[|? ?]| |].
Qed.

(** And for a name bound to a string: that string. *)
Lemma callbacks_on_string context w caps val :
  context !! arg1 caps = Some (VStr val) →
  Runtime1.lookup_var context w caps = val
  ∧ Runtime12.lookup_var context w caps = val
  ∧ Runtime123.lookup_var context w caps = val
  ∧ Server.lookup_var context w caps = val.
Proof.
  intros Hctx.
  unfold Runtime1.lookup_var, Runtime12.lookup_var, Runtime123.lookup_var,
    Server.lookup_var.
  rewrite (get_prop_own _ _ _ Hctx). by destruct val.
Qed.

(** A read on an object whose own properties are strings gives a string,
    what the object inherits, or [undefined]. *)
Lemma get_prop_strings (bindings : gmap jsstring jsstring) (v : jsstring) :
  get_prop (VStr <$> bindings) v ≠ VNull
  ∧ get_prop (VStr <$> bindings) v ≠ VBool false.
Proof.
  unfold get_prop. rewrite lookup_fmap.
  destruct (bindings !! v) as [s|]; [done|]. cbn [fmap option_fmap option_map].
  destruct (Object_prototype !! v) as [x|] eqn:E; [|done].
  destruct (inherited_truthy v x E) as [Ht _]. by destruct x as [| |[|]| | |].
Qed.

(** On a binding whose value is a string, on a name the object inherits
    and on a name that is not bound at all, the two ways of reading a
    variable give the same text. *)
Lemma lookup_var_strings (bindings : gmap jsstring jsstring) w caps :
  Runtime1.lookup_var (VStr <$> bindings) w caps
  = Server.lookup_var (VStr <$> bindings) w caps.
Proof.
  destruct (get_prop_strings bindings (arg1 caps)) as [H1 H2].
  by destruct (lookups_agree (VStr <$> bindings) w caps H1 H2) as [-> _].
Qed.

(** Run by one and the same engine, the producer-side compiler
    [compileFLOtoHTML] and the consumer-side [clientCompileFLO] of each of the
    three runtime revisions return the same string, for every source and
    every string-to-string bindings mapping. *)
Lemma compilers_agree_on_string_bindings
    (src : jsstring) (bindings : gmap jsstring jsstring) :
  let context : gmap jsstring jsval := VStr <$> bindings in
  Runtime1.clientCompileFLO src context = Server.compileFLOtoHTML src context
  ∧ Runtime12.clientCompileFLO src context = Server.compileFLOtoHTML src context
  ∧ Runtime123.clientCompileFLO src context = Server.compileFLOtoHTML src context.
Proof.
  intros context.
  rewrite Runtime1_structural, Runtime12_structural, Runtime123_structural,
    Server_structural.
  destruct tables_agree as (-> & -> & -> & -> & -> & ->).
  repeat split; try done; f_equal; apply replace_go_ext; intros w caps;
    apply lookup_var_strings.
Qed.

End Compilers.

(** The producer run by one engine, [srv], and a consumer run by another,
    [js]: the outputs are the same when every name the interpolation pass
    reads in the source is bound by the bindings or is no property of
    [Object.prototype]. *)
Lemma compilers_agree_across_engines {srv js : engine}
    (src : jsstring) (bindings : gmap jsstring jsstring) :
  Forall (λ v, is_Some (bindings !! v) ∨ Object_prototype !! v = None)
    (placeholder_names src) →
  let context : gmap jsstring jsval := VStr <$> bindings in
  Runtime1.clientCompileFLO (js:=js) src context
  = Server.compileFLOtoHTML (js:=srv) src context
  ∧ Runtime12.clientCompileFLO (js:=js) src context
    = Server.compileFLOtoHTML (js:=srv) src context
  ∧ Runtime123.clientCompileFLO (js:=js) src context
    = Server.compileFLOtoHTML (js:=srv) src context.
Proof.
  intros Hnames context. subst context.
  assert (∀ w caps,
            (w, caps) ∈ matches_go Server.placeholder_re O src →
            Runtime1.lookup_var (js:=js) (VStr <$> bindings) w caps
            = Server.lookup_var (js:=srv) (VStr <$> bindings) w caps
            ∧ Runtime12.lookup_var (js:=js) (VStr <$> bindings) w caps
              = Server.lookup_var (js:=srv) (VStr <$> bindings) w caps
            ∧ Runtime123.lookup_var (js:=js) (VStr <$> bindings) w caps
              = Server.lookup_var (js:=srv) (VStr <$> bindings) w caps) as H.
  { intros w caps Hin. rewrite Forall_forall in Hnames.
    assert (arg1 caps ∈ placeholder_names src) as Hv.
    { unfold placeholder_names.
      by apply (list_elem_of_fmap_2 (λ m, arg1 m.2) _ (w, caps)). }
    destruct (Hnames _ Hv) as [[val E]|E].
    - assert ((VStr <$> bindings) !! arg1 caps = Some (VStr val)) as E'
        by (by rewrite lookup_fmap, E).
      destruct (callbacks_on_string (js:=js) _ w caps val E')
        as (-> & -> & -> & _).
      by destruct (callbacks_on_string (js:=srv) _ w caps val E')
        as (_ & _ & _ & ->).
    - destruct (bindings !! arg1 caps) as [val|] eqn:Eb.
      + assert ((VStr <$> bindings) !! arg1 caps = Some (VStr val)) as E'
          by (by rewrite lookup_fmap, Eb).
        destruct (callbacks_on_string (js:=js) _ w caps val E')
          as (-> & -> & -> & _).
        by destruct (callbacks_on_string (js:=srv) _ w caps val E')
          as (_ & _ & _ & ->).
      + assert ((VStr <$> bindings) !! arg1 caps = None) as E'
          by (by rewrite lookup_fmap, Eb).
        destruct (callbacks_on_unbound (js:=js) _ w caps E')
          as (-> & -> & -> & _).
        destruct (callbacks_on_unbound (js:=srv) _ w caps E')
          as (_ & _ & _ & ->). by rewrite E. }
  rewrite (Runtime1_structural (js:=js)), (Runtime12_structural (js:=js)),
    (Runtime123_structural (js:=js)), (Server_structural (js:=srv)).
  repeat split; f_equal; apply replace_go_ext_on; intros w caps Hin;
    by destruct (H w caps Hin) as (? & ? & ?).
Qed.


(** Outside string values the two readings part: [null] is printed by the
    first two runtimes and dropped by the producer. *)
Lemma compilers_differ_on_null :
  Runtime1.clientCompileFLO (str "{{user}}") {[ str "user" := VNull ]} = str "null"
  ∧ Server.compileFLOtoHTML (str "{{user}}") {[ str "user" := VNull ]} = [].
Proof. split; vm_compute; reflexivity. Qed.

(** The first scenario of the design, on both sides. *)
Lemma home_page_compiles :
  Server.compileFLOtoHTML home_page {[ str "user" := VStr (str "Ada") ]}
  = home_page_html (str "Ada")
  ∧ Runtime1.clientCompileFLO home_page {[ str "user" := VStr (str "Ada") ]}
    = home_page_html (str "Ada")
  ∧ Runtime1.clientCompileFLO home_page ∅ = home_page_html [].
Proof. repeat split; vm_compute; reflexivity. Qed.

(** ** The matcher against the words of a pattern *)

Section Semantics.

Implicit Types (r : regex) (c : cclass) (s rest u v w : jsstring).

Lemma star_greedy_In c s rest :
  In rest (star_greedy c s)
  ↔ ∃ w, s = w ++ rest ∧ forallb (cmatch c) w = true.
Proof.
  revert rest. induction s as [|x s IH]; intros rest; simpl.
  - split.
    + intros [<-|[]]. by exists [].
    + intros (w & Hw & _). symmetry in Hw. apply app_eq_nil in Hw as [_ ->]. by left.
  - destruct (cmatch c x) eqn:Hx.
    + rewrite in_app_iff, IH. simpl. split.
      * intros [(w & -> & Hw)|[<-|[]]].
        -- exists (x :: w). simpl. by rewrite Hx.
        -- by exists [].
      * intros ([|y w] & Hs & Hw); simpl in *.
        -- right. left. done.
        -- left. simplify_eq. apply andb_prop in Hw as [_ Hw]. by exists w.
    + simpl. split.
      * intros [<-|[]]. by exists [].
      * intros ([|y w] & Hs & Hw); simpl in *; [by left|].
        simplify_eq. by rewrite Hx in Hw.
Qed.

Lemma star_lazy_In c s rest :
  In rest (star_lazy c s)
  ↔ ∃ w, s = w ++ rest ∧ forallb (cmatch c) w = true.
Proof.
  revert rest. induction s as [|x s IH]; intros rest; simpl.
  - split.
    + intros [<-|[]]. by exists [].
    + intros (w & Hw & _). symmetry in Hw. apply app_eq_nil in Hw as [_ ->]. by left.
  - destruct (cmatch c x) eqn:Hx.
    + rewrite IH. split.
      * intros [<-|(w & -> & Hw)].
        -- by exists [].
        -- exists (x :: w). simpl. by rewrite Hx.
      * intros ([|y w] & Hs & Hw); simpl in *.
        -- by left.
        -- right. simplify_eq. apply andb_prop in Hw as [_ Hw]. by exists w.
    + split.
      * intros [<-|[]]. by exists [].
      * intros ([|y w] & Hs & Hw); simpl in *; [by left|].
        simplify_eq. by rewrite Hx in Hw.
Qed.

Lemma plus_greedy_In c s rest :
  In rest (plus_greedy c s)
  ↔ ∃ w, w ≠ [] ∧ s = w ++ rest ∧ forallb (cmatch c) w = true.
Proof.
  destruct s as [|x s]; simpl.
  - split; [done|]. intros ([|y w] & Hne & Hs & _); done.
  - destruct (cmatch c x) eqn:Hx.
    + rewrite star_greedy_In. split.
      * intros (w & -> & Hw). exists (x :: w). simpl. by rewrite Hx.
      * intros ([|y w] & Hne & Hs & Hw); [done|]. simpl in *. simplify_eq.
        apply andb_prop in Hw as [_ Hw]. by exists w.
    + split; [done|]. intros ([|y w] & Hne & Hs & Hw); [done|].
      simpl in *. simplify_eq. by rewrite Hx in Hw.
Qed.

(** Every match the matcher lists consumes a word of the pattern and
    reports the captures of one of its readings. *)
Lemma ms_sound r s rest caps :
  In (rest, caps) (ms r s) → ∃ w, s = w ++ rest ∧ Matches r w caps.
Proof.
  revert s rest caps.
  induction r as [l|c|c|c|r1 IH1 r2 IH2|r IH]; intros s rest caps; cbn [ms].
  - destruct (strip_prefix l s) as [rest'|] eqn:Hl; [|done].
    intros [[= <- <-]|[]]. apply strip_prefix_Some in Hl. exists l. split; [done|constructor].
  - rewrite in_map_iff. intros (x & [= <- <-] & (w & -> & Hw)%star_greedy_In).
    exists w. split; [done|by constructor].
  - rewrite in_map_iff. intros (x & [= <- <-] & (w & Hne & -> & Hw)%plus_greedy_In).
    exists w. split; [done|by constructor].
  - rewrite in_map_iff. intros (x & [= <- <-] & (w & -> & Hw)%star_lazy_In).
    exists w. split; [done|by constructor].
  - rewrite in_flat_map. intros ([rest1 caps1] & H1 & H2).
    apply in_map_iff in H2 as ([rest2 caps2] & [= <- <-] & H2). simpl in *.
    apply IH1 in H1 as (w1 & -> & M1). apply IH2 in H2 as (w2 & -> & M2).
    exists (w1 ++ w2). split; [by rewrite app_assoc|by constructor].
  - rewrite in_map_iff. intros ([rest' caps'] & [= <- <-] & H). simpl in *.
    apply IH in H as (w & -> & M). exists w. rewrite consumed_app.
    split; [done|by constructor].
Qed.

(** Every reading of a word of the pattern at the head of [s] is among the
    matches. *)
Lemma ms_complete r w caps rest :
  Matches r w caps → In (rest, caps) (ms r (w ++ rest)).
Proof.
  intros M. revert rest.
  induction M as [l|c w Hw|c w Hne Hw|c w Hw
                 |r1 r2 w1 w2 caps1 caps2 _ IH1 _ IH2|r w caps _ IH];
    intros rest; cbn [ms].
  - rewrite strip_prefix_app. by left.
  - apply in_map_iff. exists rest. split; [done|].
    apply star_greedy_In. by exists w.
  - apply in_map_iff. exists rest. split; [done|].
    apply plus_greedy_In. by exists w.
  - apply in_map_iff. exists rest. split; [done|].
    apply star_lazy_In. by exists w.
  - rewrite <- app_assoc. apply in_flat_map.
    exists (w2 ++ rest, caps1). split; [apply IH1|].
    apply in_map_iff. exists (rest, caps2). split; [done|apply IH2].
  - apply in_map_iff. exists (rest, caps). rewrite consumed_app.
    split; [done|apply IH].
Qed.

(** [has_match] decides whether some substring is a word of the pattern. *)
Lemma has_match_spec r s :
  has_match r s = true ↔ ∃ u w v caps, s = u ++ w ++ v ∧ Matches r w caps.
Proof.
  split.
  - induction s as [|x s IH]; cbn [has_match].
    + destruct (ms r []) as [|[rest caps] l] eqn:Hm; [done|]. intros _.
      destruct (ms_sound r [] rest caps) as (w & Hs & M); [rewrite Hm; by left|].
      by exists [], w, rest, caps.
    + destruct (ms r (x :: s)) as [|[rest caps] l] eqn:Hm.
      * intros (u & w & v & caps & -> & M)%IH. by exists (x :: u), w, v, caps.
      * intros _.
        destruct (ms_sound r (x :: s) rest caps) as (w & Hs & M); [rewrite Hm; by left|].
        by exists [], w, rest, caps.
  - intros (u & w & v & caps & -> & M). induction u as [|x u IH].
    + pose proof (ms_complete r w caps v M) as H. simpl.
      destruct (w ++ v); cbn [has_match]; by destruct (ms r _).
    + simpl. by destruct (ms r (x :: u ++ w ++ v)).
Qed.

End Semantics.

(** ** Sources no pattern applies to *)

(** What [inert] computes: no substring of the source is a word of the
    placeholder pattern or of a pattern of the structural table. *)
Lemma inert_spec src :
  inert src = true
  ↔ ∀ r, In r (Server.placeholder_re :: map fst Server.rules) →
         ¬ ∃ u w v caps, src = u ++ w ++ v ∧ Matches r w caps.
Proof.
  unfold inert. rewrite forallb_forall. split; intros H r Hr.
  - rewrite <- has_match_spec. specialize (H r Hr).
    apply negb_true_iff in H. by rewrite H.
  - apply negb_true_iff, not_true_is_false. rewrite has_match_spec. by apply H.
Qed.

Lemma inert_compile (rules : list (regex * jsstring)) r f src :
  r = Server.placeholder_re → rules = Server.rules → inert src = true →
  structural rules (replace_all r f src) = src.
Proof.
  intros -> -> H. unfold inert in H. cbn [forallb] in H.
  apply andb_prop in H as [Hp Hr]. apply negb_true_iff in Hp.
  rewrite replace_all_no_match by done. by apply structural_no_match.
Qed.

(** C6: a source in which no substring matches the placeholder pattern or
    a pattern of the structural table -- unknown tags such as
    [<flo:widget/>], a link left unclosed, braces that hold no identifier --
    is returned unchanged, code unit for code unit, by the producer and by
    every consumer, whatever the bindings. *)
Theorem inert_source_unchanged {js : engine}
    (src : jsstring) (context : gmap jsstring jsval) :
  inert src = true →
  Server.compileFLOtoHTML src context = src
  ∧ Runtime1.clientCompileFLO src context = src
  ∧ Runtime12.clientCompileFLO src context = src
  ∧ Runtime123.clientCompileFLO src context = src.
Proof.
  intros H.
  rewrite Server_structural, Runtime1_structural, Runtime12_structural,
    Runtime123_structural.
  repeat split; by apply inert_compile.
Qed.

Lemma inert_source_unchanged_witness :
  inert unknown_tags = true
  ∧ Server.compileFLOtoHTML unknown_tags {[ str "user" := VStr (str "Ada") ]}
    = unknown_tags
  ∧ Runtime1.clientCompileFLO (str "<flo:widget/>") ∅ = str "<flo:widget/>".
Proof.
  split; [vm_compute; reflexivity|]. split.
  - pose proof (inert_source_unchanged unknown_tags
                  {[ str "user" := VStr (str "Ada") ]}
                  ltac:(vm_compute; reflexivity)) as (H & _).
    exact H.
  - pose proof (inert_source_unchanged (str "<flo:widget/>") ∅
                  ltac:(vm_compute; reflexivity)) as (_ & H & _).
    exact H.
Defined.

(** ** Sequences that leave the matcher no choice *)

Section Deterministic.

Implicit Types (r R : regex) (c : cclass) (s rest u w l : jsstring).

Lemma map_pair_id {A B} (l : list (A * B)) : map (λ m, (m.1, m.2)) l = l.
Proof. induction l as [|[a b] l IH]; simpl; by rewrite ?IH. Qed.

Lemma flat_map_map {A B C} (f : B → list C) (g : A → B) (l : list A) :
  flat_map f (map g l) = flat_map (λ x, f (g x)) l.
Proof. induction l as [|x l IH]; simpl; by rewrite ?IH. Qed.

(** A pattern that cannot start with [x] consumes nothing of [x :: s], and
    does so only if it is nullable. *)
Lemma ms_cannot_start r x s m :
  can_start r x = false → In m (ms r (x :: s)) →
  m.1 = x :: s ∧ nullable r = true.
Proof.
  revert m. induction r as [l|c|c|c|r1 IH1 r2 IH2|r IH]; intros m Hc; cbn [ms].
  - destruct l as [|a l]; simpl in *.
    + by intros [<-|[]].
    + by rewrite Hc.
  - simpl in *. rewrite Hc. by intros [<-|[]].
  - simpl in *. by rewrite Hc.
  - simpl in *. rewrite Hc. by intros [<-|[]].
  - simpl in Hc. apply orb_false_elim in Hc as [Hc1 Hc2].
    rewrite in_flat_map. intros (m1 & H1 & H2).
    apply in_map_iff in H2 as (m2 & <- & H2).
    destruct (IH1 m1 Hc1 H1) as [E1 N1]. rewrite E1 in H2.
    rewrite N1 in Hc2. simpl in Hc2.
    destruct (IH2 m2 Hc2 H2) as [E2 N2]. simpl. by rewrite N1, N2.
  - simpl in Hc. rewrite in_map_iff. intros (m' & <- & H).
    destruct (IH m' Hc H) as [E N]. done.
Qed.

Lemma ms_cannot_start_nil r x s :
  can_start r x = false → nullable r = false → ms r (x :: s) = [].
Proof.
  intros Hc Hn. destruct (ms r (x :: s)) as [|m l] eqn:E; [done|].
  destruct (ms_cannot_start r x s m Hc) as [_ N]; [rewrite E; by left|congruence].
Qed.

(** Folding a continuation over the remainders of a greedy run: when the
    continuation fails on everything that begins inside the run, only the
    end of the run is left. *)
Lemma star_greedy_only_end {X} c (G : jsstring → list X) u s :
  forallb (cmatch c) u = true →
  (∀ y t, In y u → G (y :: t) = []) →
  flat_map G (star_greedy c (u ++ s)) = flat_map G (star_greedy c s).
Proof.
  intros Hu HG. induction u as [|y u IH]; [done|].
  simpl in *. apply andb_prop in Hu as [-> Hu].
  rewrite flat_map_app. simpl. rewrite (HG y) by (by left).
  rewrite !app_nil_r. apply IH; [done|]. intros y' t Hy'. apply HG. by right.
Qed.

Lemma ms_Star_stop c R s : stops c s = true → ms (Star c ⊙ R) s = ms R s.
Proof.
  intros Hs. cbn [ms]. rewrite star_greedy_stops by done. simpl.
  by rewrite app_nil_r, map_pair_id.
Qed.

(** [c*] before a pattern that cannot start inside the run. *)
Lemma ms_Star_run c R u s :
  forallb (cmatch c) u = true →
  forallb (λ x, negb (can_start R x)) u = true → nullable R = false →
  ms (Star c ⊙ R) (u ++ s) = ms (Star c ⊙ R) s.
Proof.
  intros Hu HR Hn. cbn [ms]. rewrite !flat_map_map.
  apply star_greedy_only_end; [done|].
  intros y t Hy. simpl. rewrite ms_cannot_start_nil; [done| |done].
  rewrite forallb_forall in HR. by apply negb_true_iff, HR.
Qed.

(** [(c+)] before a pattern that cannot start inside the run: the capture is
    the whole run. *)
Lemma ms_GrpPlus_run c R u s :
  u ≠ [] → forallb (cmatch c) u = true →
  forallb (λ x, negb (can_start R x)) u = true → nullable R = false →
  stops c s = true →
  ms (Grp (Plus c) ⊙ R) (u ++ s) = map (λ m, (m.1, u :: m.2)) (ms R s).
Proof.
  intros Hne Hu HR Hn Hs. destruct u as [|x u]; [done|].
  cbn [ms]. rewrite map_map.
  change ((x :: u) ++ s) with (x :: u ++ s). cbn [plus_greedy].
  simpl in Hu, HR. apply andb_prop in Hu as [-> Hu]. apply andb_prop in HR as [_ HR].
  rewrite flat_map_map.
  rewrite (star_greedy_only_end c _ u s); [|done|].
  - rewrite star_greedy_stops by done. simpl. rewrite app_nil_r.
    change (x :: u ++ s) with ((x :: u) ++ s). by rewrite consumed_app.
  - intros y t Hy. simpl. rewrite ms_cannot_start_nil; [done| |done].
    rewrite forallb_forall in HR. by apply negb_true_iff, HR.
Qed.

Lemma ms_Lit_Cat l R s : ms (Lit l ⊙ R) (l ++ s) = ms R s.
Proof.
  cbn [ms]. rewrite strip_prefix_app. simpl. by rewrite app_nil_r, map_pair_id.
Qed.

Lemma ms_Lit_Cat_fail l R s : starts_with l s = false → ms (Lit l ⊙ R) s = [].
Proof.
  unfold starts_with. intros H. cbn [ms]. by destruct (strip_prefix l s).
Qed.

Lemma ms_Lit_exact l s : ms (Lit l) (l ++ s) = [(s, [])].
Proof. cbn [ms]. by rewrite strip_prefix_app. Qed.

Lemma forallb_impl {A} (P Q : A → bool) (l : list A) :
  (∀ x, P x = true → Q x = true) → forallb P l = true → forallb Q l = true.
Proof.
  intros H. rewrite !forallb_forall. intros HP x Hx. by apply H, HP.
Qed.

End Deterministic.

(** ** The placeholder pattern *)

Section Placeholder.

Implicit Types (s rest pre post v p : jsstring) (f : replacer).

Lemma is_word_not_space x : is_word x = true → is_space x = false.
Proof.
  unfold is_word, is_space. intros H. apply not_true_is_false. intros H'.
  repeat rewrite ?orb_true_iff, ?andb_true_iff, ?N.leb_le, ?N.eqb_eq in H.
  repeat rewrite ?orb_true_iff, ?andb_true_iff, ?N.leb_le, ?N.eqb_eq in H'.
  lia.
Qed.

Lemma is_space_not_word x : is_space x = true → is_word x = false.
Proof.
  intros H. destruct (is_word x) eqn:E; [|done].
  apply is_word_not_space in E. congruence.
Qed.

Lemma is_word_not_brace x : is_word x = true → negb (x =? 123) = true.
Proof.
  unfold is_word. intros H. apply negb_true_iff, N.eqb_neq. intros ->. done.
Qed.

Lemma is_space_not_brace x : is_space x = true → negb (x =? 123) = true.
Proof.
  unfold is_space. intros H. apply negb_true_iff, N.eqb_neq. intros ->. done.
Qed.

Lemma placeholder_app ws1 v ws2 post :
  placeholder ws1 v ws2 ++ post
  = str "{{" ++ ws1 ++ v ++ ws2 ++ str "}}" ++ post.
Proof. unfold placeholder. by rewrite <- !app_assoc. Qed.

(** At a placeholder the pattern has exactly one match: the whole
    placeholder, capturing the identifier. *)
Lemma ms_placeholder ws1 v ws2 post :
  forallb is_space ws1 = true → v ≠ [] → forallb is_word v = true →
  forallb is_space ws2 = true →
  ms Server.placeholder_re (placeholder ws1 v ws2 ++ post) = [(post, [v])].
Proof.
  intros H1 Hne Hv H2. rewrite placeholder_app. unfold Server.placeholder_re.
  assert (forallb (λ x, negb (can_start
            (Grp (Plus CWord) ⊙ Star CSpace ⊙ Lit (str "}}")) x)) ws1 = true)
    as A1.
  { eapply forallb_impl; [|exact H1]. intros x Hx. simpl.
    by rewrite (is_space_not_word x Hx). }
  assert (stops CSpace (v ++ ws2 ++ str "}}" ++ post) = true) as A2.
  { destruct v as [|x v]; [done|]. simpl in *.
    apply andb_prop in Hv as [Hx _]. by rewrite (is_word_not_space x Hx). }
  assert (forallb (λ x, negb (can_start (Star CSpace ⊙ Lit (str "}}")) x)) v
          = true) as A3.
  { eapply forallb_impl; [|exact Hv]. intros x Hx. simpl.
    rewrite (is_word_not_space x Hx). simpl.
    apply negb_true_iff, N.eqb_neq. intros ->. done. }
  assert (stops CWord (ws2 ++ str "}}" ++ post) = true) as A4.
  { destruct ws2 as [|y ws2]; [done|]. simpl in *.
    apply andb_prop in H2 as [Hy _]. by rewrite (is_space_not_word y Hy). }
  assert (forallb (λ x, negb (can_start (Lit (str "}}")) x)) ws2 = true) as A5.
  { eapply forallb_impl; [|exact H2]. intros x Hx. simpl.
    apply negb_true_iff, N.eqb_neq. intros ->. done. }
  rewrite ms_Lit_Cat.
  rewrite (ms_Star_run CSpace _ ws1 _ H1 A1 eq_refl), (ms_Star_stop _ _ _ A2).
  rewrite (ms_GrpPlus_run CWord _ v _ Hne Hv A3 eq_refl A4).
  rewrite (ms_Star_run CSpace _ ws2 _ H2 A5 eq_refl).
  rewrite (ms_Star_stop CSpace _ (str "}}" ++ post) eq_refl).
  by rewrite ms_Lit_exact.
Qed.

(** Conversely, whatever the pattern matches is a placeholder. *)
Lemma ms_placeholder_inv s rest caps :
  In (rest, caps) (ms Server.placeholder_re s) →
  ∃ ws1 v ws2,
    s = placeholder ws1 v ws2 ++ rest ∧ forallb is_space ws1 = true
    ∧ v ≠ [] ∧ forallb is_word v = true ∧ forallb is_space ws2 = true
    ∧ caps = [v].
Proof.
  intros (w & -> & M)%ms_sound. unfold Server.placeholder_re in M.
  inversion M as [| | | |? ? w1 x1 c1 d1 M1 N1|]; subst; clear M.
  inversion M1; subst; clear M1.
  inversion N1 as [| | | |? ? w2 x2 c2 d2 M2 N2|]; subst; clear N1.
  inversion M2 as [|? ? Hws1| | | |]; subst; clear M2.
  inversion N2 as [| | | |? ? w3 x3 c3 d3 M3 N3|]; subst; clear N2.
  inversion M3 as [| | | | |? ? ? M3']; subst; clear M3.
  inversion M3' as [| |? ? Hne Hv| | |]; subst; clear M3'.
  inversion N3 as [| | | |? ? w4 x4 c4 d4 M4 N4|]; subst; clear N3.
  inversion M4 as [|? ? Hws2| | | |]; subst; clear M4.
  inversion N4; subst; clear N4.
  exists w2, w3, w4. unfold placeholder. rewrite <- !app_assoc. done.
Qed.

Lemma free_of_app a s1 s2 :
  free_of a (s1 ++ s2) = free_of a s1 && free_of a s2.
Proof. apply forallb_app. Qed.

Lemma app_separator a p s body rest :
  free_of a body = true → p ++ a :: s = body ++ rest →
  ∃ t, p = body ++ t ∧ rest = t ++ a :: s.
Proof.
  revert p. induction body as [|b body IH]; intros p Hb E; simpl in *.
  - by exists p.
  - apply andb_prop in Hb as [Hba Hb]. apply negb_true_iff, N.eqb_neq in Hba.
    destruct p as [|z p]; simplify_eq/=.
    destruct (IH p Hb H0) as (t & -> & ->). by exists t.
Qed.

(** A match that starts before a following [{{] ends before it. *)
Lemma match_at_placeholder_local p s :
  p ≠ [] →
  match_at Server.placeholder_re (p ++ 123 :: 123 :: s)
  = option_map (λ m, (m.1 ++ 123 :: 123 :: s, m.2))
      (match_at Server.placeholder_re p).
Proof.
  intros Hp. unfold match_at.
  assert (∀ t rest caps,
            In (rest, caps) (ms Server.placeholder_re (p ++ t)) →
            t = 123 :: 123 :: s →
            ∃ ws1 v ws2 r, p = placeholder ws1 v ws2 ++ r ∧ rest = r ++ t
              ∧ forallb is_space ws1 = true ∧ v ≠ []
              ∧ forallb is_word v = true ∧ forallb is_space ws2 = true) as Hin.
  { intros t rest caps (ws1 & v & ws2 & E & H1 & Hne & Hv & H2 & _)%ms_placeholder_inv ->.
    exists ws1, v, ws2.
    assert (free_of 123 (ws1 ++ v ++ ws2 ++ str "}}") = true) as Hfree.
    { rewrite !free_of_app. unfold free_of.
      rewrite (forallb_impl _ _ _ is_space_not_brace H1).
      rewrite (forallb_impl _ _ _ is_word_not_brace Hv).
      by rewrite (forallb_impl _ _ _ is_space_not_brace H2). }
    assert (p ++ 123 :: 123 :: s
            = 123 :: 123 :: (ws1 ++ v ++ ws2 ++ str "}}") ++ rest) as E'.
    { rewrite E, placeholder_app, <- !app_assoc. reflexivity. }
    clear E. set (inner := ws1 ++ v ++ ws2 ++ str "}}") in *.
    destruct p as [|x [|y p]]; [done| |]; cbn [app] in E'.
    - injection E' as -> E.
      destruct (app_separator 123 [] s _ _ Hfree E) as (r & Hr & _).
      symmetry in Hr. apply app_eq_nil in Hr as [Hr _]. subst inner.
      rewrite !app_assoc in Hr. apply app_eq_nil in Hr as [_ Hr].
      discriminate Hr.
    - injection E' as -> -> E.
      destruct (app_separator _ _ _ _ _ Hfree E) as (r & -> & ->).
      exists r. unfold placeholder. subst inner. rewrite <- !app_assoc. done. }
  destruct (ms Server.placeholder_re (p ++ 123 :: 123 :: s))
    as [|[rest caps] l] eqn:E.
  - destruct (ms Server.placeholder_re p) as [|[r caps] l] eqn:E'; [done|].
    exfalso.
    destruct (ms_placeholder_inv p r caps) as (ws1 & v & ws2 & -> & H1 & Hne & Hv & H2 & _);
      [rewrite E'; by left|].
    rewrite <- app_assoc, ms_placeholder in E; done.
  - assert (In (rest, caps) (ms Server.placeholder_re (p ++ 123 :: 123 :: s)))
      as HIn by (rewrite E; by left).
    destruct (Hin _ rest caps HIn eq_refl)
      as (ws1 & v & ws2 & r & -> & -> & H1 & Hne & Hv & H2).
    rewrite <- app_assoc, ms_placeholder in E by done.
    rewrite ms_placeholder by done. simpl. by simplify_eq.
Qed.

End Placeholder.

(** ** Interpolation runs once *)

Section Interpolation.

Implicit Types (r : regex) (f : replacer) (s p pre post v : jsstring).

Lemma match_at_In r s m : match_at r s = Some m → In m (ms r s).
Proof. unfold match_at. destruct (ms r s); intros [= ->]. by left. Qed.

(** Global replace splits at a point no match can cross. *)
Lemma replace_go_local r f s p k :
  (∀ p', p' ≠ [] →
     match_at r (p' ++ s) = option_map (λ m, (m.1 ++ s, m.2)) (match_at r p')) →
  match_at r [] = None → (k ≤ length p)%nat →
  replace_go r f k (p ++ s) = replace_go r f k p ++ replace_all r f s.
Proof.
  intros Hloc Hnil. revert k. induction p as [|x p IH]; intros k Hk.
  - simpl in Hk. assert (k = O) as -> by lia.
    cbn [app replace_go]. by rewrite Hnil.
  - destruct k as [|k]; [|cbn [app replace_go]; apply IH; simpl in Hk; lia].
    change ((x :: p) ++ s) with (x :: p ++ s). cbn [replace_go].
    change (x :: p ++ s) with ((x :: p) ++ s). rewrite Hloc by done.
    destruct (match_at r (x :: p)) as [[rest caps]|] eqn:Hm; cbn [option_map fst snd].
    + destruct (ms_sound r (x :: p) rest caps (match_at_In _ _ _ Hm)) as (w & E & _).
      rewrite E, <- app_assoc, !consumed_app.
      destruct w as [|y w]; cbn [length].
      * rewrite IH by lia. by rewrite <- app_assoc.
      * rewrite IH; [by rewrite <- app_assoc|].
        apply (f_equal length) in E. simpl in E. rewrite length_app in E. lia.
    + by rewrite IH by lia.
Qed.

Lemma match_at_placeholder_nil : match_at Server.placeholder_re [] = None.
Proof. reflexivity. Qed.

(** At a placeholder the callback's text is spliced in and the scan resumes
    behind the placeholder: what was inserted is not scanned. *)
Lemma interpolation_at_placeholder f pre ws1 v ws2 post :
  forallb is_space ws1 = true → v ≠ [] → forallb is_word v = true →
  forallb is_space ws2 = true →
  replace_all Server.placeholder_re f (pre ++ placeholder ws1 v ws2 ++ post)
  = replace_all Server.placeholder_re f pre
    ++ f (placeholder ws1 v ws2) [v]
    ++ replace_all Server.placeholder_re f post.
Proof.
  intros H1 Hne Hv H2. unfold replace_all at 1.
  assert (∃ t, placeholder ws1 v ws2 ++ post = 123 :: 123 :: t) as [t Ht].
  { rewrite placeholder_app. by eexists. }
  rewrite Ht, replace_go_local.
  - f_equal. rewrite <- Ht. apply replace_all_match; [done|].
    unfold match_at. by rewrite ms_placeholder.
  - intros p' Hp'. by apply match_at_placeholder_local.
  - apply match_at_placeholder_nil.
  - lia.
Qed.

End Interpolation.

Section Passes.

Context {js : engine}.

Implicit Types (src : jsstring) (context : gmap jsstring jsval).

(** Each compiler is the interpolation pass followed by the structural
    pass over the one table. *)
Lemma Server_passes src context :
  Server.compileFLOtoHTML src context
  = structural Server.rules (interpolate (Server.lookup_var context) src).
Proof. reflexivity. Qed.

Lemma Runtime1_passes src context :
  Runtime1.clientCompileFLO src context
  = structural Server.rules (interpolate (Runtime1.lookup_var context) src).
Proof. reflexivity. Qed.

Lemma Runtime12_passes src context :
  Runtime12.clientCompileFLO src context
  = structural Server.rules (interpolate (Runtime12.lookup_var context) src).
Proof. reflexivity. Qed.

Lemma Runtime123_passes src context :
  Runtime123.clientCompileFLO src context
  = structural Server.rules (interpolate (Runtime123.lookup_var context) src).
Proof. reflexivity. Qed.

Lemma structural_free rules s :
  forallb (λ rule, bool_decide (first_char rule.1 = Some 60)) rules = true →
  free_of 60 s = true → structural rules s = s.
Proof.
  unfold structural. intros Hr Hs.
  induction rules as [|[r t] rules IH]; simpl in *; [done|].
  apply andb_prop in Hr as [Hr Hrs]. apply bool_decide_eq_true in Hr.
  unfold replace_with at 2. rewrite (replace_all_free_all _ _ 60) by done.
  by apply IH.
Qed.

Lemma rules_open_with_lt :
  forallb (λ rule, bool_decide (first_char rule.1 = Some 60)) Server.rules = true.
Proof. vm_compute. reflexivity. Qed.

End Passes.

Section Unbound.

Context {js : engine}.

Implicit Types (pre ws v post w : jsstring) (context : gmap jsstring jsval).

(** A placeholder [{{ v }}] -- identifier of letters, digits and
    underscores, optional whitespace around it inside the braces -- whose
    identifier is neither held by the bindings nor inherited from
    [Object.prototype] is replaced, whole, by the empty string, wherever it
    stands in the source and in each of the four compilers; in particular
    [Hi {{user}}] compiles to [Hi ] under empty bindings. *)
Lemma unbound_placeholder_is_dropped pre ws1 v ws2 post context :
  forallb is_space ws1 = true → v ≠ [] → forallb is_word v = true →
  forallb is_space ws2 = true → context !! v = None →
  Object_prototype !! v = None →
  let src := pre ++ placeholder ws1 v ws2 ++ post in
  (interpolate (Runtime1.lookup_var context) src
   = interpolate (Runtime1.lookup_var context) pre
     ++ interpolate (Runtime1.lookup_var context) post)
  ∧ (interpolate (Runtime12.lookup_var context) src
     = interpolate (Runtime12.lookup_var context) pre
       ++ interpolate (Runtime12.lookup_var context) post)
  ∧ (interpolate (Runtime123.lookup_var context) src
     = interpolate (Runtime123.lookup_var context) pre
       ++ interpolate (Runtime123.lookup_var context) post)
  ∧ (interpolate (Server.lookup_var context) src
     = interpolate (Server.lookup_var context) pre
       ++ interpolate (Server.lookup_var context) post)
  ∧ Runtime1.clientCompileFLO greeting ∅ = str "Hi "
  ∧ Runtime12.clientCompileFLO greeting ∅ = str "Hi "
  ∧ Runtime123.clientCompileFLO greeting ∅ = str "Hi "
  ∧ Server.compileFLOtoHTML greeting ∅ = str "Hi ".
Proof.
  intros H1 Hne Hv H2 Hctx Hproto src. subst src. unfold interpolate.
  rewrite !interpolation_at_placeholder by done.
  pose proof (callbacks_on_unbound context (placeholder ws1 v ws2) [v] Hctx)
    as Hcb. cbv zeta in Hcb. change (arg1 [v]) with v in Hcb.
  rewrite Hproto in Hcb. destruct Hcb as (-> & -> & -> & ->).
  repeat split; vm_compute; reflexivity.
Qed.

(** The same placeholder when the identifier, not held by the bindings, is
    a property of [Object.prototype]: the text of the inherited value stands
    in its place. *)
Lemma inherited_placeholder_is_printed pre ws1 v ws2 post context x :
  forallb is_space ws1 = true → v ≠ [] → forallb is_word v = true →
  forallb is_space ws2 = true → context !! v = None →
  Object_prototype !! v = Some x →
  let src := pre ++ placeholder ws1 v ws2 ++ post in
  (interpolate (Runtime1.lookup_var context) src
   = interpolate (Runtime1.lookup_var context) pre ++ String_ x
     ++ interpolate (Runtime1.lookup_var context) post)
  ∧ (interpolate (Runtime12.lookup_var context) src
     = interpolate (Runtime12.lookup_var context) pre ++ String_ x
       ++ interpolate (Runtime12.lookup_var context) post)
  ∧ (interpolate (Runtime123.lookup_var context) src
     = interpolate (Runtime123.lookup_var context) pre ++ String_ x
       ++ interpolate (Runtime123.lookup_var context) post)
  ∧ (interpolate (Server.lookup_var context) src
     = interpolate (Server.lookup_var context) pre ++ String_ x
       ++ interpolate (Server.lookup_var context) post).
Proof.
  intros H1 Hne Hv H2 Hctx Hproto src. subst src. unfold interpolate.
  rewrite !interpolation_at_placeholder by done.
  pose proof (callbacks_on_unbound context (placeholder ws1 v ws2) [v] Hctx)
    as Hcb. cbv zeta in Hcb. change (arg1 [v]) with v in Hcb.
  rewrite Hproto in Hcb. by destruct Hcb as (-> & -> & -> & ->).
Qed.

End Unbound.

(** C7 on its failing input, [Hi {{constructor}}] under empty bindings: the
    identifier has no entry in the bindings, and where the claim has [Hi ]
    each of the four compilers prints the text of the function [Object],
    which the empty object literal inherits as [constructor] -- on V8 and
    on SpiderMonkey alike, each in its own spelling; so with [toString],
    and [__proto__] prints [[object Object]]. *)
Theorem inherited_name_is_printed :
  let src := str "Hi {{constructor}}" in
  let on_v8 := str "Hi function Object() { [native code] }" in
  let on_spidermonkey :=
    str "Hi function Object() {" ++ [10] ++ str "    [native code]" ++ [10]
      ++ str "}" in
  (∅ : gmap jsstring jsval) !! str "constructor" = None
  ∧ Runtime1.clientCompileFLO (js:=v8) src ∅ = on_v8
  ∧ Runtime12.clientCompileFLO (js:=v8) src ∅ = on_v8
  ∧ Runtime123.clientCompileFLO (js:=v8) src ∅ = on_v8
  ∧ Server.compileFLOtoHTML (js:=v8) src ∅ = on_v8
  ∧ Runtime1.clientCompileFLO (js:=spidermonkey) src ∅ = on_spidermonkey
  ∧ Runtime1.clientCompileFLO (js:=v8) src ∅ ≠ str "Hi "
  ∧ Server.compileFLOtoHTML (js:=v8) src ∅ ≠ str "Hi "
  ∧ Runtime1.clientCompileFLO (js:=v8) (str "{{ toString }}") ∅
    = str "function toString() { [native code] }"
  ∧ Server.compileFLOtoHTML (js:=v8) (str "{{__proto__}}") ∅
    = str "[object Object]".
Proof.
  cbv zeta.
  repeat split; try (vm_compute; reflexivity); vm_compute; discriminate.
Qed.

(** C3, as stated, fails: a structural tag carried by a binding value does
    not reach the output literally.  With [{{user}}] bound to
    [<flo:header>], the structural pass, which runs over the interpolated
    text, rewrites the tag, and the value occurs nowhere in the output. *)
Lemma tag_in_binding_is_rewritten :
  let context : gmap jsstring jsval := {[ str "user" := VStr header_tag ]} in
  Runtime1.clientCompileFLO (str "{{user}}") context
  = str "<header class=" ++ dq ++ str "flo-header" ++ dq ++ str ">"
  ∧ Server.compileFLOtoHTML (str "{{user}}") context
    = str "<header class=" ++ dq ++ str "flo-header" ++ dq ++ str ">"
  ∧ occurs header_tag (Runtime1.clientCompileFLO (str "{{user}}") context) = false
  ∧ occurs header_tag (Server.compileFLOtoHTML (str "{{user}}") context) = false.
Proof. repeat split; vm_compute; reflexivity. Qed.

(** C3, amended: at a placeholder bound to a string, the interpolation pass
    splices the value in verbatim and resumes behind the placeholder, so a
    [{{x}}] inside a value is never expanded; the structural pass then runs
    over the interpolated text, values included.  A value without [<]
    therefore reaches the output literally when the placeholder is the whole
    source, while a tag inside a value is rewritten like the author's own. *)
Theorem bound_value_spliced_verbatim {js : engine}
    (pre ws1 v ws2 post val : jsstring) (context : gmap jsstring jsval) :
  forallb is_space ws1 = true → v ≠ [] → forallb is_word v = true →
  forallb is_space ws2 = true → context !! v = Some (VStr val) →
  let src := pre ++ placeholder ws1 v ws2 ++ post in
  (interpolate (Runtime1.lookup_var context) src
   = interpolate (Runtime1.lookup_var context) pre ++ val
     ++ interpolate (Runtime1.lookup_var context) post)
  ∧ (interpolate (Server.lookup_var context) src
     = interpolate (Server.lookup_var context) pre ++ val
       ++ interpolate (Server.lookup_var context) post)
  ∧ (Runtime1.clientCompileFLO src context
     = structural Server.rules
         (interpolate (Runtime1.lookup_var context) pre ++ val
          ++ interpolate (Runtime1.lookup_var context) post))
  ∧ (Server.compileFLOtoHTML src context
     = structural Server.rules
         (interpolate (Server.lookup_var context) pre ++ val
          ++ interpolate (Server.lookup_var context) post))
  ∧ (free_of 60 val = true →
     Runtime1.clientCompileFLO (placeholder ws1 v ws2) context = val
     ∧ Server.compileFLOtoHTML (placeholder ws1 v ws2) context = val).
Proof.
  intros H1 Hne Hv H2 Hctx src. subst src.
  assert (∀ w, Runtime1.lookup_var context w [v] = val) as E1.
  { intros w. unfold Runtime1.lookup_var, get_prop, arg1. simpl. by rewrite Hctx. }
  assert (∀ w, Server.lookup_var context w [v] = val) as E2.
  { intros w. unfold Server.lookup_var, get_prop, arg1. simpl. rewrite Hctx.
    by destruct val. }
  assert (∀ f, f (placeholder ws1 v ws2) [v] = val →
            interpolate f (pre ++ placeholder ws1 v ws2 ++ post)
            = interpolate f pre ++ val ++ interpolate f post) as Hi.
  { intros f Hf. unfold interpolate.
    by rewrite interpolation_at_placeholder, Hf by done. }
  rewrite Runtime1_passes, Server_passes, !Hi by done.
  do 4 (split; [done|]). intros Hval.
  assert (∀ f, f (placeholder ws1 v ws2) [v] = val →
            structural Server.rules (interpolate f (placeholder ws1 v ws2))
            = val) as Hs.
  { intros f Hf.
    rewrite <- (app_nil_r (placeholder ws1 v ws2)).
    change (placeholder ws1 v ws2 ++ []) with ([] ++ placeholder ws1 v ws2 ++ []).
    unfold interpolate. rewrite interpolation_at_placeholder, Hf by done.
    rewrite (replace_all_nil _ _ 123) by done. rewrite app_nil_l, app_nil_r.
    by apply structural_free; [apply rules_open_with_lt|]. }
  rewrite Runtime1_passes, Server_passes. split; by apply Hs.
Qed.

Lemma bound_value_spliced_verbatim_witness :
  let context : gmap jsstring jsval :=
    {[ str "user" := VStr (str "{{x}}") ; str "x" := VStr (str "boom") ]} in
  interpolate (Runtime1.lookup_var context) (str "Hi {{ user }}, {{x}}")
  = str "Hi {{x}}, boom"
  ∧ Runtime1.clientCompileFLO (str "{{user}}") context = str "{{x}}".
Proof.
  intros context.
  pose proof (bound_value_spliced_verbatim
                (str "Hi ") (str " ") (str "user") (str " ") (str ", {{x}}")
                (str "{{x}}") context
                ltac:(vm_compute; reflexivity) ltac:(discriminate)
                ltac:(vm_compute; reflexivity) ltac:(vm_compute; reflexivity)
                ltac:(vm_compute; reflexivity)) as (H & _).
  pose proof (bound_value_spliced_verbatim
                [] [] (str "user") [] [] (str "{{x}}") context
                ltac:(vm_compute; reflexivity) ltac:(discriminate)
                ltac:(vm_compute; reflexivity) ltac:(vm_compute; reflexivity)
                ltac:(vm_compute; reflexivity)) as (_ & _ & _ & _ & H').
  split.
  - etransitivity; [exact H|]. vm_compute. reflexivity.
  - exact (proj1 (H' ltac:(vm_compute; reflexivity))).
Defined.

(** ** The structural table, rule by rule *)

Lemma table_entries :
  Server.rules !! 0%nat = Some (page_re, page_tmpl)
  ∧ Server.rules !! 10%nat = Some (card_re, card_tmpl)
  ∧ Server.rules !! 14%nat = Some (link_re, link_tmpl)
  ∧ length Server.rules = 15%nat.
Proof. repeat split; reflexivity. Qed.

Section Backtracking.

Implicit Types (r R : regex) (c : cclass) (s rest u w l t post : jsstring).

Lemma ms_Star_cons c R x s :
  cmatch c x = true →
  ms (Star c ⊙ R) (x :: s) = ms (Star c ⊙ R) s ++ ms R (x :: s).
Proof.
  intros Hx. cbn [ms star_greedy]. rewrite Hx.
  rewrite map_app, flat_map_app. simpl. by rewrite app_nil_r, map_pair_id.
Qed.

Lemma ms_Star_cons_stop c R x s :
  cmatch c x = false → ms (Star c ⊙ R) (x :: s) = ms R (x :: s).
Proof. intros Hx. apply ms_Star_stop. simpl. by rewrite Hx. Qed.

(** [c*] followed by a literal that begins nowhere in the run: no match. *)
Lemma ms_Star_Lit_free c l R s :
  run_free c l s = true → ms (Star c ⊙ Lit l ⊙ R) s = [].
Proof.
  induction s as [|x s IH]; cbn [run_free]; intros [Hl Hs]%andb_prop;
    apply negb_true_iff in Hl.
  - rewrite ms_Star_stop by done. by apply ms_Lit_Cat_fail.
  - destruct (cmatch c x) eqn:Hx.
    + rewrite ms_Star_cons, IH by done. by apply ms_Lit_Cat_fail.
    + rewrite ms_Star_cons_stop by done. by apply ms_Lit_Cat_fail.
Qed.

(** The greedy run backs off only as far as it must: a match found behind a
    prefix of the run is the one reported. *)
Lemma match_at_Star_prefix c R u s m :
  forallb (cmatch c) u = true →
  match_at (Star c ⊙ R) s = Some m → match_at (Star c ⊙ R) (u ++ s) = Some m.
Proof.
  intros Hu Hm. induction u as [|x u IH]; [done|].
  simpl in Hu. apply andb_prop in Hu as [Hx Hu].
  change ((x :: u) ++ s) with (x :: u ++ s). unfold match_at.
  rewrite ms_Star_cons by done. apply head_app_Some. by apply IH.
Qed.

Lemma starts_with_separator a l u s :
  free_of a l = true → starts_with l (u ++ a :: s) = true →
  starts_with l u = true.
Proof.
  unfold starts_with. revert u. induction l as [|b l IH]; intros u Hl; [done|].
  simpl in Hl. apply andb_prop in Hl as [Hb Hl].
  apply negb_true_iff, N.eqb_neq in Hb.
  destruct u as [|y u]; cbn [app strip_prefix].
  - destruct (N.eqb_spec a b); [congruence|done].
  - destruct (y =? b); [by apply IH|done].
Qed.

Lemma occurs_starts_with l s :
  occurs l s = false → starts_with l s = false.
Proof. destruct s; simpl; by intros [? ?]%orb_false_elim. Qed.

(** A literal that does not occur in [u] and does not hold [a] begins
    nowhere in the run of [[^a]] at the head of [u ++ a :: s]. *)
Lemma run_free_occurs a l u s :
  l ≠ [] → free_of a l = true → occurs l u = false →
  run_free (CNot a) l (u ++ a :: s) = true.
Proof.
  intros Hne Hl. induction u as [|y u IH]; intros Hu.
  - cbn [app run_free cmatch]. rewrite N.eqb_refl. simpl. rewrite andb_true_r.
    apply negb_true_iff. destruct l as [|b l]; [done|].
    simpl in Hl. apply andb_prop in Hl as [Hb _].
    apply negb_true_iff, N.eqb_neq in Hb.
    unfold starts_with. simpl. destruct (N.eqb_spec a b); [congruence|done].
  - change ((y :: u) ++ a :: s) with (y :: u ++ a :: s). cbn [run_free].
    assert (starts_with l (y :: u) = false) as Hy by (by apply occurs_starts_with).
    cbn [occurs] in Hu. apply orb_false_elim in Hu as [_ Hu].
    apply andb_true_intro. split.
    + apply negb_true_iff, not_true_is_false. intros H.
      apply (starts_with_separator a l (y :: u) s Hl) in H. congruence.
    + destruct (cmatch (CNot a) y); [by apply IH|done].
Qed.

(** From the [title=] attribute on, the pattern has one way through a titled tag. *)
Lemma ms_title_tail t a2 post :
  t ≠ [] → free_of 34 t = true → free_of 62 a2 = true →
  ms title_tail (title_eq ++ t ++ dq ++ a2 ++ str ">" ++ post) = [(post, [t])].
Proof.
  intros Hne Ht Ha. unfold title_tail.
  assert (forallb (λ x, negb (can_start
            (Lit dq ⊙ Star (CNot 62) ⊙ Lit (str ">")) x)) t = true) as A1.
  { eapply forallb_impl; [|exact Ht]. intros x Hx. simpl.
    by rewrite orb_false_r. }
  assert (forallb (λ x, negb (can_start (Lit (str ">")) x)) a2 = true) as A2.
  { eapply forallb_impl; [|exact Ha]. by intros x Hx. }
  rewrite ms_Lit_Cat.
  rewrite (ms_GrpPlus_run (CNot 34) _ t (dq ++ a2 ++ str ">" ++ post)
             Hne Ht A1 eq_refl eq_refl).
  rewrite ms_Lit_Cat.
  rewrite (ms_Star_run (CNot 62) _ a2 _ Ha A2 eq_refl).
  rewrite (ms_Star_stop (CNot 62) _ (str ">" ++ post) eq_refl).
  by rewrite ms_Lit_exact.
Qed.

Lemma run_free_title_tail X :
  run_free (CNot 62) title_eq (str "itle=" ++ dq ++ X)
  = run_free (CNot 62) title_eq X.
Proof. reflexivity. Qed.

(** A titled [page] or [card] tag is matched whole, the title captured. *)
Lemma match_at_titled (name a1 t a2 post : jsstring) :
  free_of 62 a1 = true → t ≠ [] → free_of 34 t = true →
  free_of 62 a2 = true → occurs title_eq (t ++ dq ++ a2) = false →
  match_at (Lit (str "<flo:" ++ name) ⊙ Star (CNot 62) ⊙ title_tail)
    (titled_tag name a1 t a2 ++ post)
  = Some (post, [t]).
Proof.
  intros Ha1 Hne Ht Ha2 Hocc. unfold match_at, titled_tag.
  rewrite <- !app_assoc, (app_assoc (str "<flo:")), ms_Lit_Cat.
  apply (match_at_Star_prefix (CNot 62) title_tail a1 _ _ Ha1).
  unfold match_at.
  change (title_eq ++ t ++ dq ++ a2 ++ str ">" ++ post)
    with (116 :: (str "itle=" ++ dq ++ t ++ dq ++ a2 ++ str ">" ++ post)).
  rewrite ms_Star_cons by done.
  unfold title_tail at 1. rewrite ms_Star_Lit_free.
  - change (116 :: (str "itle=" ++ dq ++ t ++ dq ++ a2 ++ str ">" ++ post))
      with (title_eq ++ t ++ dq ++ a2 ++ str ">" ++ post).
    by rewrite ms_title_tail.
  - rewrite run_free_title_tail.
    change (str ">" ++ post) with (62 :: post).
    rewrite !app_assoc, <- (app_assoc t). by apply run_free_occurs.
Qed.


End Backtracking.

Section Link.

Implicit Types (s rest href attrs text t post l : jsstring).

Lemma line_terminator_cases x :
  is_line_terminator x = true → x = 10 ∨ x = 13 ∨ x = 8232 ∨ x = 8233.
Proof.
  unfold is_line_terminator.
  rewrite !orb_true_iff, !N.eqb_eq. tauto.
Qed.

Lemma flat_map_nil {A B} (f : A → list B) (l : list A) :
  (∀ x, In x l → f x = []) → flat_map f l = [].
Proof.
  induction l as [|x l IH]; intros H; simpl; [done|].
  rewrite (H x) by (by left). apply IH. intros y Hy. apply H. by right.
Qed.

Lemma occurs_app_r l u s : starts_with l s = true → occurs l (u ++ s) = true.
Proof.
  intros H. induction u as [|y u IH]; simpl.
  - destruct s; simpl; by rewrite H.
  - rewrite IH. apply orb_true_r.
Qed.

(** Every match of the link pattern is an opening tag, an inline text that
    holds no line terminator, and the closing tag. *)
Lemma ms_link_inv s rest caps :
  In (rest, caps) (ms link_re s) →
  ∃ href attrs text,
    s = link_open href attrs ++ text ++ link_close ++ rest
    ∧ href ≠ [] ∧ free_of 34 href = true ∧ free_of 62 attrs = true
    ∧ single_line text = true ∧ caps = [href; text].
Proof.
  intros (w & -> & M)%ms_sound. unfold link_re in M.
  inversion M as [| | | |? ? w1 x1 c1 d1 M1 N1|]; subst; clear M.
  inversion M1; subst; clear M1.
  inversion N1 as [| | | |? ? w2 x2 c2 d2 M2 N2|]; subst; clear N1.
  inversion M2 as [| | | | |? ? ? M2']; subst; clear M2.
  inversion M2' as [| |? ? Hne Hh| | |]; subst; clear M2'.
  inversion N2 as [| | | |? ? w3 x3 c3 d3 M3 N3|]; subst; clear N2.
  inversion M3; subst; clear M3.
  inversion N3 as [| | | |? ? w4 x4 c4 d4 M4 N4|]; subst; clear N3.
  inversion M4 as [|? ? Ha| | | |]; subst; clear M4.
  inversion N4 as [| | | |? ? w5 x5 c5 d5 M5 N5|]; subst; clear N4.
  inversion M5; subst; clear M5.
  inversion N5 as [| | | |? ? w6 x6 c6 d6 M6 N6|]; subst; clear N5.
  inversion M6 as [| | | | |? ? ? M6']; subst; clear M6.
  inversion M6' as [| | |? ? Ht| |]; subst; clear M6'.
  inversion N6; subst; clear N6.
  exists w2, w4, w6. unfold link_open. rewrite <- !app_assoc. done.
Qed.

(** A lazy run of [.] cannot reach a literal that lies behind a line
    terminator. *)
Lemma ms_lazy_dot_blocked l t nl rest :
  is_line_terminator nl = true → free_of nl l = true → occurs l t = false →
  ms (Grp (LazyStar CDot) ⊙ Lit l) (t ++ nl :: rest) = [].
Proof.
  intros Hnl Hl Hocc. cbn [ms]. apply flat_map_nil. intros [r caps] Hin.
  apply in_map_iff in Hin as ([r' caps'] & [= <- <-] & Hin).
  apply in_map_iff in Hin as (r'' & [= <- <-] & Hin).
  apply star_lazy_In in Hin as (w & E & Hw). cbn [fst snd].
  assert (free_of nl w = true) as Hfree.
  { eapply forallb_impl; [|exact Hw]. intros x Hx. simpl in Hx.
    apply negb_true_iff, N.eqb_neq. intros ->. by rewrite Hnl in Hx. }
  destruct (app_separator nl t rest w r'' Hfree E) as (t' & -> & ->).
  destruct (strip_prefix l (t' ++ nl :: rest)) eqn:Hs; [|done].
  assert (starts_with l (t' ++ nl :: rest) = true) as H
    by (unfold starts_with; by rewrite Hs).
  apply (starts_with_separator nl l t' rest Hl) in H.
  by rewrite (occurs_app_r l w t' H) in Hocc.
Qed.

Lemma link_close_no_terminator nl :
  is_line_terminator nl = true → free_of nl link_close = true.
Proof. by intros [->|[->|[->| ->]]]%line_terminator_cases. Qed.

(** The link pattern does not match at an opening tag whose inline text
    meets a line terminator before any closing tag. *)
Lemma ms_link_multiline href attrs t nl rest :
  href ≠ [] → free_of 34 href = true → free_of 62 attrs = true →
  occurs link_close t = false → is_line_terminator nl = true →
  ms link_re (link_open href attrs ++ t ++ nl :: rest) = [].
Proof.
  intros Hne Hh Ha Hocc Hnl. unfold link_re, link_open.
  assert (forallb (λ x, negb (can_start
            (Lit dq ⊙ Star (CNot 62) ⊙ Lit (str ">") ⊙ Grp (LazyStar CDot)
               ⊙ Lit link_close) x)) href = true) as A1.
  { eapply forallb_impl; [|exact Hh]. intros x Hx. simpl.
    by rewrite orb_false_r. }
  assert (forallb (λ x, negb (can_start
            (Lit (str ">") ⊙ Grp (LazyStar CDot) ⊙ Lit link_close) x)) attrs
          = true) as A2.
  { eapply forallb_impl; [|exact Ha]. intros x Hx. simpl.
    by rewrite orb_false_r. }
  rewrite <- !app_assoc, (app_assoc (str "<flo:link href=")), ms_Lit_Cat.
  rewrite (ms_GrpPlus_run (CNot 34) _ href
             (dq ++ attrs ++ str ">" ++ t ++ nl :: rest) Hne Hh A1 eq_refl eq_refl).
  rewrite ms_Lit_Cat.
  rewrite (ms_Star_run (CNot 62) _ attrs _ Ha A2 eq_refl).
  rewrite (ms_Star_stop (CNot 62) _ (str ">" ++ t ++ nl :: rest) eq_refl).
  rewrite ms_Lit_Cat.
  rewrite ms_lazy_dot_blocked; [done|done| |done].
  by apply link_close_no_terminator.
Qed.

End Link.

(** ** One tag among plain text *)

Section OneTag.

Implicit Types (r : regex) (f : replacer) (s pre post X Y : jsstring)
  (rules : list (regex * jsstring)).

Lemma has_match_free_prefix r a pre s :
  first_char r = Some a → free_of a pre = true →
  has_match r (pre ++ s) = has_match r s.
Proof.
  intros Hf. induction pre as [|x pre IH]; intros Hp; [done|].
  simpl in Hp. apply andb_prop in Hp as [Hx Hp].
  apply negb_true_iff, N.eqb_neq in Hx.
  change ((x :: pre) ++ s) with (x :: pre ++ s). cbn [has_match].
  rewrite (ms_first_char r a x _ Hf Hx). by apply IH.
Qed.

Lemma has_match_cons_nil r x s :
  ms r (x :: s) = [] → has_match r (x :: s) = has_match r s.
Proof. intros H. cbn [has_match]. by rewrite H. Qed.

Lemma has_match_free r a s :
  first_char r = Some a → free_of a s = true → has_match r s = false.
Proof.
  intros Hf Hs. rewrite <- (app_nil_r s), (has_match_free_prefix r a) by done.
  cbn [has_match]. by rewrite (ms_first_char_nil r a).
Qed.

Lemma fail_at_In rules s rule :
  fail_at rules s = true → In rule rules → ms rule.1 s = [].
Proof.
  unfold fail_at. rewrite forallb_forall. intros H Hin.
  specialize (H rule Hin). by destruct (ms rule.1 s).
Qed.

Lemma rules_first_char rules rule :
  forallb (λ rule, bool_decide (first_char rule.1 = Some 60)) rules = true →
  In rule rules → first_char rule.1 = Some 60.
Proof.
  rewrite forallb_forall. intros H Hin. specialize (H rule Hin).
  by apply bool_decide_eq_true in H.
Qed.


(** The same with two [<]. *)
Lemma structural_two_lt rules pre X Y :
  forallb (λ rule, bool_decide (first_char rule.1 = Some 60)) rules = true →
  free_of 60 pre = true → free_of 60 X = true → free_of 60 Y = true →
  fail_at rules (60 :: X ++ 60 :: Y) = true →
  fail_at rules (60 :: Y) = true →
  structural rules (pre ++ 60 :: X ++ 60 :: Y) = pre ++ 60 :: X ++ 60 :: Y.
Proof.
  intros Hfc Hpre HX HY Hfail1 Hfail2. apply structural_no_match.
  rewrite forallb_forall. intros r (rule & <- & Hin)%in_map_iff.
  apply negb_true_iff.
  rewrite (has_match_free_prefix _ 60) by eauto using rules_first_char.
  rewrite has_match_cons_nil by eauto using fail_at_In.
  rewrite (has_match_free_prefix _ 60) by eauto using rules_first_char.
  rewrite has_match_cons_nil by eauto using fail_at_In.
  eapply has_match_free; eauto using rules_first_char.
Qed.

Lemma structural_app rules1 rules2 s :
  structural (rules1 ++ rules2) s = structural rules2 (structural rules1 s).
Proof. unfold structural. apply fold_left_app. Qed.

Lemma structural_cons r t rules s :
  structural ((r, t) :: rules) s = structural rules (replace_with r t s).
Proof. reflexivity. Qed.

(** A rule that matches at the only [<] of a text rewrites what it matched
    and copies the rest. *)
Lemma replace_with_one_tag r t pre tag post caps :
  first_char r = Some 60 → free_of 60 pre = true → free_of 60 post = true →
  tag ≠ [] → match_at r (tag ++ post) = Some (post, caps) →
  replace_with r t (pre ++ tag ++ post) = pre ++ expand t tag caps ++ post.
Proof.
  intros Hf Hpre Hpost Hne Hm. unfold replace_with.
  rewrite (replace_all_free _ _ 60) by done.
  rewrite (replace_all_match _ _ tag post caps) by done.
  by rewrite (replace_all_free_all _ _ 60).
Qed.

Lemma interpolate_plain f s : free_of 123 s = true → interpolate f s = s.
Proof. intros H. unfold interpolate. by apply (replace_all_free_all _ _ 123). Qed.

Lemma plain_app s1 s2 : plain (s1 ++ s2) = plain s1 && plain s2.
Proof.
  unfold plain. rewrite !free_of_app.
  destruct (free_of 60 s1), (free_of 60 s2), (free_of 123 s1); simpl; try done.
Qed.

Lemma plain_lt s : plain s = true → free_of 60 s = true.
Proof. by intros [? ?]%andb_prop. Qed.

Lemma plain_brace s : plain s = true → free_of 123 s = true.
Proof. by intros [? ?]%andb_prop. Qed.

End OneTag.

(** ** Tags with a title, tags without *)

Section Titles.

Implicit Types (s pre post X W tag a t : jsstring).

Lemma forallb_take {A} (P : A → bool) (l : list A) n :
  forallb P l = true → forallb P (take n l) = true.
Proof.
  intros H. rewrite <- (take_drop n l), forallb_app in H.
  by apply andb_prop in H as [? _].
Qed.

Lemma forallb_drop {A} (P : A → bool) (l : list A) n :
  forallb P l = true → forallb P (drop n l) = true.
Proof.
  intros H. rewrite <- (take_drop n l), forallb_app in H.
  by apply andb_prop in H as [_ ?].
Qed.





Lemma fail_before_card Y :
  fail_at (take 10 Server.rules) (str "<flo:card" ++ Y) = true.
Proof. reflexivity. Qed.



Lemma fail_at_div Y : fail_at Server.rules (str "<d" ++ Y) = true.
Proof. reflexivity. Qed.

Lemma fail_at_section Y : fail_at Server.rules (str "<s" ++ Y) = true.
Proof. reflexivity. Qed.

Lemma fail_at_drop rules n s :
  fail_at rules s = true → fail_at (drop n rules) s = true.
Proof. apply forallb_drop. Qed.

Lemma fail_at_app rules1 rules2 s :
  fail_at (rules1 ++ rules2) s = fail_at rules1 s && fail_at rules2 s.
Proof. apply forallb_app. Qed.

End Titles.

Section TitledTags.

Implicit Types (pre a t post : jsstring) (f : replacer).

Ltac free_of_parts :=
  rewrite ?free_of_app;
  repeat match goal with
         | H : plain ?s = true |- context [free_of 60 ?s] =>
             rewrite (plain_lt s H)
         | H : plain ?s = true |- context [free_of 123 ?s] =>
             rewrite (plain_brace s H)
         end;
  reflexivity.





End TitledTags.





(** An attribute whose name ends in [title] is read as the title. *)
Lemma data_title_is_read_as_title :
  Runtime1.clientCompileFLO
    (str "<flo:page data-title=" ++ dq ++ str "x" ++ dq ++ str ">") ∅
  = page_wrapper (str "x")
  ∧ Server.compileFLOtoHTML
      (str "<flo:card subtitle=" ++ dq ++ str "x" ++ dq ++ str ">") ∅
    = card_wrapper (str "x").
Proof. split; vm_compute; reflexivity. Qed.

(** ** Links *)

Section Links.

Implicit Types (pre href attrs post : jsstring) (f : replacer).

Ltac free_of_parts :=
  rewrite ?free_of_app;
  repeat match goal with
         | H : plain ?s = true |- context [free_of 60 ?s] =>
             rewrite (plain_lt s H)
         | H : plain ?s = true |- context [free_of 123 ?s] =>
             rewrite (plain_brace s H)
         end;
  reflexivity.

Lemma occurs_free a l s : free_of a s = true → occurs (a :: l) s = false.
Proof.
  induction s as [|x s IH]; simpl; [done|].
  intros [Hx Hs]%andb_prop. rewrite (IH Hs), orb_false_r.
  unfold starts_with. simpl. apply negb_true_iff in Hx. by rewrite Hx.
Qed.

Lemma line_terminator_plain nl :
  is_line_terminator nl = true → plain [nl] = true.
Proof. by intros [->|[->|[->| ->]]]%line_terminator_cases. Qed.

Lemma fail_before_link Y :
  fail_at (take 14 Server.rules) (str "<flo:link" ++ Y) = true.
Proof. reflexivity. Qed.

Lemma fail_at_link_close Y :
  fail_at Server.rules (str "</flo:link>" ++ Y) = true.
Proof. reflexivity. Qed.

Lemma star_lazy_skip {X} c (G : jsstring → list X) u s :
  forallb (cmatch c) u = true →
  (∀ y t, In y u → G (y :: t) = []) →
  flat_map G (star_lazy c (u ++ s)) = flat_map G (star_lazy c s).
Proof.
  intros Hu HG. induction u as [|y u IH]; [done|].
  simpl in Hu. apply andb_prop in Hu as [Hy Hu].
  change ((y :: u) ++ s) with (y :: u ++ s). cbn [star_lazy]. rewrite Hy.
  cbn [flat_map]. rewrite (HG y) by (by left). cbn [app].
  apply IH; [done|]. intros y' t Hy'. apply HG. by right.
Qed.

(** A lazy run stops at the first place where the literal behind it
    begins. *)
Lemma match_at_lazy_until c l u s :
  forallb (cmatch c) u = true →
  (∀ y t, In y u → starts_with l (y :: t) = false) →
  match_at (Grp (LazyStar c) ⊙ Lit l) (u ++ l ++ s) = Some (s, [u]).
Proof.
  intros Hu Hl. unfold match_at. cbn [ms]. rewrite map_map, flat_map_map.
  rewrite star_lazy_skip; [|done|].
  - assert (∃ tl, star_lazy c (l ++ s) = (l ++ s) :: tl) as [tl ->]
      by (destruct (l ++ s); by eexists).
    cbn [flat_map fst snd]. rewrite strip_prefix_app. cbn [map app head fst snd].
    by rewrite consumed_app.
  - intros y t Hy. cbn [fst snd ms]. specialize (Hl y t Hy).
    unfold starts_with in Hl. by destruct (strip_prefix l (y :: t)).
Qed.

(** The link pattern matches a link element whose inline text is on one
    line and holds no [<]; it captures the address and the text. *)
Lemma match_at_link href attrs text post :
  href ≠ [] → free_of 34 href = true → free_of 62 attrs = true →
  single_line text = true → free_of 60 text = true →
  match_at link_re (link_element href attrs text ++ post)
  = Some (post, [href; text]).
Proof.
  intros Hne Hh Ha Hl Ht. unfold match_at, link_re, link_element, link_open.
  assert (forallb (λ x, negb (can_start
            (Lit dq ⊙ Star (CNot 62) ⊙ Lit (str ">") ⊙ Grp (LazyStar CDot)
               ⊙ Lit link_close) x)) href = true) as A1.
  { eapply forallb_impl; [|exact Hh]. intros x Hx. simpl.
    by rewrite orb_false_r. }
  assert (forallb (λ x, negb (can_start
            (Lit (str ">") ⊙ Grp (LazyStar CDot) ⊙ Lit link_close) x)) attrs
          = true) as A2.
  { eapply forallb_impl; [|exact Ha]. intros x Hx. simpl.
    by rewrite orb_false_r. }
  rewrite <- !app_assoc, (app_assoc (str "<flo:link href=")), ms_Lit_Cat.
  rewrite (ms_GrpPlus_run (CNot 34) _ href
             (dq ++ attrs ++ str ">" ++ text ++ link_close ++ post)
             Hne Hh A1 eq_refl eq_refl).
  rewrite ms_Lit_Cat.
  rewrite (ms_Star_run (CNot 62) _ attrs _ Ha A2 eq_refl).
  rewrite (ms_Star_stop (CNot 62) _ (str ">" ++ text ++ link_close ++ post)
             eq_refl).
  rewrite ms_Lit_Cat.
  assert (∀ y t, In y text → starts_with link_close (y :: t) = false) as Hc.
  { intros y t Hy. unfold free_of in Ht. rewrite forallb_forall in Ht.
    specialize (Ht y Hy). apply negb_true_iff, N.eqb_neq in Ht.
    unfold starts_with. change link_close with (60 :: str "/flo:link>").
    by rewrite strip_prefix_head. }
  pose proof (match_at_lazy_until CDot link_close text post Hl Hc) as Hm.
  unfold match_at in Hm.
  destruct (ms (Grp (LazyStar CDot) ⊙ Lit link_close)
              (text ++ link_close ++ post)) as [|m ms']; [discriminate Hm|].
  cbn [map head fst snd]. by injection Hm as ->.
Qed.

Lemma expand_link_tmpl w href text :
  expand link_tmpl w [href; text] = link_anchor href text.
Proof. reflexivity. Qed.

(** A link element on one line, among plain text, becomes the anchor. *)
Lemma single_line_link_rewritten f pre href attrs text post :
  plain pre = true → plain href = true → plain attrs = true →
  plain text = true → plain post = true →
  href ≠ [] → free_of 34 href = true → free_of 62 attrs = true →
  single_line text = true →
  structural Server.rules
    (interpolate f (pre ++ link_element href attrs text ++ post))
  = pre ++ link_anchor href text ++ post.
Proof.
  intros Hpre Hh Ha Ht Hpost Hne Hq Hg Hl.
  rewrite interpolate_plain
    by (unfold link_element, link_open, link_close; free_of_parts).
  set (X := str "flo:link href=" ++ dq ++ href ++ dq ++ attrs ++ str ">"
              ++ text).
  set (Y := str "/flo:link>" ++ post).
  assert (pre ++ link_element href attrs text ++ post
          = pre ++ 60 :: X ++ 60 :: Y) as E.
  { unfold link_element, link_open, link_close, X, Y.
    rewrite <- !app_assoc. reflexivity. }
  assert (free_of 60 X = true) as HX by (unfold X; free_of_parts).
  assert (free_of 60 Y = true) as HY by (unfold Y; free_of_parts).
  rewrite <- (take_drop_middle Server.rules 14 (link_re, link_tmpl) eq_refl).
  rewrite structural_app, structural_cons, E.
  rewrite (structural_two_lt (take 14 Server.rules) pre X Y);
    [|by apply forallb_take, rules_open_with_lt|by apply plain_lt|done|done
     | |by apply forallb_take, (fail_at_link_close post)].
  - rewrite <- E.
    rewrite (replace_with_one_tag link_re link_tmpl pre
               (link_element href attrs text) post [href; text]);
      [reflexivity|reflexivity|by apply plain_lt|by apply plain_lt|done|].
    apply match_at_link; try done. by apply plain_lt.
  - apply (fail_before_link
             ((str " href=" ++ dq ++ href ++ dq ++ attrs ++ str ">" ++ text)
                ++ 60 :: Y)).
Qed.

(** A link element whose inline text holds a line terminator, among plain
    text, goes through both passes untouched. *)
Lemma multiline_link_kept f pre href attrs t1 nl t2 post :
  plain pre = true → plain href = true → plain attrs = true →
  plain t1 = true → plain t2 = true → plain post = true →
  href ≠ [] → free_of 34 href = true → free_of 62 attrs = true →
  is_line_terminator nl = true →
  structural Server.rules
    (interpolate f (pre ++ link_element href attrs (t1 ++ nl :: t2) ++ post))
  = pre ++ link_element href attrs (t1 ++ nl :: t2) ++ post.
Proof.
  intros Hpre Hh Ha Ht1 Ht2 Hpost Hne Hq Hg Hnl.
  pose proof (line_terminator_plain nl Hnl) as Hp.
  set (X := str "flo:link href=" ++ dq ++ href ++ dq ++ attrs ++ str ">"
              ++ t1 ++ [nl] ++ t2).
  set (Y := str "/flo:link>" ++ post).
  assert (pre ++ link_element href attrs (t1 ++ nl :: t2) ++ post
          = pre ++ 60 :: X ++ 60 :: Y) as ->.
  { unfold link_element, link_open, link_close, X, Y.
    rewrite <- !app_assoc. reflexivity. }
  assert (free_of 60 X = true) as HX by (unfold X; free_of_parts).
  assert (free_of 60 Y = true) as HY by (unfold Y; free_of_parts).
  rewrite interpolate_plain.
  - apply (structural_two_lt Server.rules pre X Y rules_open_with_lt
             (plain_lt _ Hpre) HX HY).
    + rewrite <- (take_drop_middle Server.rules 14 (link_re, link_tmpl) eq_refl).
      rewrite fail_at_app. apply andb_true_intro. split.
      * apply (fail_before_link
                 ((str " href=" ++ dq ++ href ++ dq ++ attrs ++ str ">"
                     ++ t1 ++ [nl] ++ t2) ++ 60 :: Y)).
      * unfold fail_at. cbn [forallb fst drop]. rewrite andb_true_r.
        assert (60 :: X ++ 60 :: Y
                = link_open href attrs ++ t1 ++ nl :: t2 ++ link_close ++ post)
          as ->.
        { unfold link_open, link_close, X, Y. rewrite <- !app_assoc. reflexivity. }
        rewrite ms_link_multiline; try done.
        apply occurs_free. by apply plain_lt.
    + apply (fail_at_link_close post).
  - change (60 :: X ++ 60 :: Y) with ([60] ++ X ++ [60] ++ Y).
    unfold X, Y. free_of_parts.
Qed.

End Links.

(** C10, as stated, fails: a link element whose inline text holds a
    newline before the closing tag is not left entirely untransformed for
    every source.  The link rule passes it by, but a placeholder in its text
    is interpolated, another structural tag in its text is rewritten, and
    its closing tag is taken by a later opening tag that has its text on one
    line. *)
Lemma multiline_link_is_transformed :
  let open_a := link_open (str "/a") [] in
  let src1 := open_a ++ str "Hi {{user}}," ++ 10 :: str "bye" ++ link_close in
  let src2 := open_a ++ str "logo:" ++ 10 :: str "<flo:logo>" ++ link_close in
  let src3 :=
    open_a ++ str "one" ++ 10 :: link_element (str "/b") [] (str "two") in
  let ada : gmap jsstring jsval := {[ str "user" := VStr (str "Ada") ]} in
  Runtime1.clientCompileFLO src1 ada
  = open_a ++ str "Hi Ada," ++ 10 :: str "bye" ++ link_close
  ∧ Server.compileFLOtoHTML src1 ada
    = open_a ++ str "Hi Ada," ++ 10 :: str "bye" ++ link_close
  ∧ Runtime1.clientCompileFLO src1 ada ≠ src1
  ∧ Server.compileFLOtoHTML src1 ada ≠ src1
  ∧ Server.compileFLOtoHTML src2 ∅
    = open_a ++ str "logo:" ++ 10 :: str "<div class=" ++ dq ++ str "flo-logo"
        ++ dq ++ str ">" ++ link_close
  ∧ Server.compileFLOtoHTML src2 ∅ ≠ src2
  ∧ Server.compileFLOtoHTML src3 ∅
    = open_a ++ str "one" ++ 10 :: link_anchor (str "/b") (str "two")
  ∧ Server.compileFLOtoHTML src3 ∅ ≠ src3.
Proof.
  cbv zeta.
  repeat split; try (vm_compute; reflexivity); vm_compute; discriminate.
Qed.

(** C10, amended: the link rule matches within one line only.  Whatever the
    link pattern matches is an opening tag, an inline text that holds no line
    terminator, and the closing tag; at an opening tag whose inline text
    meets a newline (or another line terminator) before any closing tag the
    pattern does not match.  A link element whose inline text holds a
    newline reaches the output of each compiler untransformed when neither
    interpolation nor another rule finds anything in it or around it -- the
    address, the attributes, the inline text and the surroundings hold no
    [<] and no [{] -- whereas the same element with its text on one line
    becomes the anchor. *)
Theorem multiline_link_untouched {js : engine}
    (pre href attrs t1 : jsstring) (nl : N) (t2 post : jsstring)
    (context : gmap jsstring jsval) :
  plain pre = true → plain href = true → plain attrs = true →
  plain t1 = true → plain t2 = true → plain post = true →
  href ≠ [] → free_of 34 href = true → free_of 62 attrs = true →
  is_line_terminator nl = true →
  let element := link_element href attrs (t1 ++ nl :: t2) in
  (∀ s rest caps,
     In (rest, caps) (ms link_re s) →
     ∃ href' attrs' text,
       s = link_element href' attrs' text ++ rest
       ∧ single_line text = true ∧ caps = [href'; text])
  ∧ (∀ href' attrs' text rest (nl' : N),
       href' ≠ [] → free_of 34 href' = true → free_of 62 attrs' = true →
       occurs link_close text = false → is_line_terminator nl' = true →
       match_at link_re (link_open href' attrs' ++ text ++ nl' :: rest) = None)
  ∧ Runtime1.clientCompileFLO (pre ++ element ++ post) context
    = pre ++ element ++ post
  ∧ Runtime12.clientCompileFLO (pre ++ element ++ post) context
    = pre ++ element ++ post
  ∧ Runtime123.clientCompileFLO (pre ++ element ++ post) context
    = pre ++ element ++ post
  ∧ Server.compileFLOtoHTML (pre ++ element ++ post) context
    = pre ++ element ++ post
  ∧ (single_line (t1 ++ t2) = true →
     Runtime1.clientCompileFLO
       (pre ++ link_element href attrs (t1 ++ t2) ++ post) context
     = pre ++ link_anchor href (t1 ++ t2) ++ post
     ∧ Server.compileFLOtoHTML
         (pre ++ link_element href attrs (t1 ++ t2) ++ post) context
       = pre ++ link_anchor href (t1 ++ t2) ++ post).
Proof.
  intros Hpre Hh Ha Ht1 Ht2 Hpost Hne Hq Hg Hnl element. subst element.
  assert (plain (t1 ++ t2) = true) as Ht by (by rewrite plain_app, Ht1, Ht2).
  split; [|split].
  - intros s rest caps (h & a & text & -> & _ & _ & _ & Hl & ->)%ms_link_inv.
    exists h, a, text. unfold link_element. by rewrite <- !app_assoc.
  - intros h a text rest nl' Hne' Hq' Hg' Hocc Hnl'. unfold match_at.
    by rewrite ms_link_multiline.
  - rewrite ?Runtime1_passes, ?Runtime12_passes, ?Runtime123_passes,
      ?Server_passes.
    rewrite !multiline_link_kept by done. do 4 (split; [done|]).
    intros Hl. by rewrite !single_line_link_rewritten by done.
Qed.

Lemma multiline_link_untouched_witness :
  let src :=
    str "See " ++ link_element (str "/docs") (str " target=_blank")
                    (str "the" ++ 10 :: str "docs") ++ str "." in
  Runtime1.clientCompileFLO src {[ str "user" := VStr (str "Ada") ]} = src.
Proof.
  intros src.
  pose proof (multiline_link_untouched
                (str "See ") (str "/docs") (str " target=_blank")
                (str "the") 10 (str "docs") (str ".")
                {[ str "user" := VStr (str "Ada") ]}
                ltac:(vm_compute; reflexivity) ltac:(vm_compute; reflexivity)
                ltac:(vm_compute; reflexivity) ltac:(vm_compute; reflexivity)
                ltac:(vm_compute; reflexivity) ltac:(vm_compute; reflexivity)
                ltac:(discriminate) ltac:(vm_compute; reflexivity)
                ltac:(vm_compute; reflexivity) ltac:(vm_compute; reflexivity))
    as (_ & _ & H & _).
  exact H.
Defined.

(** ** Totality *)



(** ** The consumer pipeline *)

Section Pipeline.

Context {js : engine} {key : Type}.
Variable subtle_importKey : list N → option key.
Variable subtle_verify : key → list N → list N → option bool.

Implicit Types (rt : runtime) (doc : document) (shell : list node).

Ltac run_main :=
  unfold load, classify, main, try_catch, verifySignature, importPublicKey,
    pemToArrayBuffer, clientCompile, atob_, emit, set_innerHTML,
    appendChildren, throw, mbind, mret, M_bind, M_ret;
  cbn [fst snd body trace app negb flo_payload flo_signature flo_public_pem].

(** Every run ends at the exit [classify] names, showing what [presented]
    says. *)
Lemma load_outcome rt doc shell :
  body (load subtle_importKey subtle_verify rt doc shell)
  = presented rt (classify subtle_importKey subtle_verify doc).
Proof.
  destruct doc as [[p|] [s|] [k|]]; run_main; try reflexivity.
  destruct (atob (trim p)) as [floSource|]; [|reflexivity].
  destruct (atob (pem_b64 (trim k))) as [der|]; [|reflexivity].
  cbn [body trace app].
  destruct (subtle_importKey (char_codes der)) as [publicKey|]; [|reflexivity].
  destruct (atob (trim s)) as [sig|]; [|reflexivity].
  cbn [body trace app].
  destruct (subtle_verify publicKey (char_codes sig) (TextEncoder_encode floSource))
    as [[|]|]; reflexivity.
Qed.

Ltac run_cases p s k :=
  run_main;
  destruct (atob (trim p)) as [floSource|] eqn:Hsrc;
    [destruct (atob (pem_b64 (trim k))) as [der|] eqn:Hder;
       [cbn [body trace app];
        destruct (subtle_importKey (char_codes der)) as [publicKey|] eqn:Hkey;
          [destruct (atob (trim s)) as [sig|] eqn:Hsig;
             [cbn [body trace app];
              destruct (subtle_verify publicKey (char_codes sig)
                          (TextEncoder_encode floSource)) as [[|]|] eqn:Hok| ]
          | ]
       | ]
    | ];
  cbn [body trace app negb fst snd].

(** Compilation is the last step of a run that imported the key and saw
    the verification call return true on the encoding of the very string it
    then compiles. *)
Lemma compile_only_after_verified rt doc shell src context :
  In (ECompile src context)
    (trace (load subtle_importKey subtle_verify rt doc shell)) →
  ∃ payloadEl spki publicKey sig,
    flo_payload doc = Some payloadEl ∧ atob (trim payloadEl) = Some src
    ∧ subtle_verify publicKey sig (TextEncoder_encode src) = Some true
    ∧ trace (load subtle_importKey subtle_verify rt doc shell)
      = [EImportKey spki;
         EVerify publicKey sig (TextEncoder_encode src) (Some true);
         ECompile src context].
Proof.
  destruct doc as [[p|] [s|] [k|]]; try (run_main; by intros []).
  run_cases p s k; intros Hin;
    repeat (destruct Hin as [Hin|Hin]; [try discriminate Hin|]);
    try (by destruct Hin).
  injection Hin as <- <-. by exists p, (char_codes der), publicKey, (char_codes sig).
Qed.


(** A run that ends in a failure never reached the compiler. *)
Lemma failed_never_compiles rt doc shell f :
  classify subtle_importKey subtle_verify doc = Failed f →
  forallb (λ e, negb (is_compile e))
    (trace (load subtle_importKey subtle_verify rt doc shell)) = true.
Proof.
  destruct doc as [[p|] [s|] [k|]]; try (run_main; by intros _).
  run_cases p s k; by intros.
Qed.

(** A run with an element missing touches neither the cryptographic
    facility nor anything else. *)
Lemma missing_trace rt doc shell :
  flo_payload doc = None ∨ flo_signature doc = None ∨ flo_public_pem doc = None →
  load subtle_importKey subtle_verify rt doc shell
  = {| body := parse_nodes (missing_message rt); trace := [] |}.
Proof.
  destruct doc as [[p|] [s|] [k|]]; intros [H|[H|H]]; try discriminate H;
    reflexivity.
Qed.

(** C9: when any of the three transport elements is absent the run takes
    the MissingInput exit: it shows the runtime's missing-input message and
    nothing else, and its trace is empty -- no key import, no verification,
    no compilation, nothing logged. *)
Theorem missing_input_aborts_before_crypto rt doc shell :
  flo_payload doc = None ∨ flo_signature doc = None ∨ flo_public_pem doc = None →
  let w := load subtle_importKey subtle_verify rt doc shell in
  classify subtle_importKey subtle_verify doc = Failed MissingInput
  ∧ body w = parse_nodes (missing_message rt)
  ∧ trace w = []
  ∧ forallb (λ e, negb (is_crypto_call e)) (trace w) = true.
Proof.
  intros H w. subst w. rewrite (missing_trace rt doc shell H).
  repeat split.
  destruct doc as [[p|] [s|] [k|]]; destruct H as [H|[H|H]];
    try discriminate H; reflexivity.
Qed.

(** C2, amended: every failure behind the missing-input check is caught and
    shown as exactly one of two states, the integrity-check abort or the
    runtime-error abort.  A signature mismatch shows the first; malformed
    input -- bad base64 in the payload, the key or the signature, or key
    material the import rejects -- and a rejected verification call show the
    second.  The first two runtimes word the two states differently from one
    another, as does the third, so malformed input is told apart from a
    mismatch on the page. *)
Theorem failures_show_one_of_two_states rt doc shell f :
  classify subtle_importKey subtle_verify doc = Failed f → f ≠ MissingInput →
  let w := load subtle_importKey subtle_verify rt doc shell in
  (body w = parse_nodes (integrity_message rt)
   ∨ body w = parse_nodes (error_message rt))
  ∧ (f = SignatureMismatch → body w = parse_nodes (integrity_message rt))
  ∧ (f = MalformedInput → body w = parse_nodes (error_message rt))
  ∧ (f = CryptoFault → body w = parse_nodes (error_message rt))
  ∧ parse_nodes (integrity_message Runtime1.rt)
    ≠ parse_nodes (error_message Runtime1.rt)
  ∧ parse_nodes (integrity_message Runtime12.rt)
    ≠ parse_nodes (error_message Runtime12.rt)
  ∧ parse_nodes (integrity_message Runtime123.rt)
    ≠ parse_nodes (error_message Runtime123.rt).
Proof.
  intros Hc Hf w. subst w. rewrite load_outcome, Hc.
  destruct f; try done; repeat split; try done; try (by left); try (by right);
    vm_compute; discriminate.
Qed.

End Pipeline.



Lemma missing_input_aborts_before_crypto_witness :
  load import_any (valid_on []) Runtime1.rt unsigned_doc []
  = {| body := [Parsed (missing_message Runtime1.rt)]; trace := [] |}.
Proof.
  pose proof (missing_input_aborts_before_crypto import_any (valid_on [])
                Runtime1.rt unsigned_doc []
                ltac:(right; left; reflexivity)) as (_ & Hb & Ht & _).
  destruct (load import_any (valid_on []) Runtime1.rt unsigned_doc [])
    as [b t]. simpl in Hb, Ht. by rewrite Hb, Ht.
Defined.

(** C2, as stated, fails: a signature that is not base64 and a signature
    that does not verify are shown differently, the one as a runtime error,
    the other as a failed integrity check; so is key material the import
    rejects. *)
Lemma malformed_and_mismatch_differ :
  let bad := load import_any (valid_on []) Runtime1.rt bad_signature_doc [] in
  let bad_key :=
    load (λ _ : list N, @None unit) (valid_on []) Runtime1.rt greeting_doc [] in
  let mismatch := load import_any (valid_on []) Runtime1.rt greeting_doc [] in
  classify import_any (valid_on []) bad_signature_doc = Failed MalformedInput
  ∧ classify (λ _ : list N, @None unit) (valid_on []) greeting_doc
    = Failed MalformedInput
  ∧ classify import_any (valid_on []) greeting_doc = Failed SignatureMismatch
  ∧ body bad = [Parsed (error_message Runtime1.rt)]
  ∧ body bad_key = [Parsed (error_message Runtime1.rt)]
  ∧ body mismatch = [Parsed (integrity_message Runtime1.rt)]
  ∧ body bad ≠ body mismatch
  ∧ body bad_key ≠ body mismatch.
Proof. repeat split; try (vm_compute; reflexivity); vm_compute; discriminate. Qed.

Lemma failures_show_one_of_two_states_witness :
  body (load import_any (valid_on []) Runtime1.rt bad_signature_doc [])
  = parse_nodes (error_message Runtime1.rt)
  ∧ body (load import_any (valid_on []) Runtime1.rt greeting_doc [])
    = parse_nodes (integrity_message Runtime1.rt).
Proof.
  pose proof (failures_show_one_of_two_states import_any (valid_on [])
                Runtime1.rt bad_signature_doc [] MalformedInput
                ltac:(vm_compute; reflexivity) ltac:(discriminate))
    as (_ & _ & H & _).
  pose proof (failures_show_one_of_two_states import_any (valid_on [])
                Runtime1.rt greeting_doc [] SignatureMismatch
                ltac:(vm_compute; reflexivity) ltac:(discriminate))
    as (_ & H' & _).
  split; [exact (H eq_refl)|exact (H' eq_refl)].
Defined.

(** ** The bytes that are verified *)

(** On a source of ASCII code units the encoder returns the code units
    themselves: there the verified bytes are the decoded bytes. *)
Lemma TextEncoder_ascii (s : jsstring) :
  forallb (λ c, c <? 128) s = true → TextEncoder_encode s = s.
Proof.
  induction s as [|c s IH]; simpl; [done|].
  intros [Hc Hs]%andb_prop. by rewrite Hc, IH.
Qed.

(** [atob] returns a binary string: code units below 256. *)
Lemma b64_value_bound x v : b64_value x = Some v → v < 64.
Proof.
  unfold b64_value.
  repeat match goal with
         | |- context [if ?b then _ else _] => destruct b eqn:?
         end; intros [= <-]; try lia;
    repeat match goal with
           | H : (_ && _) = true |- _ => apply andb_prop in H as [? ?]
           | H : (_ <=? _) = true |- _ => apply N.leb_le in H
           end; lia.
Qed.

Lemma b64_values_bound d vs :
  b64_values d = Some vs → Forall (λ v, v < 64) vs.
Proof.
  revert vs. induction d as [|x d IH]; intros vs; simpl.
  - intros [= <-]. constructor.
  - destruct (b64_value x) as [v|] eqn:Hv; [|done].
    destruct (b64_values d) as [vs'|]; [|done]. intros [= <-].
    constructor; [by eapply b64_value_bound|by apply IH].
Qed.

Lemma b64_octets_bound vs :
  Forall (λ v, v < 64) vs → Forall (λ c, c < 256) (b64_octets vs).
Proof.
  assert (∀ n vs, (length vs ≤ n)%nat → Forall (λ v, v < 64) vs →
                  Forall (λ c, c < 256) (b64_octets vs)) as H.
  { clear vs. induction n as [|n IH]; intros vs Hn Hvs.
    - destruct vs; [constructor|simpl in Hn; lia].
    - assert (∀ x y, x < 64 → y < 64 → x * 4 + y / 16 < 256) as B1.
      { intros x y Hx Hy.
        pose proof (N.Div0.div_lt_upper_bound y 16 4 ltac:(lia)). lia. }
      assert (∀ x y, (x mod 16) * 16 + y / 4 < 256 ∨ 64 <= y) as B2.
      { intros x y. destruct (N.lt_ge_cases y 64) as [Hy|Hy]; [left|by right].
        pose proof (N.mod_lt x 16 ltac:(lia)).
        pose proof (N.Div0.div_lt_upper_bound y 4 16 ltac:(lia)). lia. }
      assert (∀ x y, y < 64 → (x mod 4) * 64 + y < 256) as B3.
      { intros x y Hy. pose proof (N.mod_lt x 4 ltac:(lia)). lia. }
      destruct vs as [|a [|b [|c [|d vs]]]]; cbn [b64_octets];
        repeat match goal with
               | H : Forall _ (_ :: _) |- _ => apply Forall_cons in H as [? H]
               end.
      + constructor.
      + constructor.
      + apply Forall_cons. split; [by apply B1|constructor].
      + apply Forall_cons. split; [by apply B1|].
        apply Forall_cons. split; [|constructor].
        destruct (B2 b c); [done|lia].
      + apply Forall_cons. split; [by apply B1|].
        apply Forall_cons. split; [destruct (B2 b c); [done|lia]|].
        apply Forall_cons. split; [by apply B3|].
        apply IH; [simpl in Hn; lia|done]. }
  by apply (H (length vs)).
Qed.

Lemma atob_latin1 (data s : jsstring) :
  atob data = Some s → forallb (λ c, c <? 256) s = true.
Proof.
  unfold atob. destruct (_ =? 1)%nat; [done|].
  destruct (b64_values _) as [vs|] eqn:Hvs; [|done]. intros [= <-].
  apply forallb_forall. intros c Hc. apply N.ltb_lt.
  pose proof (b64_octets_bound vs (b64_values_bound _ _ Hvs)) as H.
  rewrite Forall_forall in H. apply H. by apply list_elem_of_In.
Qed.

(** On a binary string -- code units below 256, as [atob] returns them --
    every unit from 128 on becomes two bytes. *)
Lemma TextEncoder_latin1 (s : jsstring) :
  forallb (λ c, c <? 256) s = true →
  TextEncoder_encode s = flat_map encode_latin1 s.
Proof.
  induction s as [|c s IH]; [done|]. cbn [forallb].
  intros [Hc Hs]%andb_prop. cbn [TextEncoder_encode flat_map].
  unfold encode_latin1 at 1.
  destruct (c <? 128) eqn:H128; [by rewrite IH|].
  assert ((c <? 2048) = true) as ->
    by (apply N.ltb_lt; apply N.ltb_lt in Hc; lia).
  by rewrite IH.
Qed.

Lemma encode_latin1_length (s : jsstring) :
  (length s ≤ length (flat_map encode_latin1 s))%nat.
Proof.
  induction s as [|c s IH]; [done|]. cbn [flat_map]. rewrite length_app.
  unfold encode_latin1 at 1. destruct (c <? 128); simpl; lia.
Qed.

(** Hence the verified bytes are not the decoded bytes as soon as one of
    them is 128 or more. *)
Lemma TextEncoder_high_byte (s : jsstring) :
  forallb (λ c, c <? 256) s = true → existsb (λ c, 128 <=? c) s = true →
  TextEncoder_encode s ≠ s.
Proof.
  intros Hs Hh E. apply (f_equal length) in E.
  rewrite TextEncoder_latin1 in E by done. clear Hs.
  induction s as [|c s IH]; [done|]. cbn [existsb flat_map] in *.
  rewrite length_app in E. unfold encode_latin1 at 1 in E.
  destruct (c <? 128) eqn:H128.
  - assert ((128 <=? c) = false) as Hc
      by (apply N.leb_gt; by apply N.ltb_lt in H128).
    rewrite Hc in Hh. simpl in *. apply IH; [done|lia].
  - pose proof (encode_latin1_length s). simpl in E. lia.
Qed.

(** What a run that reaches the compiler has verified: the encoding of the
    decoded payload, which is the decoded bytes when these are ASCII and is
    not when one of them is 128 or more. *)
Lemma verified_bytes_of_compiled_source {key : Type}
    (subtle_importKey : list N → option key)
    (subtle_verify : key → list N → list N → option bool)
    (rt : runtime) (doc : document) (shell : list node)
    (src : jsstring) (context : gmap jsstring jsval) :
  In (ECompile src context)
    (trace (load subtle_importKey subtle_verify rt doc shell)) →
  ∃ spki publicKey sig,
    trace (load subtle_importKey subtle_verify rt doc shell)
    = [EImportKey spki;
       EVerify publicKey sig (TextEncoder_encode src) (Some true);
       ECompile src context]
    ∧ (forallb (λ c, c <? 128) src = true → TextEncoder_encode src = src)
    ∧ (existsb (λ c, 128 <=? c) src = true → TextEncoder_encode src ≠ src).
Proof.
  intros (p & spki & k & sig & _ & Hsrc & _ & Ht)%compile_only_after_verified.
  exists spki, k, sig. split; [done|]. split.
  - apply TextEncoder_ascii.
  - apply TextEncoder_high_byte. by eapply atob_latin1.
Qed.

(** C1 at a payload that is not ASCII.  The payload [w6k=] decodes to the
    two bytes C3 A9; [atob] hands them over as a two-unit string, which
    [TextEncoder] encodes once more, so that the verification call receives
    the four bytes C3 83 C2 A9.  A signature that is valid on the decoded
    bytes is therefore rejected, and a run does reach the compiler when the
    signature is valid on the four re-encoded bytes: verification then
    returned true, but not over the decoded source bytes. *)
Theorem verified_bytes_differ_from_decoded :
  let honest := load import_any (valid_on [195; 169]) Runtime1.rt accent_doc [] in
  let reencoded :=
    load import_any (valid_on [195; 131; 194; 169]) Runtime1.rt accent_doc [] in
  atob (str "w6k=") = Some [195; 169]
  ∧ TextEncoder_encode [195; 169] = [195; 131; 194; 169]
  ∧ trace honest
    = [EImportKey [0; 1; 2; 3; 4; 5];
       EVerify () [0; 1; 2] [195; 131; 194; 169] (Some false)]
  ∧ body honest = [Parsed (integrity_message Runtime1.rt)]
  ∧ trace reencoded
    = [EImportKey [0; 1; 2; 3; 4; 5];
       EVerify () [0; 1; 2] [195; 131; 194; 169] (Some true);
       ECompile [195; 169] {[ str "user" := VStr (str "Scholar") ]}]
  ∧ body reencoded = [Parsed [195; 169]; note Runtime1.rt].
Proof. repeat split; vm_compute; reflexivity. Qed.

(** ** Base64, from the producer to the consumer *)

Lemma list_ind3 {A} (P : list A → Prop) :
  P [] → (∀ a, P [a]) → (∀ a b, P [a; b]) →
  (∀ a b c l, P l → P (a :: b :: c :: l)) → ∀ l, P l.
Proof.
  intros H0 H1 H2 H3 l.
  assert (∀ n l, (length l ≤ n)%nat → P l) as H.
  { clear l. induction n as [|n IH]; intros l Hl.
    - destruct l; [done|simpl in Hl; lia].
    - destruct l as [|a [|b [|c l]]]; try done.
      apply H3, IH. simpl in Hl. lia. }
  by apply (H (length l)).
Qed.


Lemma forallb_below (P : N → bool) (n : nat) :
  forallb P (map N.of_nat (seq 0 n)) = true →
  ∀ v, v < N.of_nat n → P v = true.
Proof.
  rewrite forallb_forall. intros H v Hv. apply H, in_map_iff.
  exists (N.to_nat v). split; [lia|]. apply in_seq. lia.
Qed.

Lemma b64_value_char v : v < 64 → b64_value (b64_char v) = Some v.
Proof.
  intros Hv.
  assert (forallb (λ v, bool_decide (b64_value (b64_char v) = Some v))
            (map N.of_nat (seq 0 64)) = true) as H
    by (vm_compute; reflexivity).
  apply (forallb_below _ _ H) in Hv. by apply bool_decide_eq_true in Hv.
Qed.

Lemma sextets_of_octets a b c :
  a < 256 → b < 256 → c < 256 →
  a / 4 < 64 ∧ (a mod 4) * 16 + b / 16 < 64 ∧ (b mod 16) * 4 + c / 64 < 64
  ∧ c mod 64 < 64 ∧ (a mod 4) * 16 < 64 ∧ (b mod 16) * 4 < 64.
Proof. intros. repeat split; zify; Z.to_euclidean_division_equations; lia. Qed.

Lemma octets_of_sextets a b c :
  a < 256 → b < 256 → c < 256 →
  (a / 4) * 4 + ((a mod 4) * 16 + b / 16) / 16 = a
  ∧ (((a mod 4) * 16 + b / 16) mod 16) * 16 + ((b mod 16) * 4 + c / 64) / 4 = b
  ∧ (((b mod 16) * 4 + c / 64) mod 4) * 64 + c mod 64 = c
  ∧ (a / 4) * 4 + ((a mod 4) * 16) / 16 = a
  ∧ (((a mod 4) * 16 + b / 16) mod 16) * 16 + ((b mod 16) * 4) / 4 = b.
Proof. intros. repeat split; zify; Z.to_euclidean_division_equations; lia. Qed.

Ltac euclid := zify; Z.to_euclidean_division_equations; lia.

Lemma whitespace_not_b64 x : is_ascii_whitespace x = true → b64_value x = None.
Proof.
  unfold is_ascii_whitespace. rewrite !orb_true_iff, !N.eqb_eq.
  intros [[[[->| ->]| ->]| ->]| ->]; reflexivity.
Qed.

Lemma b64_values_Forall d vs :
  b64_values d = Some vs → Forall (λ x, is_Some (b64_value x)) d.
Proof.
  revert vs. induction d as [|x d IH]; intros vs; simpl; [constructor|].
  destruct (b64_value x) as [v|] eqn:Hv; [|done].
  destruct (b64_values d) as [vs'|]; [|done]. intros _.
  constructor; [by eexists|by eapply IH].
Qed.

Lemma b64_values_app d1 d2 vs1 vs2 :
  b64_values d1 = Some vs1 → b64_values d2 = Some vs2 →
  b64_values (d1 ++ d2) = Some (vs1 ++ vs2).
Proof.
  revert vs1. induction d1 as [|x d1 IH]; intros vs1; simpl.
  - by intros [= <-].
  - destruct (b64_value x) as [v|]; [|done].
    destruct (b64_values d1) as [vs'|]; [|done]. intros [= <-] H2.
    by rewrite (IH vs' eq_refl H2).
Qed.

Lemma not_pad_match {A} (x : N) (l : jsstring)
    (a b : jsstring → A) (c : A) :
  x ≠ 61 →
  match x :: l with
  | 61 :: 61 :: d' => a d'
  | 61 :: d' => b d'
  | _ => c
  end = c.
Proof.
  intros Hx. destruct x as [|p]; [done|].
  do 6 (destruct p as [p|p|]; try done).
Qed.

Lemma strip_padding_none d :
  last d ≠ Some 61 → strip_padding d = d.
Proof.
  intros Hl. unfold strip_padding. destruct (_ =? 0)%nat; [|done].
  destruct (rev d) as [|x l] eqn:E; [done|].
  apply not_pad_match. intros ->.
  apply (f_equal (@rev N)) in E. rewrite rev_involutive in E. subst d.
  simpl in Hl. by rewrite last_snoc in Hl.
Qed.

Lemma strip_padding_one d :
  last d ≠ Some 61 → Nat.modulo (length (d ++ [61])) 4 = 0%nat →
  strip_padding (d ++ [61]) = d.
Proof.
  intros Hl Hn. unfold strip_padding. rewrite Hn. simpl.
  rewrite rev_app_distr. simpl.
  destruct (rev d) as [|x l] eqn:E.
  - apply (f_equal (@rev N)) in E. by rewrite rev_involutive in E.
  - assert (x ≠ 61) as Hx.
    { intros ->. apply (f_equal (@rev N)) in E. rewrite rev_involutive in E.
      subst d. simpl in Hl. by rewrite last_snoc in Hl. }
    destruct x as [|p]; [by rewrite <- E, rev_involutive|].
    do 6 (destruct p as [p|p|]; try (by rewrite <- E, rev_involutive)).
    done.
Qed.

Lemma strip_padding_two d :
  Nat.modulo (length (d ++ [61; 61])) 4 = 0%nat →
  strip_padding (d ++ [61; 61]) = d.
Proof.
  intros Hn. unfold strip_padding. rewrite Hn. simpl.
  rewrite rev_app_distr. simpl. apply rev_involutive.
Qed.

Lemma filter_all {A} (P : A → Prop) `{∀ x, Decision (P x)} (l : list A) :
  Forall P l → filter P l = l.
Proof.
  induction 1 as [|x l Hx _ IH]; [done|]. by rewrite filter_cons_True, IH.
Qed.

Lemma toString_base64_length buf :
  Nat.modulo (length (toString_base64 buf)) 4 = 0%nat.
Proof.
  induction buf as [| | |a b c buf IH] using list_ind3; try reflexivity.
  cbn [toString_base64 length].
  change (S (S (S (S (length (toString_base64 buf))))))
    with (4 + length (toString_base64 buf))%nat.
  replace (4 + length (toString_base64 buf))%nat
    with (length (toString_base64 buf) + 1 * 4)%nat by lia.
  by rewrite Nat.Div0.mod_add.
Qed.

(** The text [toString('base64')] writes is a run of alphabet characters,
    whose sextets give back the octets, and the padding. *)
Lemma toString_base64_parts buf :
  is_bytes buf = true →
  ∃ body pad vs,
    toString_base64 buf = body ++ pad
    ∧ (pad = [] ∨ pad = [61] ∨ pad = [61; 61])
    ∧ b64_values body = Some vs ∧ b64_octets vs = buf.
Proof.
  unfold is_bytes.
  induction buf as [|a|a b|a b c buf IH] using list_ind3; cbn [forallb];
    rewrite ?andb_true_iff, ?N.ltb_lt.
  - intros _. exists [], [], []. auto.
  - intros [Ha _].
    destruct (sextets_of_octets a 0 0) as (S1 & _ & _ & _ & S2 & _);
      [lia..|].
    destruct (octets_of_sextets a 0 0) as (_ & _ & _ & O1 & _); [lia..|].
    exists [b64_char (a / 4); b64_char ((a mod 4) * 16)], [61; 61],
      [a / 4; (a mod 4) * 16].
    split; [done|]. split; [auto|]. cbn [b64_values b64_octets].
    by rewrite !b64_value_char, O1.
  - intros (Ha & Hb & _).
    destruct (sextets_of_octets a b 0) as (S1 & S2 & _ & _ & _ & S3);
      [lia..|].
    destruct (octets_of_sextets a b 0) as (O1 & _ & _ & _ & O2); [lia..|].
    exists [b64_char (a / 4); b64_char ((a mod 4) * 16 + b / 16);
            b64_char ((b mod 16) * 4)], [61],
      [a / 4; (a mod 4) * 16 + b / 16; (b mod 16) * 4].
    split; [done|]. split; [auto|]. cbn [b64_values b64_octets].
    by rewrite !b64_value_char, O1, O2.
  - intros (Ha & Hb & Hc & Hbuf).
    destruct (IH Hbuf) as (body & pad & vs & E & Hpad & Hvs & Ho).
    destruct (sextets_of_octets a b c) as (S1 & S2 & S3 & S4 & _); [lia..|].
    destruct (octets_of_sextets a b c) as (O1 & O2 & O3 & _); [lia..|].
    exists ([b64_char (a / 4); b64_char ((a mod 4) * 16 + b / 16);
             b64_char ((b mod 16) * 4 + c / 64); b64_char (c mod 64)] ++ body),
      pad,
      ([a / 4; (a mod 4) * 16 + b / 16; (b mod 16) * 4 + c / 64; c mod 64]
         ++ vs).
    split; [cbn [toString_base64]; by rewrite E|]. split; [done|]. split.
    + apply b64_values_app; [|done]. cbn [b64_values].
      by rewrite !b64_value_char.
    + cbn [app b64_octets]. by rewrite O1, O2, O3, Ho.
Qed.

Lemma b64_body_no_whitespace body vs :
  b64_values body = Some vs →
  Forall (λ x, negb (is_ascii_whitespace x)) body ∧ last body ≠ Some 61.
Proof.
  intros H%b64_values_Forall. split.
  - eapply Forall_impl; [exact H|]. intros x [v Hv]. simpl.
    destruct (is_ascii_whitespace x) eqn:Hw; [|done].
    apply whitespace_not_b64 in Hw. congruence.
  - intros Hl. apply last_Some_elem_of in Hl.
    rewrite Forall_forall in H. by destruct (H 61 Hl).
Qed.

Lemma mod4_pad (n p : nat) :
  (p ≤ 2)%nat → Nat.modulo (n + p) 4 = 0%nat → Nat.modulo n 4 ≠ 1%nat.
Proof.
  intros Hp. rewrite Nat.Div0.add_mod.
  pose proof (Nat.mod_upper_bound n 4 ltac:(lia)) as Hm. revert Hm.
  generalize (Nat.modulo n 4). intros m Hm.
  destruct p as [|[|[|p]]]; [| | |lia];
    destruct m as [|[|[|[|m]]]]; try lia; simpl; lia.
Qed.

Lemma atob_toString_base64 buf :
  is_bytes buf = true → atob (toString_base64 buf) = Some buf.
Proof.
  intros Hb.
  destruct (toString_base64_parts buf Hb)
    as (body & pad & vs & E & Hpad & Hvs & Ho).
  pose proof (toString_base64_length buf) as Hlen. rewrite E in Hlen.
  destruct (b64_body_no_whitespace body vs Hvs) as [Hws Hlast].
  unfold atob. rewrite E.
  rewrite filter_all.
  2:{ apply Forall_app. split; [done|].
      destruct Hpad as [->|[->| ->]]; repeat constructor. }
  assert (strip_padding (body ++ pad) = body) as ->.
  { destruct Hpad as [->|[->| ->]].
    - rewrite app_nil_r. by apply strip_padding_none.
    - by apply strip_padding_one.
    - by apply strip_padding_two. }
  assert (Nat.modulo (length body) 4 ≠ 1%nat) as Hm.
  { rewrite length_app in Hlen. apply (mod4_pad _ (length pad)); [|done].
    destruct Hpad as [->|[->| ->]]; simpl; lia. }
  apply Nat.eqb_neq in Hm. rewrite Hm, Hvs. simpl. by rewrite Ho.
Qed.

Lemma char_codes_bytes s : is_bytes s = true → char_codes s = s.
Proof.
  unfold is_bytes, char_codes. induction s as [|c s IH]; [done|].
  cbn [forallb map]. intros [Hc Hs]%andb_prop. apply N.ltb_lt in Hc.
  by rewrite IH, N.mod_small.
Qed.

Lemma char_codes_is_bytes s : is_bytes (char_codes s) = true.
Proof.
  unfold is_bytes, char_codes. induction s as [|c s IH]; [done|].
  cbn [forallb map]. rewrite IH, andb_true_r. apply N.ltb_lt.
  by apply N.mod_lt.
Qed.

(** The encoder writes bytes. *)
Lemma TextEncoder_bytes s :
  is_utf16 s = true → is_bytes (TextEncoder_encode s) = true.
Proof.
  unfold is_utf16, is_bytes.
  assert (∀ n s, (length s ≤ n)%nat → forallb (λ c, c <? 65536) s = true →
                 forallb (λ c, c <? 256) (TextEncoder_encode s) = true) as H.
  { clear s. induction n as [|n IH]; intros s Hn.
    - destruct s; [done|simpl in Hn; lia].
    - destruct s as [|c s]; [done|]. cbn [forallb TextEncoder_encode].
      simpl in Hn. intros [Hc Hs]%andb_prop. apply N.ltb_lt in Hc.
      destruct (c <? 128) eqn:H1.
      { cbn [forallb]. rewrite IH by (done || lia). rewrite andb_true_r.
        apply N.ltb_lt. apply N.ltb_lt in H1. lia. }
      destruct (c <? 2048) eqn:H2.
      { cbn [forallb]. rewrite IH by (done || lia). apply N.ltb_lt in H2.
        rewrite !andb_true_iff, !N.ltb_lt. repeat split; euclid. }
      destruct (is_high_surrogate c) eqn:H3.
      { unfold is_high_surrogate in H3.
        apply andb_prop in H3 as [H3 H3']. apply N.leb_le in H3.
        apply N.ltb_lt in H3'.
        destruct s as [|d s]; [done|]. cbn [forallb] in Hs.
        apply andb_prop in Hs as [Hd Hs]. apply N.ltb_lt in Hd.
        destruct (is_low_surrogate d) eqn:H4.
        - unfold is_low_surrogate in H4.
          apply andb_prop in H4 as [H4 H4']. apply N.leb_le in H4.
          apply N.ltb_lt in H4'. cbn [forallb].
          rewrite IH by (done || simpl in Hn; lia).
          rewrite !andb_true_iff, !N.ltb_lt. repeat split; euclid.
        - cbn [forallb]. rewrite IH; [done|simpl in *; lia|].
          cbn [forallb]. rewrite Hs, andb_true_r. by apply N.ltb_lt. }
      destruct (is_low_surrogate c) eqn:H4.
      { cbn [forallb]. by rewrite IH by (done || lia). }
      cbn [forallb]. rewrite IH by (done || lia).
      rewrite !andb_true_iff, !N.ltb_lt. repeat split; euclid. }
  by apply (H (length s)).
Qed.

Lemma whitespace_is_space x : is_b64_text x = true → is_space x = false.
Proof.
  unfold is_b64_text. destruct (b64_value x) as [v|] eqn:Hv.
  - intros _. revert Hv. unfold b64_value, is_space.
    repeat match goal with
           | |- context [if ?b then _ else _] => destruct b eqn:?
           end; try done; intros _;
    repeat match goal with
           | H : (_ && _) = true |- _ => apply andb_prop in H as [? ?]
           | H : (_ <=? _) = true |- _ => apply N.leb_le in H
           | H : (_ =? _) = true |- _ => apply N.eqb_eq in H
           end;
    repeat rewrite ?orb_false_iff, ?andb_false_iff, ?N.eqb_neq, ?N.leb_gt;
    repeat split; lia.
  - intros ->%N.eqb_eq. reflexivity.
Qed.

Lemma b64_char_text v : is_b64_text (b64_char v) = true.
Proof.
  unfold is_b64_text. destruct (N.lt_ge_cases v 64) as [Hv|Hv].
  - by rewrite b64_value_char.
  - unfold b64_char.
    rewrite (proj2 (N.ltb_ge v 26)), (proj2 (N.ltb_ge v 52)),
      (proj2 (N.ltb_ge v 62)) by lia.
    by rewrite (proj2 (N.eqb_neq v 62)) by lia.
Qed.

Lemma toString_base64_text buf :
  forallb is_b64_text (toString_base64 buf) = true.
Proof.
  induction buf as [| | |a b c buf IH] using list_ind3;
    cbn [toString_base64 forallb]; rewrite ?b64_char_text; done.
Qed.

Section Trim.

Implicit Types (s ws : jsstring).

Lemma trim_start_spaces ws s :
  forallb is_space ws = true → trim_start (ws ++ s) = trim_start s.
Proof.
  induction ws as [|x ws IH]; [done|]. cbn [forallb app trim_start].
  intros [-> Hws]%andb_prop. by apply IH.
Qed.

Lemma trim_start_all_spaces ws :
  forallb is_space ws = true → trim_start ws = [].
Proof.
  intros H. rewrite <- (app_nil_r ws). by rewrite trim_start_spaces.
Qed.

Lemma trim_start_nil s : trim_start s = [] → forallb is_space s = true.
Proof.
  induction s as [|x s IH]; [done|]. cbn [trim_start forallb].
  destruct (is_space x); [exact IH|done].
Qed.

Lemma trim_start_app s ws :
  trim_start s ≠ [] → trim_start (s ++ ws) = trim_start s ++ ws.
Proof.
  induction s as [|x s IH]; [done|]. cbn [trim_start app].
  destruct (is_space x); [exact IH|done].
Qed.

Lemma forallb_rev {A} (P : A → bool) (l : list A) :
  forallb P (rev l) = forallb P l.
Proof.
  induction l as [|x l IH]; [done|]. simpl.
  rewrite forallb_app, IH. simpl. rewrite andb_true_r. apply andb_comm.
Qed.

(** Whitespace around a text does not show behind [trim]. *)
Lemma trim_pad ws1 s ws2 :
  forallb is_space ws1 = true → forallb is_space ws2 = true →
  trim (ws1 ++ s ++ ws2) = trim s.
Proof.
  intros H1 H2. unfold trim. rewrite trim_start_spaces by done.
  destruct (trim_start s) as [|x t] eqn:E.
  - apply trim_start_nil in E.
    rewrite (trim_start_all_spaces (s ++ ws2)); [done|].
    by rewrite forallb_app, E, H2.
  - rewrite trim_start_app by (by rewrite E). rewrite E, rev_app_distr.
    by rewrite trim_start_spaces by (by rewrite forallb_rev).
Qed.

Lemma trim_start_head s :
  (∀ x, head s = Some x → is_space x = false) → trim_start s = s.
Proof.
  destruct s as [|x s]; [done|]. intros H. cbn [trim_start].
  by rewrite (H x eq_refl).
Qed.

(** A text that neither begins nor ends with whitespace is its own trim. *)
Lemma trim_no_space s :
  forallb (λ x, negb (is_space x)) s = true → trim s = s.
Proof.
  intros H. unfold trim.
  assert (∀ l, forallb (λ x, negb (is_space x)) l = true →
               trim_start l = l) as Hid.
  { intros l Hl. apply trim_start_head. destruct l as [|y l]; [done|].
    intros x [= <-]. cbn [forallb] in Hl.
    apply andb_prop in Hl as [Hy _]. by apply negb_true_iff in Hy. }
  rewrite (Hid s H), Hid by (by rewrite forallb_rev). apply rev_involutive.
Qed.

Lemma trim_b64_text s : forallb is_b64_text s = true → trim s = s.
Proof.
  intros H. apply trim_no_space. eapply forallb_impl; [|exact H].
  intros x Hx. simpl. by rewrite (whitespace_is_space x Hx).
Qed.

End Trim.

(** X1: [atob] undoes [toString('base64')]: the text the producer writes
    for a buffer of bytes decodes in the consumer to those very bytes; and
    read the way [pemToArrayBuffer] and [verifySignature] read it --
    decoded, then stored code by code into a [Uint8Array] -- the text,
    trimmed, gives the same byte array. *)
Theorem base64_round_trip (buf : list N) :
  is_bytes buf = true →
  atob (toString_base64 buf) = Some buf
  ∧ option_map char_codes (atob (trim (toString_base64 buf))) = Some buf.
Proof.
  intros Hb. rewrite trim_b64_text by apply toString_base64_text.
  rewrite atob_toString_base64 by done. split; [done|].
  simpl. by rewrite char_codes_bytes.
Qed.

Lemma base64_round_trip_witness :
  toString_base64 [72; 105; 255] = str "SGn/"
  ∧ atob (str "SGn/") = Some [72; 105; 255].
Proof.
  pose proof (base64_round_trip [72; 105; 255] ltac:(vm_compute; reflexivity))
    as (H & _).
  split; [vm_compute; reflexivity|exact H].
Defined.

Lemma base64_text_inert (buf : list N) :
  let text := toString_base64 buf in
  forallb is_b64_text text = true
  ∧ free_of 60 text = true
  ∧ forallb (λ x, negb (is_space x)) text = true
  ∧ trim text = text
  ∧ Nat.modulo (length text) 4 = 0%nat.
Proof.
  intros text. subst text.
  pose proof (toString_base64_text buf) as H.
  split; [done|]. split; [|split; [|split]].
  - eapply forallb_impl; [|exact H]. intros x Hx. simpl.
    apply negb_true_iff, N.eqb_neq. intros ->. done.
  - eapply forallb_impl; [|exact H]. intros x Hx. simpl.
    by rewrite (whitespace_is_space x Hx).
  - by apply trim_b64_text.
  - apply toString_base64_length.
Qed.

(** X2: the payload and the signature that [buildShell] splices into
    its script elements are base64 text, whatever the source and whatever
    the signing primitive returns: alphabet characters and [=] only, hence
    no [<] that could close the element early and no whitespace, so that
    [trim] in the runtime leaves them as they are; their length is a
    multiple of four. *)
Theorem shell_texts_are_inert
    (rsa_sha256_sign : jsstring → list N → list N)
    (PRIVATE_PEM floSource : jsstring) :
  let floB64 := shell_payload floSource in
  let signatureBase64 := shell_signature rsa_sha256_sign PRIVATE_PEM floSource in
  (forallb is_b64_text floB64 = true
   ∧ free_of 60 floB64 = true
   ∧ forallb (λ x, negb (is_space x)) floB64 = true
   ∧ trim floB64 = floB64
   ∧ Nat.modulo (length floB64) 4 = 0%nat)
  ∧ (forallb is_b64_text signatureBase64 = true
     ∧ free_of 60 signatureBase64 = true
     ∧ forallb (λ x, negb (is_space x)) signatureBase64 = true
     ∧ trim signatureBase64 = signatureBase64
     ∧ Nat.modulo (length signatureBase64) 4 = 0%nat).
Proof. split; apply base64_text_inert. Qed.

(** ** More on the runs of the consumer *)

Section Runs.

Context {key : Type}.
Variable subtle_importKey : list N → option key.
Variable subtle_verify : key → list N → list N → option bool.

Implicit Types (rt : runtime) (doc : document) (shell : list node).

Ltac run_main :=
  unfold load, classify, main, try_catch, verifySignature, importPublicKey,
    pemToArrayBuffer, clientCompile, atob_, emit, set_innerHTML,
    appendChildren, throw, mbind, mret, M_bind, M_ret;
  cbn [fst snd body trace app negb flo_payload flo_signature flo_public_pem].

Ltac run_cases p s k :=
  run_main;
  destruct (atob (trim p)) as [floSource|] eqn:Hsrc;
    [destruct (atob (pem_b64 (trim k))) as [der|] eqn:Hder;
       [cbn [body trace app];
        destruct (subtle_importKey (char_codes der)) as [publicKey|] eqn:Hkey;
          [destruct (atob (trim s)) as [sig|] eqn:Hsig;
             [cbn [body trace app];
              destruct (subtle_verify publicKey (char_codes sig)
                          (TextEncoder_encode floSource)) as [[|]|] eqn:Hok| ]
          | ]
       | ]
    | ];
  cbn [body trace app negb fst snd].

(** X3: whitespace before and behind the text of the payload, the
    signature and the key element does not change the run: the runtime
    trims each of the three before it uses it. *)
Theorem whitespace_around_elements_is_ignored
    rt (p s k ws1 ws2 ws3 ws4 ws5 ws6 : jsstring) shell :
  forallb is_space (ws1 ++ ws2 ++ ws3 ++ ws4 ++ ws5 ++ ws6) = true →
  load subtle_importKey subtle_verify rt
    {| flo_payload := Some (ws1 ++ p ++ ws2);
       flo_signature := Some (ws3 ++ s ++ ws4);
       flo_public_pem := Some (ws5 ++ k ++ ws6) |} shell
  = load subtle_importKey subtle_verify rt
      {| flo_payload := Some p; flo_signature := Some s;
         flo_public_pem := Some k |} shell.
Proof.
  rewrite !forallb_app, !andb_true_iff. intros (H1 & H2 & H3 & H4 & H5 & H6).
  unfold load, main.
  cbn [flo_payload flo_signature flo_public_pem]. by rewrite !trim_pad.
Qed.

(** X4: whatever the body of the page held before the run, it is gone
    after it: every exit of the runtime -- the three error texts and the
    rendering -- overwrites the body, so that a run from any page is the run
    from the empty page. *)
Theorem every_exit_replaces_the_page rt doc shell :
  load subtle_importKey subtle_verify rt doc shell
  = load subtle_importKey subtle_verify rt doc [].
Proof.
  destruct doc as [[p|] [s|] [k|]]; try reflexivity.
  run_cases p s k; reflexivity.
Qed.

(** X5: the order of the checks behind the missing-input guard, read
    off the trace.  The payload is decoded first: when it is not base64
    nothing but the error is logged.  The key is decoded next, then
    imported; the signature is decoded only after the import, so a
    signature that is not base64 is found after the key has been imported;
    the verification call comes last, and a mismatch is the only failure
    that logs nothing. *)
Theorem failure_traces rt (p s k : jsstring) shell :
  let doc := {| flo_payload := Some p; flo_signature := Some s;
                flo_public_pem := Some k |} in
  let w := load subtle_importKey subtle_verify rt doc shell in
  (atob (trim p) = None →
   trace w = [EConsoleError InvalidCharacterError])
  ∧ (∀ floSource, atob (trim p) = Some floSource →
       (atob (pem_b64 (trim k)) = None →
        trace w = [EConsoleError InvalidCharacterError])
       ∧ ∀ der, atob (pem_b64 (trim k)) = Some der →
           let spki := char_codes der in
           (subtle_importKey spki = None →
            trace w = [EImportKey spki; EConsoleError ImportKeyRejected])
           ∧ ∀ publicKey, subtle_importKey spki = Some publicKey →
               (atob (trim s) = None →
                trace w = [EImportKey spki;
                           EConsoleError InvalidCharacterError])
               ∧ ∀ sig, atob (trim s) = Some sig →
                   let data := TextEncoder_encode floSource in
                   (subtle_verify publicKey (char_codes sig) data = None →
                    trace w = [EImportKey spki;
                               EVerify publicKey (char_codes sig) data None;
                               EConsoleError VerifyRejected])
                   ∧ (subtle_verify publicKey (char_codes sig) data
                      = Some false →
                      trace w = [EImportKey spki;
                                 EVerify publicKey (char_codes sig) data
                                   (Some false)])).
Proof.
  intros doc w. subst doc w.
  split; [|intros floSource Hsrc; split;
           [|intros der Hder spki; subst spki; split;
             [|intros publicKey Hkey; split;
               [|intros sig Hsig data; subst data; split]]]];
    intros H; run_main;
    repeat match goal with
           | E : _ = _ |- _ => rewrite E; cbn [body trace app negb fst snd]
           end; reflexivity.
Qed.

(** X6: the console is written to exactly in the runs that end in the
    [catch] clause -- malformed input or a rejected verification call.  A
    missing element, a signature mismatch and a rendered page log
    nothing. *)
Theorem console_error_exactly_on_exceptions rt doc shell :
  existsb is_console_error
    (trace (load subtle_importKey subtle_verify rt doc shell))
  = match classify subtle_importKey subtle_verify doc with
    | Failed MalformedInput | Failed CryptoFault => true
    | _ => false
    end.
Proof.
  destruct doc as [[p|] [s|] [k|]]; try reflexivity.
  run_cases p s k; reflexivity.
Qed.

(** X7: every array the runtime hands to the cryptographic facility --
    the key material for [importKey], the signature and the data for
    [verify] -- holds bytes, values below 256, whatever the three elements
    hold. *)
Theorem crypto_receives_bytes rt doc shell :
  forallb carries_bytes
    (trace (load subtle_importKey subtle_verify rt doc shell)) = true.
Proof.
  destruct doc as [[p|] [s|] [k|]]; try reflexivity.
  run_cases p s k; cbn [forallb carries_bytes];
    rewrite ?char_codes_is_bytes; try reflexivity;
    rewrite TextEncoder_bytes; try reflexivity;
    apply atob_latin1 in Hsrc; (eapply forallb_impl; [|exact Hsrc]);
    intros c Hc; simpl in *; apply N.ltb_lt; apply N.ltb_lt in Hc; lia.
Qed.

(** X24: a run is one pass through the protocol.  Its trace is at most
    one key import, then at most one verification, then at most one
    compilation, then at most one logged error, in this order; there is no
    verification without the import before it, no compilation without the
    verification before it, and nothing is logged after a compilation. *)
Theorem run_is_one_pass_through_the_protocol rt doc shell :
  ∃ imports verifications compilations errors,
    trace (load subtle_importKey subtle_verify rt doc shell)
    = imports ++ verifications ++ compilations ++ errors
    ∧ forallb is_import imports = true
    ∧ forallb is_verify verifications = true
    ∧ forallb is_compile compilations = true
    ∧ forallb is_console_error errors = true
    ∧ (length imports ≤ 1 ∧ length verifications ≤ 1
       ∧ length compilations ≤ 1 ∧ length errors ≤ 1)%nat
    ∧ (length verifications ≤ length imports)%nat
    ∧ (length compilations ≤ length verifications)%nat
    ∧ (length compilations + length errors ≤ 1)%nat.
Proof.
  destruct doc as [[p|] [s|] [k|]];
    try (exists [], [], [], []; repeat split; cbn; lia).
  run_cases p s k;
    first
      [ solve [eexists [], [], [], [_]; repeat split; cbn; lia]
      | solve [eexists [_], [], [], [_]; repeat split; cbn; lia]
      | solve [eexists [_], [_], [], []; repeat split; cbn; lia]
      | solve [eexists [_], [_], [], [_]; repeat split; cbn; lia]
      | solve [eexists [_], [_], [_], []; repeat split; cbn; lia] ].
Qed.

End Runs.

Lemma whitespace_around_elements_is_ignored_witness :
  load import_any (valid_on (str "Hi {{user}}")) Runtime12.rt
    {| flo_payload := Some ([10; 32] ++ str "SGkge3t1c2VyfX0=" ++ [10]);
       flo_signature := Some ([] ++ str "AAEC" ++ [32]);
       flo_public_pem := Some ([10] ++ sample_pem ++ [10]) |} []
  = load import_any (valid_on (str "Hi {{user}}")) Runtime12.rt greeting_doc [].
Proof.
  exact (whitespace_around_elements_is_ignored import_any
           (valid_on (str "Hi {{user}}")) Runtime12.rt
           (str "SGkge3t1c2VyfX0=") (str "AAEC") sample_pem
           [10; 32] [10] [] [32] [10] [10] []
           ltac:(vm_compute; reflexivity)).
Defined.

(** ** The revisions render what the producer compiles *)

Lemma scholar_context :
  ({[ str "user" := VStr (str "Scholar") ]} : gmap jsstring jsval)
  = VStr <$> {[ str "user" := str "Scholar" ]}.
Proof. by rewrite map_fmap_singleton. Qed.

(** On string bindings each consumer-side compiler returns what the
    producer-side compiler returns. *)
Lemma consumers_compile_as_producer {js : engine} (src : jsstring)
    (bindings : gmap jsstring jsstring) :
  Runtime1.clientCompileFLO src (VStr <$> bindings)
  = Server.compileFLOtoHTML src (VStr <$> bindings)
  ∧ Runtime12.clientCompileFLO src (VStr <$> bindings)
    = Server.compileFLOtoHTML src (VStr <$> bindings)
  ∧ Runtime123.clientCompileFLO src (VStr <$> bindings)
    = Server.compileFLOtoHTML src (VStr <$> bindings).
Proof.
  rewrite Runtime1_passes, Runtime12_passes, Runtime123_passes, Server_passes.
  unfold interpolate, replace_all.
  repeat split; try done; f_equal; apply replace_go_ext; intros w caps;
    apply lookup_var_strings.
Qed.

(** X8: when a run verifies its source, each of the three revisions
    shows the nodes of what the producer-side compiler, run by the same
    engine, makes of that source with [user] bound to [Scholar], followed by
    the note of the revision; the revisions differ in the note only.  The
    same holds of what the producer-side compiler makes of the source on an
    engine of its own, [srv], as long as no placeholder of the source names
    a property of [Object.prototype]. *)
Theorem verified_source_renders_as_producer_compiles {srv js : engine}
    {key : Type}
    (subtle_importKey : list N → option key)
    (subtle_verify : key → list N → list N → option bool)
    (doc : document) (shell : list node) (floSource : jsstring) :
  classify subtle_importKey subtle_verify doc = Verified floSource →
  let context : gmap jsstring jsval := {[ str "user" := VStr (str "Scholar") ]} in
  let rendered rt := body (load subtle_importKey subtle_verify rt doc shell) in
  let shown html rt := parse_nodes html ++ [note rt] in
  (rendered (Runtime1.rt (js:=js))
   = shown (Server.compileFLOtoHTML (js:=js) floSource context) Runtime1.rt
   ∧ rendered (Runtime12.rt (js:=js))
     = shown (Server.compileFLOtoHTML (js:=js) floSource context) Runtime12.rt
   ∧ rendered (Runtime123.rt (js:=js))
     = shown (Server.compileFLOtoHTML (js:=js) floSource context) Runtime123.rt)
  ∧ (Forall (λ v, Object_prototype !! v = None) (placeholder_names floSource) →
     rendered (Runtime1.rt (js:=js))
     = shown (Server.compileFLOtoHTML (js:=srv) floSource context) Runtime1.rt
     ∧ rendered (Runtime12.rt (js:=js))
       = shown (Server.compileFLOtoHTML (js:=srv) floSource context)
           Runtime12.rt
     ∧ rendered (Runtime123.rt (js:=js))
       = shown (Server.compileFLOtoHTML (js:=srv) floSource context)
           Runtime123.rt).
Proof.
  intros Hc context rendered shown. subst context rendered shown. cbv beta.
  rewrite !load_outcome, Hc. unfold presented.
  rewrite scholar_context. split.
  - destruct (consumers_compile_as_producer (js:=js) floSource
                {[ str "user" := str "Scholar" ]}) as (E1 & E12 & E123).
    split; [|split].
    + exact (f_equal (λ h, parse_nodes h ++ [note Runtime1.rt]) E1).
    + exact (f_equal (λ h, parse_nodes h ++ [note Runtime12.rt]) E12).
    + exact (f_equal (λ h, parse_nodes h ++ [note Runtime123.rt]) E123).
  - intros Hnames.
    destruct (compilers_agree_across_engines (srv:=srv) (js:=js) floSource
                {[ str "user" := str "Scholar" ]}) as (E1 & E12 & E123).
    { eapply Forall_impl; [exact Hnames|]. intros v Hv. by right. }
    split; [|split].
    + exact (f_equal (λ h, parse_nodes h ++ [note Runtime1.rt]) E1).
    + exact (f_equal (λ h, parse_nodes h ++ [note Runtime12.rt]) E12).
    + exact (f_equal (λ h, parse_nodes h ++ [note Runtime123.rt]) E123).
Qed.

Lemma verified_source_renders_as_producer_compiles_witness :
  body (load import_any (valid_on (str "Hi {{user}}"))
          (Runtime123.rt (js:=spidermonkey)) greeting_doc [])
  = [Parsed (str "Hi Scholar"); note Runtime123.rt].
Proof.
  pose proof (verified_source_renders_as_producer_compiles
                (srv:=v8) (js:=spidermonkey) import_any
                (valid_on (str "Hi {{user}}")) greeting_doc []
                (str "Hi {{user}}") ltac:(vm_compute; reflexivity))
    as (_ & H).
  destruct (H ltac:(vm_compute; repeat constructor)) as (_ & _ & H').
  etransitivity; [exact H'|]. vm_compute. reflexivity.
Defined.

(** ** From the producer's shell to the consumer's page *)

(** A string with a code unit from 128 on is encoded with a byte from 128
    on. *)
Lemma TextEncoder_non_ascii s :
  is_ascii s = false → existsb (λ c, 128 <=? c) (TextEncoder_encode s) = true.
Proof.
  unfold is_ascii.
  assert (∀ n s, (length s ≤ n)%nat → forallb (λ c, c <? 128) s = false →
                 existsb (λ c, 128 <=? c) (TextEncoder_encode s) = true) as H.
  { clear s. induction n as [|n IH]; intros s Hn.
    - destruct s; [done|simpl in Hn; lia].
    - destruct s as [|c s]; [done|]. cbn [forallb TextEncoder_encode].
      simpl in Hn. destruct (c <? 128) eqn:H1.
      { cbn [andb existsb]. intros Hs. rewrite IH by (done || lia).
        apply orb_true_r. }
      intros _. apply N.ltb_ge in H1.
      destruct (c <? 2048);
        [cbn [existsb]; apply orb_true_iff; left; apply N.leb_le; euclid|].
      destruct (is_high_surrogate c).
      { destruct s as [|d s]; [done|]. by destruct (is_low_surrogate d);
          cbn [existsb]; apply orb_true_iff; left; apply N.leb_le; euclid. }
      destruct (is_low_surrogate c); [done|].
      cbn [existsb]. apply orb_true_iff. left. apply N.leb_le. euclid. }
  by apply (H (length s)).
Qed.

Section EndToEnd.

Variable rsa_sha256_sign : jsstring → list N → list N.
Variable PRIVATE_PEM PUBLIC_PEM : jsstring.
Context {key : Type}.
Variable subtle_importKey : list N → option key.
Variable subtle_verify : key → list N → list N → option bool.

Implicit Types (rt : runtime) (shell : list node) (floSource : jsstring).

Ltac run_main :=
  unfold load, classify, main, try_catch, verifySignature, importPublicKey,
    pemToArrayBuffer, clientCompile, atob_, emit, set_innerHTML,
    appendChildren, throw, mbind, mret, M_bind, M_ret;
  cbn [fst snd body trace app negb flo_payload flo_signature flo_public_pem].

(** What the runtime reads out of a shell: the UTF-8 bytes of the source as
    a binary string, and the bytes of the signature. *)
Lemma shell_payload_decoded floSource :
  is_utf16 floSource = true →
  atob (trim (shell_payload floSource)) = Some (Buffer_from_utf8 floSource).
Proof.
  intros H. unfold shell_payload.
  rewrite trim_b64_text by apply toString_base64_text.
  apply atob_toString_base64. by apply TextEncoder_bytes.
Qed.

Lemma shell_signature_decoded floSource :
  is_bytes (rsa_sha256_sign PRIVATE_PEM (Buffer_from_utf8 floSource)) = true →
  atob (trim (shell_signature rsa_sha256_sign PRIVATE_PEM floSource))
  = Some (rsa_sha256_sign PRIVATE_PEM (Buffer_from_utf8 floSource)).
Proof.
  intros H. unfold shell_signature, signString.
  rewrite trim_b64_text by apply toString_base64_text.
  by apply atob_toString_base64.
Qed.

Lemma is_ascii_utf16 s : is_ascii s = true → is_utf16 s = true.
Proof.
  unfold is_ascii, is_utf16. intros H. eapply forallb_impl; [|exact H].
  intros c Hc. simpl in *. apply N.ltb_lt. apply N.ltb_lt in Hc. lia.
Qed.

(** X9: from the producer to the page.  For a source of ASCII
    characters, the elements [buildShell] writes -- the base64 of the
    source, the base64 of the signature [signString] makes, the public key
    -- load into a run that imports the key, hands [verify] the very
    signature bytes the producer made and the very bytes it signed, and,
    the signature being valid on them, compiles and shows the source. *)
Theorem honest_ascii_shell_is_rendered
    rt floSource (der : jsstring) (publicKey : key) shell :
  let signed := Buffer_from_utf8 floSource in
  let signature := rsa_sha256_sign PRIVATE_PEM signed in
  let context : gmap jsstring jsval :=
    {[ str "user" := VStr (str "Scholar") ]} in
  is_ascii floSource = true →
  is_bytes signature = true →
  atob (pem_b64 (trim PUBLIC_PEM)) = Some der →
  subtle_importKey (char_codes der) = Some publicKey →
  subtle_verify publicKey signature signed = Some true →
  load subtle_importKey subtle_verify rt
    (shell_elements rsa_sha256_sign PRIVATE_PEM PUBLIC_PEM floSource) shell
  = {| body := parse_nodes (compiler rt floSource context) ++ [note rt];
       trace := [EImportKey (char_codes der);
                 EVerify publicKey signature floSource (Some true);
                 ECompile floSource context] |}.
Proof.
  intros signed signature context Ha Hs Hder Hkey Hok.
  subst signed signature context.
  assert (Buffer_from_utf8 floSource = floSource) as E
    by (by apply TextEncoder_ascii).
  unfold shell_elements. run_main.
  rewrite shell_payload_decoded by (by apply is_ascii_utf16).
  rewrite Hder. cbn [body trace app]. rewrite Hkey.
  rewrite shell_signature_decoded by done.
  rewrite (char_codes_bytes _ Hs).
  rewrite E in *. rewrite (TextEncoder_ascii floSource Ha), Hok.
  reflexivity.
Qed.

(** X10: the same shell for a source that holds a character beyond
    ASCII is never rendered, provided a signature is valid on the signed
    bytes only: the runtime encodes the decoded bytes once more before it
    verifies, so that the verification is asked about other bytes than the
    producer signed; the run ends in one of the two error texts and the
    compiler is not reached. *)
Theorem non_ascii_shell_is_never_rendered rt floSource shell :
  let signed := Buffer_from_utf8 floSource in
  let signature := rsa_sha256_sign PRIVATE_PEM signed in
  let doc :=
    shell_elements rsa_sha256_sign PRIVATE_PEM PUBLIC_PEM floSource in
  is_utf16 floSource = true → is_ascii floSource = false →
  is_bytes signature = true →
  (∀ publicKey data,
     subtle_verify publicKey signature data = Some true → data = signed) →
  (∃ f, classify subtle_importKey subtle_verify doc = Failed f
        ∧ f ≠ MissingInput)
  ∧ forallb (λ e, negb (is_compile e))
      (trace (load subtle_importKey subtle_verify rt doc shell)) = true
  ∧ (body (load subtle_importKey subtle_verify rt doc shell)
     = parse_nodes (integrity_message rt)
     ∨ body (load subtle_importKey subtle_verify rt doc shell)
       = parse_nodes (error_message rt)).
Proof.
  intros signed signature doc Hu Ha Hs Hsound. subst signed signature doc.
  assert (∃ f, classify subtle_importKey subtle_verify
                 (shell_elements rsa_sha256_sign PRIVATE_PEM PUBLIC_PEM
                    floSource) = Failed f ∧ f ≠ MissingInput) as (f & Hc & Hf).
  { unfold classify, shell_elements.
    cbn [flo_payload flo_signature flo_public_pem].
    rewrite shell_payload_decoded by done.
    destruct (atob (pem_b64 (trim PUBLIC_PEM))) as [der|]; [|by eexists].
    destruct (subtle_importKey (char_codes der)) as [publicKey|];
      [|by eexists].
    rewrite shell_signature_decoded by done.
    rewrite (char_codes_bytes _ Hs).
    destruct (subtle_verify publicKey _ _) as [[|]|] eqn:Hok;
      [|by eexists..].
    apply Hsound in Hok. exfalso. revert Hok.
    apply TextEncoder_high_byte.
    - pose proof (TextEncoder_bytes floSource Hu) as Hb. exact Hb.
    - by apply TextEncoder_non_ascii. }
  split; [by exists f|]. split.
  - by apply (failed_never_compiles _ _ _ _ _ f).
  - rewrite load_outcome, Hc. destruct f; try done; auto.
Qed.

End EndToEnd.

Lemma non_ascii_shell_is_never_rendered_witness :
  body (load import_any toy_verify Runtime1.rt
          (shell_elements toy_sign (str "secret") sample_pem [233]) [])
  = parse_nodes (integrity_message Runtime1.rt).
Proof.
  assert (∀ (publicKey : unit) data,
            toy_verify publicKey
              (toy_sign (str "secret") (Buffer_from_utf8 [233])) data
            = Some true →
            data = Buffer_from_utf8 [233]) as Hsound.
  { intros k data Hv. unfold toy_verify in Hv. injection Hv as Hv.
    apply bool_decide_eq_true in Hv. by rewrite <- Hv. }
  pose proof (non_ascii_shell_is_never_rendered toy_sign (str "secret")
                sample_pem import_any toy_verify Runtime1.rt [233] []
                ltac:(vm_compute; reflexivity) ltac:(vm_compute; reflexivity)
                ltac:(vm_compute; reflexivity) Hsound) as (_ & _ & [H|H]).
  - exact H.
  - exfalso. vm_compute in H. discriminate H.
Defined.

Lemma honest_ascii_shell_is_rendered_witness :
  body (load import_any toy_verify Runtime1.rt
          (shell_elements toy_sign (str "secret") sample_pem
             (str "Hi {{user}}")) [])
  = [Parsed (str "Hi Scholar"); note Runtime1.rt].
Proof.
  pose proof (honest_ascii_shell_is_rendered toy_sign (str "secret")
                sample_pem import_any toy_verify Runtime1.rt
                (str "Hi {{user}}") [0; 1; 2; 3; 4; 5] () []
                ltac:(vm_compute; reflexivity) ltac:(vm_compute; reflexivity)
                ltac:(vm_compute; reflexivity) ltac:(vm_compute; reflexivity)
                ltac:(vm_compute; reflexivity)) as H.
  rewrite H. vm_compute. reflexivity.
Defined.

(** ** Documents, item by item *)

Section Pieces.

Implicit Types (r : regex) (f : replacer) (p q s rest : jsstring)
  (rules : list (regex * jsstring)).

Lemma dead_free r a p : first_char r = Some a → free_of a p = true → dead r p.
Proof.
  intros Hf. induction p as [|x p IH]; [done|]. cbn [free_of forallb dead].
  intros [Hx Hp]%andb_prop. apply negb_true_iff, N.eqb_neq in Hx.
  split; [|by apply IH]. intros rest. by apply (ms_first_char r a).
Qed.

Lemma dead_app r p q : dead r p → dead r q → dead r (p ++ q).
Proof.
  intros Hp Hq. induction p as [|x p IH]; [done|].
  destruct Hp as [Hx Hp]. split; [|by apply IH].
  intros rest. rewrite <- app_assoc. apply Hx.
Qed.

Lemma replace_all_dead r f p s :
  dead r p → replace_all r f (p ++ s) = p ++ replace_all r f s.
Proof.
  induction p as [|x p IH]; [done|]. intros [Hx Hp].
  cbn [app]. rewrite replace_all_miss by (unfold match_at; by rewrite Hx).
  by rewrite IH.
Qed.

Lemma replace_with_pieces r t a ps ps' :
  first_char r = Some a → Forall2 (step r t) ps ps' →
  replace_with r t (concat ps) = concat ps'.
Proof.
  intros Hf. unfold replace_with.
  induction 1 as [|p p' ps ps' Hp _ IH]; cbn [concat].
  - by apply (replace_all_nil _ _ a).
  - destruct Hp as [p Hd|p caps Hne Hm].
    + by rewrite replace_all_dead, IH.
    + by rewrite (replace_all_match _ _ p _ caps), IH.
Qed.

Lemma evolves_all_cons r t rules ps qs :
  Forall2 (evolves ((r, t) :: rules)) ps qs →
  ∃ ps', Forall2 (step r t) ps ps' ∧ Forall2 (evolves rules) ps' qs.
Proof.
  induction 1 as [|p q ps qs Hp _ (ps' & Hs & He)].
  - exists []. split; constructor.
  - inversion Hp as [|? ? ? ? p' ? Hstep Hev]; subst.
    exists (p' :: ps'). split; by constructor.
Qed.

(** Pieces that evolve on their own evolve side by side. *)
Lemma structural_pieces rules ps qs :
  forallb (λ rule, bool_decide (first_char rule.1 = Some 60)) rules = true →
  Forall2 (evolves rules) ps qs →
  structural rules (concat ps) = concat qs.
Proof.
  revert ps. induction rules as [|[r t] rules IH]; intros ps Hfc Hev.
  - unfold structural. cbn [fold_left].
    induction Hev as [|p q ps qs Hp _ IH']; [done|].
    inversion Hp; subst. cbn [concat]. by rewrite IH'.
  - cbn [forallb] in Hfc. apply andb_prop in Hfc as [Hf Hfc].
    apply bool_decide_eq_true in Hf.
    destruct (evolves_all_cons _ _ _ _ _ Hev) as (ps' & Hs & He).
    rewrite structural_cons, (replace_with_pieces r t 60 ps ps') by done.
    by apply IH.
Qed.

Lemma evolves_dead rules p :
  Forall (λ rule, dead rule.1 p) rules → evolves rules p p.
Proof.
  induction 1 as [|[r t] rules Hd _ IH]; [constructor|].
  econstructor; [by apply step_dead|done].
Qed.

Lemma evolves_app rules1 rules2 p p' q :
  evolves rules1 p p' → evolves rules2 p' q → evolves (rules1 ++ rules2) p q.
Proof.
  induction 1 as [|r t rules p p1 p2 Hs _ IH]; [done|].
  intros H. cbn [app]. econstructor; [done|by apply IH].
Qed.

Lemma clash_strip_prefix (l p rest : jsstring) :
  clash l p = true → strip_prefix l (p ++ rest) = None.
Proof.
  revert p. induction l as [|a l IH]; intros [|x p]; cbn [clash]; try done.
  cbn [app strip_prefix]. destruct (x =? a); [apply IH|done].
Qed.

(** A pattern does not match where the text parts from the literal it
    opens with. *)
Lemma ms_clash r p rest : clash (lit_prefix r) p = true → ms r (p ++ rest) = [].
Proof.
  induction r as [l|c|c|c|r1 IH1 r2 _|r IH]; cbn [lit_prefix]; intros H;
    try (by destruct p).
  - cbn [ms]. by rewrite clash_strip_prefix.
  - cbn [ms]. by rewrite IH1.
  - cbn [ms]. by rewrite IH.
Qed.

(** The rules of the table are dead on markup foreign to it. *)
Lemma dead_foreign p :
  foreign_markup p = true → Forall (λ rule, dead rule.1 p) Server.rules.
Proof.
  intros Hp. apply Forall_forall. intros rule Hin.
  induction p as [|x p IH]; [done|]. cbn [foreign_markup] in Hp.
  apply andb_prop in Hp as [Hx Hp]. split; [|by apply IH].
  intros rest. apply orb_prop in Hx as [Hx|Hx].
  - apply negb_true_iff, N.eqb_neq in Hx.
    apply (ms_first_char _ 60); [|done].
    apply (rules_first_char Server.rules rule rules_open_with_lt).
    by apply list_elem_of_In.
  - rewrite forallb_forall in Hx. apply list_elem_of_In in Hin.
    by apply (ms_clash _ (x :: p)), Hx.
Qed.

(** Text without [<] is foreign markup. *)
Lemma foreign_markup_free p : free_of 60 p = true → foreign_markup p = true.
Proof.
  induction p as [|x p IH]; [done|]. cbn [free_of forallb foreign_markup].
  intros [-> Hp]%andb_prop. by apply IH.
Qed.

(** Rules that fail at the [<] a piece opens with, and find no other [<]
    in it, are dead on the piece. *)
Lemma dead_one_lt rules X :
  forallb (λ rule, bool_decide (first_char rule.1 = Some 60)) rules = true →
  free_of 60 X = true →
  (∀ rest, fail_at rules (60 :: X ++ rest) = true) →
  Forall (λ rule, dead rule.1 (60 :: X)) rules.
Proof.
  intros Hfc HX Hfail. apply Forall_forall. intros rule Hin.
  apply list_elem_of_In in Hin. split.
  - intros rest. by apply (fail_at_In rules).
  - apply (dead_free _ 60); [by apply (rules_first_char rules)|done].
Qed.

End Pieces.

Section Items.

Context {js : engine}.

Implicit Types (f : replacer) (it : item) (items : list item)
  (bindings : gmap jsstring jsstring).

Lemma nonempty_ne (s : jsstring) : nonempty s = true → s ≠ [].
Proof. by destruct s. Qed.

Lemma document_source_cons it items :
  document_source (it :: items) = item_source it ++ document_source items.
Proof. reflexivity. Qed.

(** The interpolation pass works item by item. *)
Lemma interpolate_items f items :
  forallb item_braces_ok items = true →
  interpolate f (document_source items)
  = concat (map (item_interpolated f) items).
Proof.
  unfold interpolate. induction items as [|it items IH].
  - intros _. by apply (replace_all_nil _ _ 123).
  - cbn [forallb]. intros [Hit Hitems]%andb_prop.
    rewrite document_source_cons. cbn [map concat]. rewrite <- (IH Hitems).
    destruct it as [t|ws1 v ws2|tag wrapper|a1 t a2|a1 t a2|href attrs text];
      try (by apply (replace_all_free _ _ 123)).
    cbn [item_braces_ok] in Hit. unfold hole_ok in Hit.
    apply andb_prop in Hit as [[[H1 Hne]%andb_prop Hv]%andb_prop H2].
    apply nonempty_ne in Hne. cbn [item_source item_interpolated].
    change (placeholder ws1 v ws2 ++ document_source items)
      with ([] ++ placeholder ws1 v ws2 ++ document_source items).
    rewrite interpolation_at_placeholder by done.
    by rewrite (replace_all_nil _ _ 123).
Qed.

(** Up to the rule number [i], which rewrites the piece, and from there
    on. *)
Lemma evolves_hit_at i r tmpl X caps W :
  Server.rules !! i = Some (r, tmpl) →
  free_of 60 X = true →
  (∀ rest, fail_at (take i Server.rules) (60 :: X ++ rest) = true) →
  (∀ rest, match_at r ((60 :: X) ++ rest) = Some (rest, caps)) →
  expand tmpl (60 :: X) caps = 60 :: W → free_of 60 W = true →
  (∀ rest, fail_at (drop (S i) Server.rules) (60 :: W ++ rest) = true) →
  evolves Server.rules (60 :: X) (60 :: W).
Proof.
  intros Hi HX Hbefore Hm He HW Hafter.
  rewrite <- (take_drop_middle Server.rules i (r, tmpl) Hi).
  apply (evolves_app _ _ _ (60 :: X)).
  - apply evolves_dead, dead_one_lt;
      [by apply forallb_take, rules_open_with_lt|done..].
  - apply (evolves_cons _ _ _ _ (60 :: W)).
    + rewrite <- He. by apply step_hit.
    + apply evolves_dead, dead_one_lt;
        [by apply forallb_drop, rules_open_with_lt|done..].
Qed.

Ltac free_of_parts :=
  rewrite ?free_of_app;
  repeat match goal with
         | H : plain ?s = true |- context [free_of 60 ?s] =>
             rewrite (plain_lt s H)
         | H : plain ?s = true |- context [free_of 123 ?s] =>
             rewrite (plain_brace s H)
         end;
  reflexivity.

Lemma titled_ok_parts a1 t a2 :
  titled_ok a1 t a2 = true →
  plain a1 = true ∧ plain t = true ∧ plain a2 = true ∧ free_of 62 a1 = true
  ∧ t ≠ [] ∧ free_of 34 t = true ∧ free_of 62 a2 = true
  ∧ occurs title_eq (t ++ dq ++ a2) = false.
Proof.
  unfold titled_ok. rewrite !andb_true_iff, negb_true_iff.
  intros (((((((? & ?) & ?) & ?) & ?%nonempty_ne) & ?) & ?) & ?). done.
Qed.

Lemma page_evolves a1 t a2 :
  titled_ok a1 t a2 = true →
  evolves Server.rules (titled_tag (str "page") a1 t a2) (page_wrapper t).
Proof.
  intros (Ha1 & Ht & Ha2 & Hg1 & Hne & Hq & Hg2 & Hocc)%titled_ok_parts.
  apply (evolves_hit_at 0 page_re page_tmpl
           (str "flo:page" ++ a1 ++ title_eq ++ t ++ dq ++ a2 ++ str ">") [t]
           (str "div class=" ++ dq ++ str "flo-page" ++ dq
              ++ str " data-title=" ++ dq ++ t ++ dq ++ str ">")).
  - reflexivity.
  - free_of_parts.
  - reflexivity.
  - intros rest.
    exact (match_at_titled (str "page") a1 t a2 rest Hg1 Hne Hq Hg2 Hocc).
  - reflexivity.
  - free_of_parts.
  - intros rest. apply fail_at_drop, (fail_at_div _).
Qed.

Lemma card_evolves a1 t a2 :
  titled_ok a1 t a2 = true →
  evolves Server.rules (titled_tag (str "card") a1 t a2) (card_wrapper t).
Proof.
  intros (Ha1 & Ht & Ha2 & Hg1 & Hne & Hq & Hg2 & Hocc)%titled_ok_parts.
  apply (evolves_hit_at 10 card_re card_tmpl
           (str "flo:card" ++ a1 ++ title_eq ++ t ++ dq ++ a2 ++ str ">") [t]
           (str "section class=" ++ dq ++ str "flo-card" ++ dq
              ++ str " data-title=" ++ dq ++ t ++ dq ++ str ">")).
  - reflexivity.
  - free_of_parts.
  - intros rest. apply (fail_before_card _).
  - intros rest.
    exact (match_at_titled (str "card") a1 t a2 rest Hg1 Hne Hq Hg2 Hocc).
  - reflexivity.
  - free_of_parts.
  - intros rest. apply fail_at_drop, (fail_at_section _).
Qed.

Lemma link_evolves href attrs text :
  plain href = true → plain attrs = true → plain text = true →
  href ≠ [] → free_of 34 href = true → free_of 62 attrs = true →
  single_line text = true →
  evolves Server.rules (link_element href attrs text)
    (link_anchor href text).
Proof.
  intros Hh Ha Ht Hne Hq Hg Hl.
  rewrite <- (take_drop_middle Server.rules 14 (link_re, link_tmpl) eq_refl).
  apply (evolves_app _ _ _ (link_element href attrs text)).
  - apply evolves_dead.
    pose proof (dead_one_lt (take 14 Server.rules)
                  (str "flo:link href=" ++ dq ++ href ++ dq ++ attrs
                     ++ str ">" ++ text)
                  (forallb_take _ _ _ rules_open_with_lt)
                  ltac:(free_of_parts)
                  (λ rest, fail_before_link _)) as H1.
    pose proof (dead_one_lt (take 14 Server.rules) (str "/flo:link>")
                  (forallb_take _ _ _ rules_open_with_lt) eq_refl
                  (λ rest, forallb_take _ _ _ (fail_at_link_close rest)))
      as H2.
    rewrite Forall_forall in H1, H2. apply Forall_forall. intros rule Hin.
    assert (link_element href attrs text
            = (60 :: str "flo:link href=" ++ dq ++ href ++ dq ++ attrs
                 ++ str ">" ++ text) ++ 60 :: str "/flo:link>") as ->.
    { unfold link_element, link_open, link_close.
      rewrite <- app_comm_cons, <- !app_assoc. reflexivity. }
    apply dead_app; auto.
  - apply (evolves_cons _ _ _ _ (link_anchor href text)); [|constructor].
    rewrite <- (expand_link_tmpl (link_element href attrs text)).
    apply step_hit.
    + unfold link_element, link_open. by destruct (str "<flo:link href=").
    + intros rest. apply match_at_link; try done. by apply plain_lt.
Qed.

Lemma literal_rules_table :
  literal_rules
  = [ (str "</flo:page>", str "</div>");
      (str "<flo:header>", header_wrapper);
      (str "</flo:header>", str "</header>");
      (str "<flo:nav>",
       str "<nav class=" ++ dq ++ str "flo-nav" ++ dq ++ str ">");
      (str "</flo:nav>", str "</nav>");
      (str "<flo:logo>",
       str "<div class=" ++ dq ++ str "flo-logo" ++ dq ++ str ">");
      (str "</flo:logo>", str "</div>");
      (str "<flo:main>",
       str "<main class=" ++ dq ++ str "flo-main" ++ dq ++ str ">");
      (str "</flo:main>", str "</main>");
      (str "</flo:card>", str "</section>");
      (str "<flo:footer>",
       str "<footer class=" ++ dq ++ str "flo-footer" ++ dq ++ str ">");
      (str "</flo:footer>", str "</footer>") ].
Proof. reflexivity. Qed.

Ltac tag_at i :=
  eapply (evolves_hit_at i);
  [reflexivity|reflexivity|intros rest; reflexivity|intros rest; reflexivity
  |reflexivity|reflexivity|intros rest; reflexivity].

Lemma tag_evolves tag wrapper :
  (tag, wrapper) ∈ literal_rules → evolves Server.rules tag wrapper.
Proof.
  rewrite literal_rules_table. intros H.
  repeat (apply elem_of_cons in H as [[= -> ->]|H]);
    [tag_at 1%nat|tag_at 2%nat|tag_at 3%nat|tag_at 4%nat|tag_at 5%nat
    |tag_at 6%nat|tag_at 7%nat|tag_at 8%nat|tag_at 9%nat|tag_at 11%nat
    |tag_at 12%nat|tag_at 13%nat|by apply elem_of_nil in H].
Qed.

Lemma lookup_string_binding bindings w v :
  Server.lookup_var (VStr <$> bindings) w [v] = hole_text bindings v.
Proof.
  unfold hole_text. destruct (bindings !! v) as [s|] eqn:E.
  - assert ((VStr <$> bindings) !! arg1 [v] = Some (VStr s)) as E'
      by (change (arg1 [v]) with v; by rewrite lookup_fmap, E).
    by destruct (callbacks_on_string _ w [v] s E') as (_ & _ & _ & ->).
  - assert ((VStr <$> bindings) !! arg1 [v] = None) as E'
      by (change (arg1 [v]) with v; by rewrite lookup_fmap, E).
    by destruct (callbacks_on_unbound _ w [v] E') as (_ & _ & _ & ->).
Qed.

Lemma literal_tags_brace_free tag wrapper :
  (tag, wrapper) ∈ literal_rules → free_of 123 tag = true.
Proof.
  rewrite literal_rules_table. intros H.
  repeat (apply elem_of_cons in H as [[= -> ->]|H]); try reflexivity.
  by apply elem_of_nil in H.
Qed.

Lemma item_ok_braces bindings it :
  item_ok bindings it = true → item_braces_ok it = true.
Proof.
  destruct it as [t|ws1 v ws2|tag wrapper|a1 t a2|a1 t a2|href attrs text];
    cbn [item_ok item_braces_ok item_source].
  - by intros [? _]%andb_prop.
  - by intros [? _]%andb_prop.
  - intros H%bool_decide_eq_true. by eapply literal_tags_brace_free.
  - intros (Ha1 & Ht & Ha2 & _)%titled_ok_parts. unfold titled_tag.
    free_of_parts.
  - intros (Ha1 & Ht & Ha2 & _)%titled_ok_parts. unfold titled_tag.
    free_of_parts.
  - rewrite !andb_true_iff. intros ((((((Hh & Ha) & Ht) & _) & _) & _) & _).
    unfold link_element, link_open, link_close. free_of_parts.
Qed.

Lemma item_evolves bindings it :
  item_ok bindings it = true →
  evolves Server.rules
    (item_interpolated (Server.lookup_var (VStr <$> bindings)) it)
    (item_html bindings it).
Proof.
  destruct it as [t|ws1 v ws2|tag wrapper|a1 t a2|a1 t a2|href attrs text];
    cbn [item_ok item_interpolated item_source item_html].
  - intros [_ Ht]%andb_prop. by apply evolves_dead, dead_foreign.
  - intros [_ Hval]%andb_prop. rewrite lookup_string_binding.
    by apply evolves_dead, dead_foreign.
  - intros H%bool_decide_eq_true. by apply tag_evolves.
  - apply page_evolves.
  - apply card_evolves.
  - rewrite !andb_true_iff.
    intros ((((((Hh & Ha) & Ht) & Hne%nonempty_ne) & Hq) & Hg) & Hl).
    by apply link_evolves.
Qed.

(** Both passes work item by item on a document of well-formed items. *)
Lemma document_compiles bindings items :
  forallb (item_ok bindings) items = true →
  structural Server.rules
    (interpolate (Server.lookup_var (VStr <$> bindings))
       (document_source items))
  = document_html bindings items.
Proof.
  intros Hok. rewrite interpolate_items.
  - apply structural_pieces; [apply rules_open_with_lt|].
    apply Forall2_fmap, Forall_Forall2_diag, Forall_forall.
    intros it Hin. apply item_evolves.
    rewrite forallb_forall in Hok. by apply Hok, list_elem_of_In.
  - eapply forallb_impl; [|exact Hok]. intros it. apply item_ok_braces.
Qed.

End Items.

(** X11: a document written from well-formed items -- text without [{]
    whose markup is foreign to the table, the tags of HTML among it;
    placeholders that print such markup, be it the string the bindings hold
    for the name or, for a name they do not hold, the text of what the
    bindings object inherits under it; tags of the literal rules; titled
    [page] and [card] tags; links on one line -- compiles item by item, in
    the producer and in each revision of the consumer run by one engine: the
    output is the markup of the items in their order, however many there are
    and in whatever order they stand. *)
Theorem documents_compile_item_by_item {js : engine}
    (items : list item) (bindings : gmap jsstring jsstring) :
  forallb (item_ok bindings) items = true →
  let context : gmap jsstring jsval := VStr <$> bindings in
  Server.compileFLOtoHTML (document_source items) context
  = document_html bindings items
  ∧ Runtime1.clientCompileFLO (document_source items) context
    = document_html bindings items
  ∧ Runtime12.clientCompileFLO (document_source items) context
    = document_html bindings items
  ∧ Runtime123.clientCompileFLO (document_source items) context
    = document_html bindings items.
Proof.
  intros Hok context. subst context.
  destruct (consumers_compile_as_producer (document_source items) bindings)
    as (E1 & E12 & E123).
  rewrite E1, E12, E123, Server_passes, document_compiles by done. done.
Qed.

Lemma documents_compile_item_by_item_witness :
  Server.compileFLOtoHTML
    (str "<flo:page class=a title=" ++ dq ++ str "Home" ++ dq
       ++ str "><flo:header><h1>Hi {{ user }}</h1></flo:header>"
       ++ str "<flo:link href=" ++ dq ++ str "/docs" ++ dq
       ++ str ">Docs</flo:link>{{valueOf}}</flo:page>")
    {[ str "user" := VStr (str "<b>Ada</b>") ]}
  = page_wrapper (str "Home") ++ header_wrapper
      ++ str "<h1>Hi <b>Ada</b></h1></header>"
      ++ link_anchor (str "/docs") (str "Docs")
      ++ str "function valueOf() { [native code] }</div>".
Proof.
  pose ({[ str "user" := str "<b>Ada</b>" ]} : gmap jsstring jsstring)
    as bindings.
  pose proof (documents_compile_item_by_item (js:=v8)
                [ IPage (str " class=a ") (str "Home") [];
                  ITag header_tag header_wrapper;
                  IText (str "<h1>Hi ");
                  IHole (str " ") (str "user") (str " ");
                  IText (str "</h1>");
                  ITag (str "</flo:header>") (str "</header>");
                  ILink (str "/docs") [] (str "Docs");
                  IHole [] (str "valueOf") [];
                  ITag (str "</flo:page>") (str "</div>") ]
                bindings ltac:(vm_compute; reflexivity)) as (H & _).
  subst bindings. rewrite map_fmap_singleton in H.
  etransitivity; [|etransitivity; [exact H|]]; vm_compute; reflexivity.
Defined.

(** X12: the interpolation pass replaces every placeholder of a
    source, not the first only, and each one by what the callback of the
    compiler returns for its name, for any values in the bindings; the text
    between the placeholders, as long as it holds no [{], is copied. *)
Theorem every_placeholder_is_filled {js : engine}
    (items : list item) (context : gmap jsstring jsval) :
  forallb item_braces_ok items = true →
  interpolate (Server.lookup_var context) (document_source items)
  = concat (map (item_interpolated (Server.lookup_var context)) items)
  ∧ interpolate (Runtime1.lookup_var context) (document_source items)
    = concat (map (item_interpolated (Runtime1.lookup_var context)) items)
  ∧ interpolate (Runtime12.lookup_var context) (document_source items)
    = concat (map (item_interpolated (Runtime12.lookup_var context)) items)
  ∧ interpolate (Runtime123.lookup_var context) (document_source items)
    = concat (map (item_interpolated (Runtime123.lookup_var context)) items).
Proof. intros H. by rewrite !interpolate_items. Qed.

Lemma every_placeholder_is_filled_witness :
  interpolate (Runtime1.lookup_var {[ str "a" := VStr (str "1");
                                      str "b" := VNull ]})
    (str "{{a}}<p>{{ b }}</p>{{a}}{{c}}")
  = str "1<p>null</p>1".
Proof.
  pose ({[ str "a" := VStr (str "1"); str "b" := VNull ]}
          : gmap jsstring jsval) as context.
  pose proof (every_placeholder_is_filled
                [ IHole [] (str "a") []; IText (str "<p>");
                  IHole (str " ") (str "b") (str " "); IText (str "</p>");
                  IHole [] (str "a") []; IHole [] (str "c") [] ]
                context ltac:(vm_compute; reflexivity)) as (_ & H & _).
  subst context.
  etransitivity; [|etransitivity; [exact H|]]; vm_compute; reflexivity.
Defined.

Section Foreign.

Implicit Types (f : replacer) (pre v post : jsstring).





End Foreign.



(** ** The key: PEM armour and base64 *)

Section Pem.

Implicit Types (r : regex) (f : replacer) (s pre rest ws body : jsstring).

Lemma replace_first_match r f s m :
  match_at r s = Some m → replace_first r f s = f (consumed s m.1) m.2 ++ m.1.
Proof. intros H. destruct s; simpl; by rewrite H. Qed.

Lemma replace_first_miss r f x s :
  match_at r (x :: s) = None →
  replace_first r f (x :: s) = x :: replace_first r f s.
Proof. intros H. simpl. by rewrite H. Qed.

Lemma replace_first_free r f a pre s :
  first_char r = Some a → free_of a pre = true →
  replace_first r f (pre ++ s) = pre ++ replace_first r f s.
Proof.
  intros Hf. induction pre as [|x pre IH]; intros Hp; [done|].
  cbn [free_of forallb] in Hp. apply andb_prop in Hp as [Hx Hp].
  apply negb_true_iff, N.eqb_neq in Hx. cbn [app].
  rewrite replace_first_miss.
  - by rewrite IH.
  - unfold match_at. by rewrite (ms_first_char _ a).
Qed.

(** The first occurrence of a literal is cut out, when it begins with a
    character the text before it does not hold. *)
Lemma replace_first_Lit a l pre s :
  free_of a pre = true →
  replace_first (Lit (a :: l)) (expand []) (pre ++ (a :: l) ++ s) = pre ++ s.
Proof.
  intros Hp. rewrite (replace_first_free _ _ a) by done. f_equal.
  by rewrite (replace_first_match _ _ _ (s, []))
    by apply (match_at_Lit (a :: l)).
Qed.

Lemma head_star_greedy c ws rest :
  forallb (cmatch c) ws = true → stops c rest = true →
  head (star_greedy c (ws ++ rest)) = Some rest.
Proof.
  intros Hws Hr. induction ws as [|x ws IH].
  - by rewrite star_greedy_stops.
  - cbn [forallb] in Hws. apply andb_prop in Hws as [Hx Hws].
    cbn [app star_greedy]. rewrite Hx. apply head_app_Some. by apply IH.
Qed.

(** [c+] takes the whole run. *)
Lemma match_at_Plus_run c ws rest :
  ws ≠ [] → forallb (cmatch c) ws = true → stops c rest = true →
  match_at (Plus c) (ws ++ rest) = Some (rest, []).
Proof.
  intros Hne Hws Hr. destruct ws as [|x ws]; [done|].
  cbn [forallb] in Hws. apply andb_prop in Hws as [Hx Hws].
  unfold match_at. cbn [ms app plus_greedy]. rewrite Hx.
  pose proof (head_star_greedy c ws rest Hws Hr) as H.
  destruct (star_greedy c (ws ++ rest)) as [|y l]; [done|].
  by injection H as ->.
Qed.

Lemma run_span c s :
  ∃ ws rest, s = ws ++ rest ∧ forallb (cmatch c) ws = true
             ∧ stops c rest = true.
Proof.
  induction s as [|x s (ws & rest & -> & Hws & Hr)].
  - by exists [], [].
  - destruct (cmatch c x) eqn:Hx.
    + exists (x :: ws), rest. cbn [forallb]. by rewrite Hx, Hws.
    + exists [], (x :: ws ++ rest). cbn [stops]. by rewrite Hx.
Qed.

(** [.replace(/\s+/g, '')] removes the whitespace and nothing else. *)
Lemma remove_whitespace s :
  replace_with (Plus CSpace) [] s = filter (λ x, negb (is_space x)) s.
Proof.
  unfold replace_with.
  assert (∀ n s, (length s ≤ n)%nat →
                 replace_all (Plus CSpace) (expand []) s
                 = filter (λ x, negb (is_space x)) s) as H.
  { clear s. induction n as [|n IH]; intros s Hn.
    - destruct s; [done|simpl in Hn; lia].
    - destruct s as [|x s]; [done|]. simpl in Hn.
      destruct (is_space x) eqn:Hx.
      + destruct (run_span CSpace s) as (ws & rest & -> & Hws & Hr).
        change (x :: ws ++ rest) with ((x :: ws) ++ rest).
        rewrite (replace_all_match _ _ (x :: ws) rest []);
          [|done|apply match_at_Plus_run; [done|cbn; by rewrite Hx|done]].
        rewrite filter_app, IH by (rewrite length_app in Hn; lia).
        cbn [expand app].
        assert (filter (λ x, negb (is_space x)) (x :: ws) = []) as ->; [|done].
        apply elem_of_nil_inv. intros y [Hy Hin]%list_elem_of_filter.
        assert (is_space y = true) as Hs.
        { apply elem_of_cons in Hin as [->|Hin]; [done|].
          cbn in Hws. rewrite forallb_forall in Hws.
          by apply Hws, list_elem_of_In. }
        by rewrite Hs in Hy.
      + rewrite replace_all_miss.
        * rewrite filter_cons_True by (by rewrite Hx). f_equal.
          apply IH. lia.
        * unfold match_at. cbn [ms plus_greedy cmatch]. by rewrite Hx. }
  by apply (H (length s)).
Qed.

(** A block between the armour lines of a public key. *)
Lemma pem_b64_armoured body :
  free_of 45 body = true →
  pem_b64 (str "-----BEGIN PUBLIC KEY-----" ++ body
             ++ str "-----END PUBLIC KEY-----")
  = filter (λ x, negb (is_space x)) body.
Proof.
  intros Hb. unfold pem_b64.
  assert (replace_first (Lit (str "-----BEGIN PUBLIC KEY-----")) (expand [])
            (str "-----BEGIN PUBLIC KEY-----" ++ body
               ++ str "-----END PUBLIC KEY-----")
          = body ++ str "-----END PUBLIC KEY-----") as ->
    by exact (replace_first_Lit 45 (str "----BEGIN PUBLIC KEY-----") []
                (body ++ str "-----END PUBLIC KEY-----") eq_refl).
  assert (replace_first (Lit (str "-----END PUBLIC KEY-----")) (expand [])
            (body ++ str "-----END PUBLIC KEY-----") = body) as ->.
  { pose proof (replace_first_Lit 45 (str "----END PUBLIC KEY-----") body []
                  Hb) as H.
    rewrite !app_nil_r in H. exact H. }
  apply remove_whitespace.
Qed.

End Pem.

Section Foreign64.

Implicit Types (d data s : jsstring) (x : N).

Lemma pad_match_second {A} (y : N) (l : jsstring)
    (a b : jsstring → A) (c : A) :
  y ≠ 61 →
  match 61 :: y :: l with
  | 61 :: 61 :: d' => a d'
  | 61 :: d' => b d'
  | _ => c
  end = b (y :: l).
Proof.
  intros Hy. destruct y as [|p]; [done|].
  do 6 (destruct p as [p|p|]; try done).
Qed.

(** Removing the padding removes nothing but [=]. *)
Lemma elem_of_rev x d : x ∈ rev d ↔ x ∈ d.
Proof. rewrite !list_elem_of_In. symmetry. apply in_rev. Qed.

Lemma strip_padding_keeps x d : x ∈ d → x ≠ 61 → x ∈ strip_padding d.
Proof.
  intros Hin Hx. unfold strip_padding. destruct (_ =? 0)%nat; [|done].
  assert (x ∈ rev d) as Hr by (by apply elem_of_rev).
  destruct (rev d) as [|a l] eqn:E; [done|].
  destruct (decide (a = 61)) as [->|Ha]; [|by rewrite not_pad_match].
  apply elem_of_cons in Hr as [Hr|Hr]; [done|].
  destruct l as [|b l]; [by apply elem_of_nil in Hr|].
  destruct (decide (b = 61)) as [->|Hb].
  - apply elem_of_cons in Hr as [Hr|Hr]; [done|]. by apply elem_of_rev.
  - rewrite pad_match_second by done. by apply elem_of_rev.
Qed.

Lemma b64_values_None x d :
  x ∈ d → b64_value x = None → b64_values d = None.
Proof.
  intros Hin Hx. induction d as [|y d IH]; [by apply elem_of_nil in Hin|].
  cbn [b64_values]. apply elem_of_cons in Hin as [<-|Hin].
  - by rewrite Hx.
  - rewrite (IH Hin). by destruct (b64_value y).
Qed.

(** [atob] throws on any character that is neither of the alphabet, nor
    the padding sign, nor ASCII whitespace. *)
Lemma atob_foreign data x :
  x ∈ data → is_ascii_whitespace x = false → is_b64_text x = false →
  atob data = None.
Proof.
  intros Hin Hw Ht. unfold is_b64_text in Ht.
  destruct (b64_value x) as [v|] eqn:Hv; [done|]. apply N.eqb_neq in Ht.
  unfold atob. destruct (_ =? 1)%nat; [done|].
  rewrite (b64_values_None x); [done| |done].
  apply strip_padding_keeps; [|done].
  apply list_elem_of_filter. split; [|done]. by rewrite Hw.
Qed.

Lemma trim_start_keeps x s :
  x ∈ s → is_space x = false → x ∈ trim_start s.
Proof.
  intros Hin Hx. induction s as [|y s IH]; [done|]. cbn [trim_start].
  destruct (is_space y) eqn:Hy; [|done].
  apply elem_of_cons in Hin as [->|Hin]; [congruence|by apply IH].
Qed.

Lemma trim_keeps x s : x ∈ s → is_space x = false → x ∈ trim s.
Proof.
  intros Hin Hx. unfold trim.
  apply elem_of_rev, trim_start_keeps; [|done].
  by apply elem_of_rev, trim_start_keeps.
Qed.

Lemma space_not_ascii_whitespace x :
  is_space x = false → is_ascii_whitespace x = false.
Proof.
  unfold is_space, is_ascii_whitespace.
  rewrite !orb_false_iff. intros H. repeat split; apply H.
Qed.

Lemma replace_first_no_match r f s :
  has_match r s = false → replace_first r f s = s.
Proof.
  induction s as [|x s IH]; cbn [has_match replace_first]; unfold match_at.
  - by destruct (ms r []).
  - destruct (ms r (x :: s)); [|done]. intros H. cbn [head]. by rewrite IH.
Qed.

End Foreign64.

(** X14: a payload that holds a character outside the base64 alphabet
    which is neither [=] nor whitespace -- the [-] and [_] of the URL-safe
    alphabet, say -- ends the run at once: the runtime-error text is shown,
    the error is logged, and neither the key nor the signature is looked
    at. *)
Theorem foreign_character_in_payload_stops_the_run {key : Type}
    (subtle_importKey : list N → option key)
    (subtle_verify : key → list N → list N → option bool)
    (rt : runtime) (p s k : jsstring) (x : N) (shell : list node) :
  x ∈ p → is_space x = false → is_b64_text x = false →
  load subtle_importKey subtle_verify rt
    {| flo_payload := Some p; flo_signature := Some s;
       flo_public_pem := Some k |} shell
  = {| body := parse_nodes (error_message rt);
       trace := [EConsoleError InvalidCharacterError] |}.
Proof.
  intros Hin Hs Ht.
  assert (atob (trim p) = None) as E.
  { apply (atob_foreign _ x); [by apply trim_keeps| |done].
    by apply space_not_ascii_whitespace. }
  unfold load, main, try_catch, atob_, throw, emit, set_innerHTML, mbind,
    mret, M_bind, M_ret.
  cbn [flo_payload flo_signature flo_public_pem]. by rewrite E.
Qed.

Lemma foreign_character_in_payload_stops_the_run_witness :
  load import_any (valid_on []) Runtime123.rt
    {| flo_payload := Some (str "SGk*"); flo_signature := Some (str "AAEC");
       flo_public_pem := Some sample_pem |} []
  = {| body := [Parsed (error_message Runtime123.rt)];
       trace := [EConsoleError InvalidCharacterError] |}.
Proof.
  exact (foreign_character_in_payload_stops_the_run import_any (valid_on [])
           Runtime123.rt (str "SGk*") (str "AAEC") sample_pem 42 []
           ltac:(vm_compute; repeat constructor)
           ltac:(vm_compute; reflexivity) ltac:(vm_compute; reflexivity)).
Defined.

(** X15: [pemToArrayBuffer] on a key between the two armour lines of a
    public key, its body without [-]: the lines and all whitespace of the
    body, line breaks included, are removed and the rest is decoded, so that
    a body which is, whitespace apart, the base64 text of [der] gives the
    bytes [der]. *)
Theorem armoured_key_is_decoded {key : Type}
    (body : jsstring) (der : list N) (w : @world key) :
  free_of 45 body = true → is_bytes der = true →
  filter (λ x, negb (is_space x)) body = toString_base64 der →
  pemToArrayBuffer
    (str "-----BEGIN PUBLIC KEY-----" ++ body ++ str "-----END PUBLIC KEY-----")
    w
  = (inr der, w).
Proof.
  intros Hb Hd E. unfold pemToArrayBuffer, atob_, mbind, mret, M_bind, M_ret.
  rewrite pem_b64_armoured, E, atob_toString_base64 by done.
  by rewrite char_codes_bytes.
Qed.

Lemma armoured_key_is_decoded_witness :
  pemToArrayBuffer sample_pem ({| body := []; trace := [] |} : @world unit)
  = (inr [0; 1; 2; 3; 4; 5], {| body := []; trace := [] |}).
Proof.
  exact (armoured_key_is_decoded
           ([10] ++ str "AAEC" ++ [10] ++ str "AwQF" ++ [10])
           [0; 1; 2; 3; 4; 5] {| body := []; trace := [] |}
           ltac:(vm_compute; reflexivity) ltac:(vm_compute; reflexivity)
           ltac:(vm_compute; reflexivity)).
Defined.

(** X16: [pemToArrayBuffer] removes the armour lines of a public key
    and no others: on a text in which they do not occur and which holds a
    [-] -- a key under another label -- it throws the error of [atob]. *)
Theorem other_armour_is_rejected {key : Type}
    (pem : jsstring) (w : @world key) :
  has_match (Lit (str "-----BEGIN PUBLIC KEY-----")) pem = false →
  has_match (Lit (str "-----END PUBLIC KEY-----")) pem = false →
  45 ∈ pem →
  pemToArrayBuffer pem w = (inl InvalidCharacterError, w).
Proof.
  intros H1 H2 Hin. unfold pemToArrayBuffer, atob_, mbind, mret, M_bind, M_ret.
  unfold pem_b64. rewrite (replace_first_no_match _ _ pem H1).
  rewrite (replace_first_no_match _ _ pem H2), remove_whitespace.
  rewrite (atob_foreign _ 45); [done| |done..].
  apply list_elem_of_filter. by split.
Qed.

Lemma other_armour_is_rejected_witness :
  pemToArrayBuffer
    (str "-----BEGIN RSA PUBLIC KEY-----" ++ [10] ++ str "AAEC" ++ [10]
       ++ str "-----END RSA PUBLIC KEY-----")
    ({| body := []; trace := [] |} : @world unit)
  = (inl InvalidCharacterError, {| body := []; trace := [] |}).
Proof.
  exact (other_armour_is_rejected
           (str "-----BEGIN RSA PUBLIC KEY-----" ++ [10] ++ str "AAEC" ++ [10]
              ++ str "-----END RSA PUBLIC KEY-----")
           {| body := []; trace := [] |}
           ltac:(vm_compute; reflexivity) ltac:(vm_compute; reflexivity)
           ltac:(vm_compute; repeat constructor)).
Defined.

(** ** The routes of the producer *)

Lemma endsWith_spec (s suffix : jsstring) :
  endsWith s suffix = true ↔ ∃ name, s = name ++ suffix.
Proof.
  unfold endsWith. rewrite bool_decide_eq_true. split.
  - intros H. exists (take (length s - length suffix) s).
    rewrite <- H at 2. by rewrite take_drop.
  - intros [name ->]. rewrite length_app.
    replace (length name + length suffix - length suffix)%nat
      with (length name) by lia.
    by rewrite drop_app_length.
Qed.

(** X17: the route under [/flocode/] answers every name that ends in
    [.flo] as the root route does, with the shell of the master file,
    whatever the name; a name without that ending is answered 404 with
    [Not a FLO file]. *)
Theorem flocode_serves_the_master_under_any_flo_name
    (rsa_sha256_sign : jsstring → list N → list N)
    (PRIVATE_PEM PUBLIC_PEM home_flo file : jsstring) :
  (∀ name,
     flocode_route rsa_sha256_sign PRIVATE_PEM PUBLIC_PEM home_flo
       (name ++ str ".flo")
     = root_route rsa_sha256_sign PRIVATE_PEM PUBLIC_PEM home_flo)
  ∧ ((∀ name, file ≠ name ++ str ".flo") →
     flocode_route rsa_sha256_sign PRIVATE_PEM PUBLIC_PEM home_flo file
     = {| status := 404; headers := []; sent := str "Not a FLO file" |})
  ∧ status (root_route rsa_sha256_sign PRIVATE_PEM PUBLIC_PEM home_flo) = 200
  ∧ sent (root_route rsa_sha256_sign PRIVATE_PEM PUBLIC_PEM home_flo)
    = buildShell rsa_sha256_sign PRIVATE_PEM PUBLIC_PEM home_flo.
Proof.
  split; [|split; [|done]].
  - intros name. unfold flocode_route.
    by rewrite (proj2 (endsWith_spec _ _)) by by exists name.
  - intros H. unfold flocode_route.
    destruct (endsWith file (str ".flo")) eqn:E; [|done].
    apply endsWith_spec in E as [name ->]. by destruct (H name).
Qed.

(** X18: for a master file without [{], the page of the [/ssr] route
    holds, between its fixed head and tail, exactly the markup each revision
    of the consumer compiles from the same file: the two sides differ in the
    binding of [user] only, and only placeholders read it. *)
Theorem ssr_page_holds_what_the_consumer_renders {js : engine}
    (home_flo : jsstring) :
  free_of 123 home_flo = true →
  let context : gmap jsstring jsval :=
    {[ str "user" := VStr (str "Scholar") ]} in
  sent (ssr_route home_flo)
  = ssr_document (Runtime1.clientCompileFLO home_flo context)
  ∧ sent (ssr_route home_flo)
    = ssr_document (Runtime12.clientCompileFLO home_flo context)
  ∧ sent (ssr_route home_flo)
    = ssr_document (Runtime123.clientCompileFLO home_flo context)
  ∧ sent (ssr_route home_flo) = ssr_document (structural Server.rules home_flo).
Proof.
  intros H context. subst context. unfold ssr_route. cbn [sent].
  rewrite Server_passes, Runtime1_passes, Runtime12_passes, Runtime123_passes.
  by rewrite !interpolate_plain.
Qed.

Lemma ssr_page_holds_what_the_consumer_renders_witness :
  sent (ssr_route (header_tag ++ str "Hi</flo:header>"))
  = ssr_document (header_wrapper ++ str "Hi</header>").
Proof.
  pose proof (ssr_page_holds_what_the_consumer_renders
                (header_tag ++ str "Hi</flo:header>")
                ltac:(vm_compute; reflexivity)) as (_ & _ & _ & H).
  etransitivity; [exact H|]. vm_compute. reflexivity.
Defined.

(** ** Values that are not strings *)

(** A read gives [null] or [false] only when the object holds that value
    itself: nothing an object literal inherits is [null] or [false]. *)
Lemma get_prop_falsy (context : gmap jsstring jsval) (v : jsstring)
    (x : jsval) :
  x = VNull ∨ x = VBool false →
  get_prop context v = x ↔ context !! v = Some x.
Proof.
  intros Hx. unfold get_prop. destruct (context !! v) as [y|].
  - split; congruence.
  - destruct (Object_prototype !! v) as [y|] eqn:E; simpl.
    + destruct (inherited_truthy v y E) as [Ht _].
      split; [|done]. intros ->. by destruct Hx as [-> | ->].
    + split; [|done]. intros <-. by destruct Hx.
Qed.

(** X19: among the values the model holds (undefined, null, booleans,
    strings, and the functions and the object an object literal inherits)
    the compilers, run by one engine, differ on [null] and [false] only: the
    second revision compiles as the first, the third as the producer, and
    the first as the producer on every bindings that hold neither [null] nor
    [false] -- which the first two revisions print and the other two
    drop. *)
Theorem compilers_part_on_null_and_false_only {js : engine}
    (src : jsstring) (context : gmap jsstring jsval) :
  Runtime12.clientCompileFLO src context = Runtime1.clientCompileFLO src context
  ∧ Runtime123.clientCompileFLO src context
    = Server.compileFLOtoHTML src context
  ∧ ((∀ v, context !! v ≠ Some VNull ∧ context !! v ≠ Some (VBool false)) →
     Runtime1.clientCompileFLO src context
     = Server.compileFLOtoHTML src context)
  ∧ (∀ v w,
       Runtime1.lookup_var context w [v] = Server.lookup_var context w [v]
       ↔ context !! v ≠ Some VNull ∧ context !! v ≠ Some (VBool false)).
Proof.
  split; [done|]. split; [done|]. split.
  - intros H. rewrite Runtime1_passes, Server_passes. f_equal.
    apply replace_go_ext. intros w caps.
    apply lookups_agree; rewrite get_prop_falsy by auto; apply H.
  - intros v w. rewrite <- !(get_prop_falsy context v) by auto. split.
    + unfold Runtime1.lookup_var, Server.lookup_var, arg1. simpl.
      by destruct (get_prop context v) as [| |[|]|[|x s]| |].
    + intros [H1 H2]. by apply (lookups_agree context w [v]).
Qed.

(** ** Attributes: which title, which place for the address *)

Section Attributes.

Implicit Types (pre post X : jsstring) (f : replacer).

Ltac free_of_parts :=
  rewrite ?free_of_app;
  repeat match goal with
         | H : plain ?s = true |- context [free_of 60 ?s] =>
             rewrite (plain_lt s H)
         | H : plain ?s = true |- context [free_of 123 ?s] =>
             rewrite (plain_brace s H)
         | H : free_of ?a ?s = true |- context [free_of ?a ?s] => rewrite H
         end;
  reflexivity.


(** A link tag that does not go on with [ href=] fails the link rule, and
    every other rule. *)
Lemma link_without_href_kept f pre X post :
  plain pre = true → plain X = true → plain post = true →
  starts_with (str " href=" ++ dq) X = false →
  structural Server.rules
    (interpolate f (pre ++ str "<flo:link" ++ X ++ link_close ++ post))
  = pre ++ str "<flo:link" ++ X ++ link_close ++ post.
Proof.
  intros Hpre HX Hpost Hs.
  rewrite interpolate_plain by (unfold link_close; free_of_parts).
  change (pre ++ str "<flo:link" ++ X ++ link_close ++ post)
    with (pre ++ 60 :: (str "flo:link" ++ X) ++ 60 :: str "/flo:link>" ++ post).
  apply structural_two_lt.
  - apply rules_open_with_lt.
  - by apply plain_lt.
  - free_of_parts.
  - free_of_parts.
  - rewrite <- (take_drop_middle Server.rules 14 (link_re, link_tmpl) eq_refl).
    rewrite fail_at_app. apply andb_true_intro. split.
    + apply (fail_before_link (X ++ 60 :: str "/flo:link>" ++ post)).
    + unfold fail_at. cbn [forallb fst drop]. rewrite andb_true_r.
      unfold link_re.
      change (Lit (str "<flo:link href=" ++ dq))
        with (Lit (str "<flo:link" ++ str " href=" ++ dq)).
      rewrite ms_Lit_Cat_fail; [done|].
      apply not_true_is_false. intros H. unfold starts_with in H.
      change (60 :: (str "flo:link" ++ X) ++ 60 :: str "/flo:link>" ++ post)
        with (str "<flo:link" ++ X ++ 60 :: str "/flo:link>" ++ post) in H.
      destruct (strip_prefix _ _) as [rest|] eqn:E in H; [|done].
      apply strip_prefix_Some in E. rewrite <- app_assoc in E.
      apply app_inv_head in E.
      assert (starts_with (str " href=" ++ dq)
                (X ++ 60 :: str "/flo:link>" ++ post) = true) as Hs'.
      { unfold starts_with. by rewrite E, strip_prefix_app. }
      apply starts_with_separator in Hs'; [congruence|reflexivity].
  - apply (fail_at_link_close post).
Qed.

End Attributes.



(** With a [>] in the earlier title the run of [[^>]*] stops there, and
    the earlier title is the one carried over. *)
Lemma earlier_title_wins_behind_gt :
  Server.compileFLOtoHTML
    (str "<flo:page title=" ++ dq ++ str "a > b" ++ dq ++ str " title=" ++ dq
       ++ str "Home" ++ dq ++ str ">") ∅
  = page_wrapper (str "a > b").
Proof. vm_compute. reflexivity. Qed.

(** X21: the link rule wants the address as the first attribute.  Among
    plain text (no [<], no [{]), a link element whose tag does not go on
    with [ href=] and a double quote right behind [<flo:link], and whose
    attributes and inline text are plain as well, is left untouched, its
    closing tag included, by each of the four compilers. *)
Theorem link_needs_href_first {js : engine}
    (pre X post : jsstring) (context : gmap jsstring jsval) :
  plain pre = true → plain X = true → plain post = true →
  starts_with (str " href=" ++ dq) X = false →
  let src := pre ++ str "<flo:link" ++ X ++ link_close ++ post in
  Server.compileFLOtoHTML src context = src
  ∧ Runtime1.clientCompileFLO src context = src
  ∧ Runtime12.clientCompileFLO src context = src
  ∧ Runtime123.clientCompileFLO src context = src.
Proof.
  intros Hpre HX Hpost Hs src. subst src.
  rewrite ?Server_passes, ?Runtime1_passes, ?Runtime12_passes,
    ?Runtime123_passes.
  by rewrite !link_without_href_kept.
Qed.

Lemma link_needs_href_first_witness :
  let src :=
    str "<flo:link class=" ++ dq ++ str "x" ++ dq ++ str " href=" ++ dq
      ++ str "/docs" ++ dq ++ str ">Docs</flo:link>" in
  Server.compileFLOtoHTML src ∅ = src.
Proof.
  intros src.
  pose proof (link_needs_href_first []
                (str " class=" ++ dq ++ str "x" ++ dq ++ str " href=" ++ dq
                   ++ str "/docs" ++ dq ++ str ">Docs") [] ∅
                ltac:(vm_compute; reflexivity) ltac:(vm_compute; reflexivity)
                ltac:(vm_compute; reflexivity) ltac:(vm_compute; reflexivity))
    as (H & _).
  etransitivity; [|exact H]. vm_compute. reflexivity.
Defined.


(** ** Compiling what was compiled *)

Section FixedPoint.

Context {js : engine}.

Implicit Types (it : item) (items : list item)
  (bindings : gmap jsstring jsstring).

Ltac free_of_parts :=
  rewrite ?free_of_app;
  repeat match goal with
         | H : plain ?s = true |- context [free_of 60 ?s] =>
             rewrite (plain_lt s H)
         | H : plain ?s = true |- context [free_of 123 ?s] =>
             rewrite (plain_brace s H)
         | H : free_of ?a ?s = true |- context [free_of ?a ?s] => rewrite H
         end;
  reflexivity.

Lemma evolves_one_lt W :
  free_of 60 W = true →
  (∀ rest, fail_at Server.rules (60 :: W ++ rest) = true) →
  evolves Server.rules (60 :: W) (60 :: W).
Proof.
  intros HW Hfail. apply evolves_dead, dead_one_lt; [|done..].
  apply rules_open_with_lt.
Qed.

Lemma wrapper_settled tag wrapper :
  (tag, wrapper) ∈ literal_rules →
  free_of 123 wrapper = true ∧ evolves Server.rules wrapper wrapper.
Proof.
  rewrite literal_rules_table. intros H.
  repeat (apply elem_of_cons in H as [[= -> ->]|H]);
    try (split; [reflexivity|];
         apply evolves_one_lt; [reflexivity|intros rest; reflexivity]).
  by apply elem_of_nil in H.
Qed.

Lemma anchor_settled href text :
  plain href = true → plain text = true →
  evolves Server.rules (link_anchor href text) (link_anchor href text).
Proof.
  intros Hh Ht. apply evolves_dead.
  pose proof (dead_one_lt Server.rules
                (str "a href=" ++ dq ++ href ++ dq ++ str " class=" ++ dq
                   ++ str "flo-link" ++ dq ++ str ">" ++ text)
                rules_open_with_lt ltac:(free_of_parts)
                (λ rest, eq_refl)) as H1.
  pose proof (dead_one_lt Server.rules (str "/a>") rules_open_with_lt
                eq_refl (λ rest, eq_refl)) as H2.
  rewrite Forall_forall in H1, H2. apply Forall_forall. intros rule Hin.
  assert (link_anchor href text
          = (60 :: str "a href=" ++ dq ++ href ++ dq ++ str " class=" ++ dq
               ++ str "flo-link" ++ dq ++ str ">" ++ text) ++ 60 :: str "/a>")
    as ->.
  { unfold link_anchor. rewrite <- app_comm_cons, <- !app_assoc.
    reflexivity. }
  apply dead_app; auto.
Qed.

Lemma item_html_settled bindings it :
  item_ok bindings it = true → item_settled bindings it = true →
  free_of 123 (item_html bindings it) = true
  ∧ evolves Server.rules (item_html bindings it) (item_html bindings it).
Proof.
  destruct it as [t|ws1 v ws2|tag wrapper|a1 t a2|a1 t a2|href attrs text];
    cbn [item_ok item_settled item_html].
  - intros [Hb Ht]%andb_prop _. split; [done|].
    by apply evolves_dead, dead_foreign.
  - intros [_ Hval]%andb_prop Hb. split; [done|].
    by apply evolves_dead, dead_foreign.
  - intros H%bool_decide_eq_true _. by eapply wrapper_settled.
  - intros (_ & Ht & _)%titled_ok_parts _. split.
    + unfold page_wrapper. free_of_parts.
    + apply (evolves_one_lt
               (str "div class=" ++ dq ++ str "flo-page" ++ dq
                  ++ str " data-title=" ++ dq ++ t ++ dq ++ str ">")).
      * free_of_parts.
      * intros rest. apply (fail_at_div _).
  - intros (_ & Ht & _)%titled_ok_parts _. split.
    + unfold card_wrapper. free_of_parts.
    + apply (evolves_one_lt
               (str "section class=" ++ dq ++ str "flo-card" ++ dq
                  ++ str " data-title=" ++ dq ++ t ++ dq ++ str ">")).
      * free_of_parts.
      * intros rest. apply (fail_at_section _).
  - rewrite !andb_true_iff.
    intros ((((((Hh & Ha) & Ht) & _) & _) & _) & _) _. split.
    + unfold link_anchor. free_of_parts.
    + by apply anchor_settled.
Qed.

Lemma free_of_concat a (ps : list jsstring) :
  Forall (λ p, free_of a p = true) ps → free_of a (concat ps) = true.
Proof.
  induction 1 as [|p ps Hp _ IH]; [done|]. cbn [concat].
  by rewrite free_of_app, Hp, IH.
Qed.

(** The markup of a document is left as it is by both passes. *)
Lemma document_html_settled f bindings items :
  forallb (item_ok bindings) items = true →
  forallb (item_settled bindings) items = true →
  structural Server.rules (interpolate f (document_html bindings items))
  = document_html bindings items.
Proof.
  intros Hok Hs. rewrite forallb_forall in Hok, Hs.
  assert (∀ it, it ∈ items →
            free_of 123 (item_html bindings it) = true
            ∧ evolves Server.rules (item_html bindings it)
                (item_html bindings it)) as H.
  { intros it Hin%list_elem_of_In. apply item_html_settled; auto. }
  unfold document_html. rewrite interpolate_plain.
  - apply structural_pieces; [apply rules_open_with_lt|].
    apply Forall_Forall2_diag, Forall_fmap, Forall_forall.
    intros it Hin. by apply H.
  - apply free_of_concat, Forall_fmap, Forall_forall. intros it Hin.
    by apply H.
Qed.

End FixedPoint.

(** X22: compiling twice changes nothing.  The markup that a document of
    well-formed items compiles to, what its placeholders print holding no
    [{] (which leaves out the names the bindings object inherits, whose text
    holds one), is returned as it is by each of the four compilers, under
    any bindings. *)
Theorem compiled_document_is_a_fixed_point {js : engine}
    (items : list item) (bindings : gmap jsstring jsstring)
    (context : gmap jsstring jsval) :
  forallb (item_ok bindings) items = true →
  forallb (item_settled bindings) items = true →
  let html :=
    Server.compileFLOtoHTML (document_source items) (VStr <$> bindings) in
  html = document_html bindings items
  ∧ Server.compileFLOtoHTML html context = html
  ∧ Runtime1.clientCompileFLO html context = html
  ∧ Runtime12.clientCompileFLO html context = html
  ∧ Runtime123.clientCompileFLO html context = html.
Proof.
  intros Hok Hs html. subst html.
  rewrite (Server_passes (document_source items)), document_compiles by done.
  rewrite Server_passes, Runtime1_passes, Runtime12_passes, Runtime123_passes.
  by rewrite !document_html_settled.
Qed.

Lemma compiled_document_is_a_fixed_point_witness :
  let html := page_wrapper (str "Home") ++ str "Hi Ada</div>" in
  Server.compileFLOtoHTML html ∅ = html.
Proof.
  intros html.
  pose ({[ str "user" := str "Ada" ]} : gmap jsstring jsstring) as bindings.
  pose proof (compiled_document_is_a_fixed_point
                [ IPage (str " ") (str "Home") []; IText (str "Hi ");
                  IHole [] (str "user") [];
                  ITag (str "</flo:page>") (str "</div>") ]
                bindings ∅
                ltac:(vm_compute; reflexivity) ltac:(vm_compute; reflexivity))
    as (E & H & _).
  rewrite E in H. etransitivity; [|etransitivity; [exact H|]];
    vm_compute; reflexivity.
Defined.

(** X23: a payload element that is there but blank is not a missing
    input: it decodes to the empty source, the verification is asked about
    no bytes at all, and when it answers true the page shows the note alone;
    when it answers false, the integrity text. *)
Theorem blank_payload_is_an_empty_source {js : engine} {key : Type}
    (subtle_importKey : list N → option key)
    (subtle_verify : key → list N → list N → option bool)
    (ws s k der sig : jsstring) (publicKey : key) (shell : list node) :
  forallb is_space ws = true →
  atob (pem_b64 (trim k)) = Some der →
  subtle_importKey (char_codes der) = Some publicKey →
  atob (trim s) = Some sig →
  let doc := {| flo_payload := Some ws; flo_signature := Some s;
                flo_public_pem := Some k |} in
  let context : gmap jsstring jsval :=
    {[ str "user" := VStr (str "Scholar") ]} in
  (subtle_verify publicKey (char_codes sig) [] = Some true →
   ∀ rt, rt = Runtime1.rt ∨ rt = Runtime12.rt ∨ rt = Runtime123.rt →
     load subtle_importKey subtle_verify rt doc shell
     = {| body := [note rt];
          trace := [EImportKey (char_codes der);
                    EVerify publicKey (char_codes sig) [] (Some true);
                    ECompile [] context] |})
  ∧ (subtle_verify publicKey (char_codes sig) [] = Some false →
     ∀ rt,
       load subtle_importKey subtle_verify rt doc shell
       = {| body := parse_nodes (integrity_message rt);
            trace := [EImportKey (char_codes der);
                      EVerify publicKey (char_codes sig) [] (Some false)] |}).
Proof.
  intros Hws Hder Hkey Hsig doc context. subst doc context.
  assert (trim ws = []) as E.
  { unfold trim. by rewrite (trim_start_all_spaces ws Hws). }
  split; intros Hok rt;
    unfold load, main, try_catch, verifySignature, importPublicKey,
      pemToArrayBuffer, clientCompile, atob_, emit, set_innerHTML,
      appendChildren, throw, mbind, mret, M_bind, M_ret;
    cbn [fst snd body trace app negb flo_payload flo_signature flo_public_pem];
    rewrite E; change (atob []) with (Some ([] : jsstring));
    rewrite Hder; cbn [body trace app]; rewrite Hkey, Hsig;
    cbn [TextEncoder_encode]; rewrite Hok; [|reflexivity].
  by intros [->|[->| ->]].
Qed.

Lemma blank_payload_is_an_empty_source_witness :
  load import_any (valid_on []) Runtime12.rt
    {| flo_payload := Some [32; 10]; flo_signature := Some [];
       flo_public_pem := Some sample_pem |} []
  = {| body := [note Runtime12.rt];
       trace := [EImportKey [0; 1; 2; 3; 4; 5];
                 EVerify () [] [] (Some true);
                 ECompile [] {[ str "user" := VStr (str "Scholar") ]}] |}.
Proof.
  pose proof (blank_payload_is_an_empty_source import_any (valid_on [])
                [32; 10] [] sample_pem [0; 1; 2; 3; 4; 5] [] () []
                ltac:(vm_compute; reflexivity) ltac:(vm_compute; reflexivity)
                ltac:(vm_compute; reflexivity) ltac:(vm_compute; reflexivity))
    as (H & _).
  exact (H eq_refl Runtime12.rt ltac:(right; left; reflexivity)).
Defined.
